(** * gh-iterator-filter-cel: the filter chain, the clone cache and the dispatcher

    A shallow embedding of the Go sources
      - [filter.go] and [main.go] (package main, the CEL front end and the
        report of a run),
      - package iterator: the options and [MakeFilterIn], the pages of a
        listing, the clone cache, [RunForRepository], [RunForOrganization]
        and its dispatcher,
      - package exec: the environment of an execer, the task of a command
        and the errors of [RunX],
    followed by the properties of the specification stated over it and by
    further properties of the code: safety, progress and termination of the
    dispatcher, which records it processes, and what the clone cache leaves
    on disk. *)

From Stdlib Require Import ZArith List String Ascii Bool Lia Permutation.
Import ListNotations.

Local Open Scope string_scope.
Local Open Scope list_scope.
Local Open Scope Z_scope.

(** ** Go values shared by every component *)

(** [error] values.  The sentinel [errNoDefaultBranch] is a package-level
    variable compared by identity; [fmt.Errorf] with a [%w] verb keeps the
    wrapped error reachable for [errors.Is], so the format and its string
    arguments are kept symbolic next to the wrapped error. *)
Inductive error : Type :=
| errNoDefaultBranch
| ErrNew (msg : string)
| ErrorF (format : string) (args : list string)
| ErrWrapf (format : string) (args : list string) (inner : error)
| ErrForeign (msg : string)
| ErrCtx (cause : string).

(** [errors.Is(err, errNoDefaultBranch)]: follow the [Unwrap] chain. Errors
    made elsewhere ([ErrForeign], [ErrNew], [ErrorF], [ErrCtx]) are never the sentinel,
    which is unexported. *)
Fixpoint isNoDefaultBranch (e : error) : bool :=
  match e with
  | errNoDefaultBranch => true
  | ErrWrapf _ _ inner => isNoDefaultBranch inner
  | _ => false
  end.

(** [time.Time], reduced to the civil fields the program formats or forwards. *)
Record Time : Type := mkTime {
  tYear : Z; tMonth : Z; tDay : Z;
  tHour : Z; tMinute : Z; tSecond : Z; tNano : Z
}.

Module GoStrings.

(** [strings.Count(s, "/")] for a one-byte separator. *)
Fixpoint Count (s : string) (c : ascii) : Z :=
  match s with
  | EmptyString => 0
  | String a rest => (if Ascii.eqb a c then 1 else 0) + Count rest c
  end.

(** [strings.Join]. *)
Fixpoint Join (elems : list string) (sep : string) : string :=
  match elems with
  | [] => EmptyString
  | [x] => x
  | x :: rest => (x ++ sep ++ Join rest sep)%string
  end.

Definition lowerAscii (a : ascii) : ascii :=
  let n := nat_of_ascii a in
  if (Nat.leb 65 n && Nat.leb n 90)%bool then ascii_of_nat (n + 32) else a.

(** A byte below [utf8.RuneSelf]. *)
Definition isASCII (a : ascii) : bool := Nat.ltb (nat_of_ascii a) 128.

(** [strings.EqualFold].  Its fast path walks both strings byte by byte
    while both bytes are ASCII: equal bytes and the two cases of one letter
    match, anything else answers false, and when the shorter string is
    exhausted the lengths decide.  At the first position where one of the
    two bytes is not ASCII the function goes on, from there, with its loop
    over runes under Unicode simple case folding; that loop, which needs
    the tables of package unicode, is [beyondASCII], applied to the rest of
    both strings. *)
Fixpoint EqualFold (beyondASCII : string -> string -> bool) (s t : string) : bool :=
  match s, t with
  | EmptyString, EmptyString => true
  | String a s', String b t' =>
      if (isASCII a && isASCII b)%bool
      then Ascii.eqb (lowerAscii a) (lowerAscii b) && EqualFold beyondASCII s' t'
      else beyondASCII s t
  | _, _ => false
  end.

Definition isEmpty (s : string) : bool :=
  match s with EmptyString => true | _ => false end.

End GoStrings.

(** ** Package iterator: the data model *)

Record Repository : Type := mkRepository {
  Name : string;
  URL : string;
  SSHURL : string;
  DefaultBranchName : string;
  Archived : bool;
  Language : string;
  Visibility_ : string;
  Fork : bool;
  Size : Z;
  PushedAt : Time
}.

Inductive Visibility : Type :=
  VisibilityNone | VisibilityPublic | VisibilityPrivate | VisibilityInternal.

Definition Visibility_String (v : Visibility) : string :=
  match v with
  | VisibilityPublic => "public"
  | VisibilityPrivate => "private"
  | VisibilityInternal => "internal"
  | VisibilityNone => EmptyString
  end.

Definition Visibility_eqb (a b : Visibility) : bool :=
  match a, b with
  | VisibilityNone, VisibilityNone
  | VisibilityPublic, VisibilityPublic
  | VisibilityPrivate, VisibilityPrivate
  | VisibilityInternal, VisibilityInternal => true
  | _, _ => false
  end.

Inductive ArchiveCondition : Type := IncludeArchived | OnlyArchived | OmitArchived.
Inductive Source : Type := AllSources | OnlyForks | OnlyNonForks.
Inductive SizeCondition : Type := All | NotEmpty | OnlyEmpty.

(** [type Page int], [const AllPages Page = -1]. *)
Definition Page : Type := Z.
Definition AllPages : Page := -1.
Definition PageN (n : Z) : Page := n.

Record SearchOptions : Type := mkSearchOptions {
  Languages : list string;
  soArchiveCondition : ArchiveCondition;
  soVisibility : Visibility;
  soSource : Source;
  PerPage : Z;
  soPage : Page;
  soSizeCondition : SizeCondition;
  FilterIn : option (Repository -> bool);
  Cache : Z
}.

Definition defaultPerPage : Z := 100.
Definition maxPerPage : Z := 1000.

(** The zero value [SearchOptions{}]. *)
Definition zeroSearchOptions : SearchOptions :=
  mkSearchOptions [] IncludeArchived VisibilityNone AllSources 0 0 All None 0.

(** ** The filter chain: [SearchOptions.MakeFilterIn] (options.go)

    [fold] is the part of [strings.EqualFold] that lies beyond ASCII. *)

Definition languageFilter (fold : string -> string -> bool) (langs : list string)
           (r : Repository) : bool :=
  existsb (fun l => GoStrings.EqualFold fold l (Language r)) langs.

(** The slice [filters] in the order the method appends to it. *)
Definition filtersOf (fold : string -> string -> bool) (so : SearchOptions)
  : list (Repository -> bool) :=
  (match FilterIn so with Some f => [f] | None => [] end)
  ++ (match Languages so with
      | [] => []
      | _ :: _ => [languageFilter fold (Languages so)]
      end)
  ++ (match soArchiveCondition so with
      | OnlyArchived => [fun r => Archived r]
      | OmitArchived => [fun r => negb (Archived r)]
      | IncludeArchived => []
      end)
  ++ (match soSource so with
      | OnlyForks => [fun r => Fork r]
      | OnlyNonForks => [fun r => negb (Fork r)]
      | AllSources => []
      end)
  ++ (if Visibility_eqb (soVisibility so) VisibilityNone then []
      else [fun r => String.eqb (Visibility_ r) (Visibility_String (soVisibility so))])
  ++ (match soSizeCondition so with
      | NotEmpty => [fun r => 0 <? Size r]
      | OnlyEmpty => [fun r => Size r =? 0]
      | All => []
      end).

(** The returned closure: the first filter that answers [false] decides. *)
Fixpoint applyFilters (filters : list (Repository -> bool)) (r : Repository) : bool :=
  match filters with
  | [] => true
  | f :: rest => if f r then applyFilters rest r else false
  end.

Definition MakeFilterIn (fold : string -> string -> bool) (so : SearchOptions)
  : Repository -> bool :=
  applyFilters (filtersOf fold so).

(** ** Package main: the CEL front end (filter.go) *)

(** What [out.Value()] can hold after [prg.Eval]. *)
Inductive GoValue : Type :=
| VBool (b : bool)
| VInt (n : Z)
| VString (s : string)
| VTime (t : Time)
| VOther (kind : string).

(** [map[string]any] with the seven keys the closure writes. *)
Definition FieldMap : Type := list (string * GoValue).

Definition repoMap (r : Repository) : FieldMap :=
  [ ("name", VString (Name r));
    ("archived", VBool (Archived r));
    ("language", VString (Language r));
    ("visibility", VString (Visibility_ r));
    ("fork", VBool (Fork r));
    ("isEmpty", VBool (Size r =? 0));
    ("pushedAt", VTime (PushedAt r)) ].

(** A compiled [cel.Program]: [prg.Eval] over the activation
    [{"repo": repoMap}] answers a value or an error. *)
Definition Program : Type := FieldMap -> GoValue + error.

(** The expression compiler ([cel.NewEnv], [env.Compile], [env.Program]) is an
    external collaborator: it either rejects the text or yields a program. *)
Definition Compiler : Type := string -> Program + error.

Inductive LogLevel : Type := LevelDebug | LevelInfo | LevelWarn | LevelError.

(** A value of a key/value pair given to [slog]. *)
Inductive LogAttr : Type :=
| AttrString (s : string)
| AttrError (e : error).

Record LogRecord : Type := mkLog {
  logLevel : LogLevel;
  logMsg : string;
  logAttrs : list (string * LogAttr)
}.

Definition defaultSearchFilterIn (r : Repository) : bool :=
  negb (Archived r) && negb (Fork r) && (0 <? Size r).

(** The closure returned for a non-empty condition, with the records it
    hands to the logger [l]. *)
Definition celFilterIn (prg : Program) (r : Repository) : bool * list LogRecord :=
  match prg (repoMap r) with
  | inr err =>
      (false, [mkLog LevelError "Failed to evaluate CEL expression"
                     [("error", AttrError err)]])
  | inl out =>
      match out with
      | VBool result => (result, [])
      | _ => (false, [])
      end
  end.

Definition LoggingFilter : Type := Repository -> bool * list LogRecord.

Definition parseSearchFilterIn (cel : Compiler) (cond : string)
  : LoggingFilter + error :=
  if GoStrings.isEmpty cond then inl (fun r => (defaultSearchFilterIn r, []))
  else match cel cond with
       | inr err => inr err
       | inl prg => inl (celFilterIn prg)
       end.

(** The [func(Repository) bool] seen by the library. *)
Definition asFilter (f : LoggingFilter) : Repository -> bool := fun r => fst (f r).

(** main.go: only [FilterIn], [PerPage] and [Page] are ever set. *)
Definition cliSearchOptions (f : LoggingFilter) (perPage : Z) (p : Z) : SearchOptions :=
  mkSearchOptions [] IncludeArchived VisibilityNone AllSources perPage (PageN p)
                  All (Some (asFilter f)) 0.

(** ** Library functions the clone cache relies on *)

(** [crypto/md5] (RFC 1321) over 32-bit words held in [Z]; every addition
    wraps modulo [2^32]. *)
Module MD5.

Definition mask32 (x : Z) : Z := Z.land x 4294967295.
Definition add32 (x y : Z) : Z := mask32 (x + y).
Definition not32 (x : Z) : Z := Z.lxor x 4294967295.
Definition rotl32 (x : Z) (c : Z) : Z :=
  mask32 (Z.lor (Z.shiftl x c) (Z.shiftr x (32 - c))).

Definition shifts : list Z :=
  [ 7; 12; 17; 22; 7; 12; 17; 22; 7; 12; 17; 22; 7; 12; 17; 22;
    5; 9; 14; 20; 5; 9; 14; 20; 5; 9; 14; 20; 5; 9; 14; 20;
    4; 11; 16; 23; 4; 11; 16; 23; 4; 11; 16; 23; 4; 11; 16; 23;
    6; 10; 15; 21; 6; 10; 15; 21; 6; 10; 15; 21; 6; 10; 15; 21 ].

Definition sines : list Z :=
  [ 3614090360; 3905402710; 606105819; 3250441966;
    4118548399; 1200080426; 2821735955; 4249261313;
    1770035416; 2336552879; 4294925233; 2304563134;
    1804603682; 4254626195; 2792965006; 1236535329;
    4129170786; 3225465664; 643717713; 3921069994;
    3593408605; 38016083; 3634488961; 3889429448;
    568446438; 3275163606; 4107603335; 1163531501;
    2850285829; 4243563512; 1735328473; 2368359562;
    4294588738; 2272392833; 1839030562; 4259657740;
    2763975236; 1272893353; 4139469664; 3200236656;
    681279174; 3936430074; 3572445317; 76029189;
    3654602809; 3873151461; 530742520; 3299628645;
    4096336452; 1126891415; 2878612391; 4237533241;
    1700485571; 2399980690; 4293915773; 2240044497;
    1873313359; 4264355552; 2734768916; 1309151649;
    4149444226; 3174756917; 718787259; 3951481745 ].

Definition bytesOf (s : string) : list Z :=
  map (fun a => Z.of_nat (nat_of_ascii a)) (list_ascii_of_string s).

Definition le64 (n : Z) : list Z :=
  map (fun i => Z.land (Z.shiftr n (8 * Z.of_nat i)) 255) (seq 0 8).

(** Padding: one [0x80] byte, zeros up to 56 modulo 64, the bit length. *)
Definition pad (msg : list Z) : list Z :=
  let len := Z.of_nat (List.length msg) in
  let zeros := Z.to_nat ((55 - len) mod 64) in
  msg ++ [128] ++ repeat 0 zeros ++ le64 (8 * len).

Fixpoint wordsLE (bs : list Z) : list Z :=
  match bs with
  | b0 :: b1 :: b2 :: b3 :: rest =>
      (b0 + Z.shiftl b1 8 + Z.shiftl b2 16 + Z.shiftl b3 24) :: wordsLE rest
  | _ => []
  end.

Definition State : Type := (Z * Z * Z * Z)%type.

Definition init : State := (1732584193, 4023233417, 2562383102, 271733878).

Definition round (m : list Z) (st : State) (i : nat) : State :=
  let '(a, b, c, d) := st in
  let iz := Z.of_nat i in
  let '(f, g) :=
    if iz <? 16 then (Z.lor (Z.land b c) (Z.land (not32 b) d), iz)
    else if iz <? 32 then (Z.lor (Z.land d b) (Z.land (not32 d) c), (5 * iz + 1) mod 16)
    else if iz <? 48 then (Z.lxor (Z.lxor b c) d, (3 * iz + 5) mod 16)
    else (Z.lxor c (Z.lor b (not32 d)), (7 * iz) mod 16) in
  let f' := add32 (add32 (add32 f a) (nth i sines 0)) (nth (Z.to_nat g) m 0) in
  (d, add32 b (rotl32 f' (nth i shifts 0)), b, c).

Definition block (st : State) (m : list Z) : State :=
  let '(a0, b0, c0, d0) := st in
  let '(a, b, c, d) := fold_left (round m) (seq 0 64) st in
  (add32 a0 a, add32 b0 b, add32 c0 c, add32 d0 d).

Fixpoint blocks (fuel : nat) (st : State) (ws : list Z) : State :=
  match fuel with
  | O => st
  | S fuel' =>
      match ws with
      | [] => st
      | _ => blocks fuel' (block st (firstn 16 ws)) (skipn 16 ws)
      end
  end.

Definition le32 (w : Z) : list Z :=
  map (fun i => Z.land (Z.shiftr w (8 * Z.of_nat i)) 255) (seq 0 4).

(** [md5.Sum]: the sixteen digest bytes. *)
Definition Sum (msg : string) : list Z :=
  let ws := wordsLE (pad (bytesOf msg)) in
  let '(a, b, c, d) := blocks (List.length ws) init ws in
  le32 a ++ le32 b ++ le32 c ++ le32 d.

End MD5.

Module Fmt.

Definition hexDigit (n : Z) : ascii :=
  nth (Z.to_nat n)
      (list_ascii_of_string "0123456789abcdef") "0"%char.

(** [fmt.Sprintf("%x", bytes)]: two lower-case digits per byte. *)
Fixpoint hex (bs : list Z) : string :=
  match bs with
  | [] => EmptyString
  | b :: rest => String (hexDigit (b / 16)) (String (hexDigit (b mod 16)) (hex rest))
  end.

Definition digit (n : Z) : ascii := ascii_of_nat (48 + Z.to_nat n).

(** A decimal field of fixed width, zero padded (time's [appendInt]). *)
Fixpoint padDigits (width : nat) (x : Z) : string :=
  match width with
  | O => EmptyString
  | S w => (padDigits w (x / 10) ++ String (digit (x mod 10)) EmptyString)%string
  end.

Fixpoint natDigits (fuel : nat) (x : Z) : string :=
  match fuel with
  | O => EmptyString
  | S f =>
      if x <? 10 then String (digit x) EmptyString
      else (natDigits f (x / 10) ++ String (digit (x mod 10)) EmptyString)%string
  end.

(** The [%d] verb. *)
Definition decimal (x : Z) : string :=
  if x <? 0 then String "-"%char (natDigits (S (Z.to_nat (Z.log2 (- x)))) (- x))
  else natDigits (S (Z.to_nat (Z.log2 x))) x.

(** Trailing ['0'] bytes removed, as the [.999999999] layout asks. *)
Fixpoint trimZeros (s : string) : string :=
  match s with
  | EmptyString => EmptyString
  | String c rest =>
      match trimZeros rest with
      | EmptyString => if Ascii.eqb c "0"%char then EmptyString
                       else String c EmptyString
      | t => String c t
      end
  end.

(** The fraction of [time.Format] under [.999999999]: nothing at all for a
    whole second, else a dot and the nanoseconds without trailing zeros. *)
Definition fracSecond9 (nanosec : Z) : string :=
  if nanosec =? 0 then EmptyString
  else String "."%char (trimZeros (padDigits 9 nanosec)).

End Fmt.

(** [time.Now().Format("02T15_04_05.999999999")]: day of the month, hour,
    minute, second and the trimmed fraction; month and year are not part of
    the layout. *)
Definition formatCacheKey (t : Time) : string :=
  (Fmt.padDigits 2 (tDay t) ++ "T" ++ Fmt.padDigits 2 (tHour t) ++ "_"
   ++ Fmt.padDigits 2 (tMinute t) ++ "_" ++ Fmt.padDigits 2 (tSecond t)
   ++ Fmt.fracSecond9 (tNano t))%string.

(** What [time.Now()] can return. *)
Definition validClock (t : Time) : Prop :=
  1 <= tMonth t <= 12 /\ 1 <= tDay t <= 31 /\ 0 <= tHour t <= 23 /\
  0 <= tMinute t <= 59 /\ 0 <= tSecond t <= 59 /\ 0 <= tNano t <= 999999999.

(** ** The clone cache (package iterator) *)

(** [Options]; the logging fields ([Debug], [LogHandler]) and the
    [ContextEnricher], which only decorate the context, are left out. *)
Record Options : Type := mkOptions {
  UseHTTPS : bool;
  CloneCacheKey : option (Repository -> string);
  CloningSubset : list string;
  NumberOfWorkers : Z
}.

Definition defaultNumberOfWorkers : Z := 10.
Definition GithubAPIVersion : string := "2022-11-28".


Definition hashCloningSubset (cs : list string) : string :=
  substring 0 16 (Fmt.hex (MD5.Sum (GoStrings.Join cs "|"))).

Definition cloneDirName (repo : Repository) (cacheKey : string)
           (subset : list string) : string :=
  let base := (Name repo ++ "-" ++ cacheKey)%string in
  match subset with
  | [] => base
  | _ :: _ => (base ++ "-" ++ hashCloningSubset subset)%string
  end.

(** ** The outside world

    Commands, the file system, the clock, the random suffix and the caller's
    Processor are external.  Each call is recorded as an [Event]; its answer
    is read from a [World], which sees the whole history so far, so a world
    may answer the same question differently at different moments.  The
    world also holds what the libraries compute from their own tables: the
    decoders, the rendering of a duration, and the Unicode case folding of
    [strings.EqualFold]. *)

Inductive StatResult : Type :=
| StatDir | StatFile | StatNotExist | StatError (e : error).

Inductive Event : Type :=
| EvRunX (dir : string) (command : string) (args : list string)
| EvStat (path : string)
| EvMkdirAll (path : string)
| EvRemoveAll (path : string)
| EvCreate (path : string)
| EvFprintln (path : string) (line : string)
| EvProcessor (repository : string) (isEmpty : bool) (execDir : string)
| EvNow
| EvRandSequence (n : Z)
| EvLog (record : LogRecord).

Record World : Type := mkWorld {
  onRunX : list Event -> string -> string -> list string -> string * option error;
  onStat : list Event -> string -> StatResult;
  onMkdirAll : list Event -> string -> option error;
  onRemoveAll : list Event -> string -> option error;
  onCreate : list Event -> string -> option error;
  onFprintln : list Event -> string -> string -> option error;
  onProcessor : list Event -> string -> bool -> string -> option error;
  onNow : list Event -> Time;
  onRandSequence : list Event -> Z -> string;
  decodeGHError : string -> option error;
  unmarshalRepository : string -> Repository + error;
  scanRepoPages : string -> list (list Repository) + error;
  durationString : Z -> string;
  equalFoldUnicode : string -> string -> bool;
  reposDir : string
}.

(** A state monad over the history. *)
Definition M (A : Type) : Type := list Event -> A * list Event.

Definition ret {A : Type} (a : A) : M A := fun t => (a, t).

Definition bind {A B : Type} (c : M A) (k : A -> M B) : M B :=
  fun t => let '(a, t') := c t in k a t'.

Declare Scope go_scope.
Delimit Scope go_scope with go.
Notation "x <- c ;; k" := (bind c (fun x => k))
  (at level 61, c at next level, right associativity) : go_scope.
Notation "c ;;; k" := (bind c (fun _ => k))
  (at level 61, right associativity) : go_scope.
Local Open Scope go_scope.

(** [path.Join] of a clean directory and a relative name that needs no
    cleaning. *)
Definition pathJoin (dir name : string) : string := (dir ++ "/" ++ name)%string.

(** The key the caller asks for, if any: the first lines of
    [cloneRepositoryOrGetFromCache]. *)
Definition explicitCacheKey (opts : Options) (repo : Repository) : string :=
  match CloneCacheKey opts with
  | Some key => key repo
  | None => EmptyString
  end.

Definition warnRecord (msg : string) (e : error) : LogRecord :=
  mkLog LevelWarn msg [("error", AttrError e)].

Section Sequential.

Variable w : World.

Definition runX (dir command : string) (args : list string)
  : M (string * option error) :=
  fun t => (onRunX w t dir command args, t ++ [EvRunX dir command args]).
Definition osStat (path : string) : M StatResult :=
  fun t => (onStat w t path, t ++ [EvStat path]).
Definition osMkdirAll (path : string) : M (option error) :=
  fun t => (onMkdirAll w t path, t ++ [EvMkdirAll path]).
Definition osRemoveAll (path : string) : M (option error) :=
  fun t => (onRemoveAll w t path, t ++ [EvRemoveAll path]).
Definition osCreate (path : string) : M (option error) :=
  fun t => (onCreate w t path, t ++ [EvCreate path]).
Definition fprintln (path line : string) : M (option error) :=
  fun t => (onFprintln w t path line, t ++ [EvFprintln path line]).
Definition callProcessor (repository : string) (isEmpty : bool) (execDir : string)
  : M (option error) :=
  fun t => (onProcessor w t repository isEmpty execDir,
            t ++ [EvProcessor repository isEmpty execDir]).
Definition timeNow : M Time := fun t => (onNow w t, t ++ [EvNow]).
Definition randSequence (n : Z) : M string :=
  fun t => (onRandSequence w t n, t ++ [EvRandSequence n]).
Definition logRecord (r : LogRecord) : M unit := fun t => (tt, t ++ [EvLog r]).

(** [fillLines]: the loop over the lines of an opened file. *)
Fixpoint printLines (path : string) (lines : list string) : M (option error) :=
  match lines with
  | [] => ret None
  | l :: rest =>
      err <- fprintln path l ;;
      match err with
      | Some e => ret (Some (ErrWrapf "printing lines to file: %w" [] e))
      | None => printLines path rest
      end
  end.

Definition fillLines (path : string) (lines : list string) : M (option error) :=
  err <- osCreate path ;;
  match err with
  | Some e => ret (Some (ErrWrapf "opening file: %w" [] e))
  | None => printLines path lines
  end.

(** The tail of [cloneRepository], from the default-branch test on. *)
Definition fetchAndCheckout (repo : Repository) (repoDir : string)
  : M (option error) :=
  if GoStrings.isEmpty (DefaultBranchName repo) then ret (Some errNoDefaultBranch)
  else
    r <- runX repoDir "git" ["fetch"; "origin"; DefaultBranchName repo] ;;
    match snd r with
    | Some e => ret (Some (ErrWrapf "fetching HEAD: %w" [] e))
    | None =>
        r <- runX repoDir "git" ["checkout"; DefaultBranchName repo] ;;
        match snd r with
        | Some e => ret (Some (ErrWrapf "checking out HEAD: %w" [] e))
        | None => ret None
        end
    end.

(** The sparse-checkout block of [cloneRepository]. *)
Definition sparseCheckout (repoDir : string) (opts : Options) : M (option error) :=
  match CloningSubset opts with
  | [] => ret None
  | _ :: _ =>
      r <- runX repoDir "git" ["config"; "core.sparseCheckout"; "true"] ;;
      match snd r with
      | Some e => ret (Some (ErrWrapf "setting sparse checkout subset: %w" [] e))
      | None =>
          err <- fillLines (pathJoin repoDir ".git/info/sparse-checkout")
                           (CloningSubset opts) ;;
          match err with
          | Some e => ret (Some (ErrWrapf "setting cloning subset: %w" [] e))
          | None => ret None
          end
      end
  end.

(** The head of [cloneRepository]: [git init], the remote, the sparse
    checkout. *)
Definition cloneSetup (repo : Repository) (repoDir : string) (opts : Options)
  : M (option error) :=
  r <- runX repoDir "git" ["init"] ;;
  match snd r with
  | Some e => ret (Some (ErrWrapf "cloning repository: %w" [] e))
  | None =>
      let repoURL := if UseHTTPS opts then URL repo else SSHURL repo in
      r <- runX repoDir "git" ["remote"; "add"; "origin"; repoURL] ;;
      match snd r with
      | Some e => ret (Some (ErrWrapf "adding origin: %w" [] e))
      | None => sparseCheckout repoDir opts
      end
  end.

Definition cloneRepository (repo : Repository) (repoDir : string) (opts : Options)
  : M (option error) :=
  err <- cloneSetup repo repoDir opts ;;
  match err with
  | Some e => ret (Some e)
  | None => fetchAndCheckout repo repoDir
  end.

(** The branch taken when [os.Stat] says the directory is absent. *)
Definition cloneOnMiss (repo : Repository) (cloneDir : string) (opts : Options)
  : M (option error) :=
  err <- osMkdirAll cloneDir ;;
  match err with
  | Some e => ret (Some (ErrWrapf "creating cloning directory: %w" [] e))
  | None =>
      err <- cloneRepository repo cloneDir opts ;;
      match err with
      | Some e =>
          rErr <- osRemoveAll cloneDir ;;
          match rErr with
          | Some re =>
              logRecord (warnRecord "Failed to remove the clone directory" re) ;;;
              ret (Some e)
          | None => ret (Some e)
          end
      | None => ret None
      end
  end.

(** The private copy handed out when the caller chose the cache key. *)
Definition copyFromCache (cloneDir : string) : M (string + error) :=
  suffix <- randSequence 9 ;;
  let repoDir := (cloneDir ++ "_" ++ suffix)%string in
  r <- runX (reposDir w) "cp" ["-r"; cloneDir; repoDir] ;;
  match snd r with
  | Some e =>
      rErr <- osRemoveAll repoDir ;;
      match rErr with
      | Some re =>
          logRecord (warnRecord "Failed to remove the repo directory" re) ;;;
          ret (inr (ErrWrapf "copying repository %w" [] e))
      | None => ret (inr (ErrWrapf "copying repository %w" [] e))
      end
  | None => ret (inl repoDir)
  end.

Definition cloneRepositoryOrGetFromCache (repo : Repository) (opts : Options)
  : M (string + error) :=
  let explicit := explicitCacheKey opts repo in
  key <- (if GoStrings.isEmpty explicit
          then now <- timeNow ;; ret (formatCacheKey now, true)
          else ret (explicit, false)) ;;
  let '(cacheKey, shouldReturnDirectly) := key in
  let cloneDir :=
    pathJoin (reposDir w) (cloneDirName repo cacheKey (CloningSubset opts)) in
  st <- osStat cloneDir ;;
  prepared <- match st with
              | StatDir => ret None
              | StatFile =>
                  ret (Some (ErrorF "unexpected file in cloning directory: %s"
                                    [cloneDir]))
              | StatNotExist => cloneOnMiss repo cloneDir opts
              | StatError e =>
                  ret (Some (ErrWrapf "checking clone directory: %w" [] e))
              end ;;
  match prepared with
  | Some e => ret (inr e)
  | None =>
      if shouldReturnDirectly then ret (inl cloneDir)
      else copyFromCache cloneDir
  end.

Definition processRepository (repo : Repository) (opts : Options)
  : M (option error) :=
  if Size repo =? 0 then
    logRecord (mkLog LevelDebug "Empty repository" [("repository", AttrString (Name repo))]) ;;;
    err <- callProcessor (Name repo) true EmptyString ;;
    match err with
    | Some e => ret (Some (ErrWrapf "processing empty repository: %w" [] e))
    | None => ret None
    end
  else
    res <- cloneRepositoryOrGetFromCache repo opts ;;
    match res with
    | inr e => ret (Some e)
    | inl repoDir =>
        err <- callProcessor (Name repo) false repoDir ;;
        osRemoveAll repoDir ;;;
        ret err
    end.

(** [github.ErrOrGHAPIErr]. *)
Definition ErrOrGHAPIErr (payload : string) (err : error) : error :=
  if GoStrings.isEmpty payload then err
  else match decodeGHError w payload with
       | Some ghErr => ghErr
       | None => err
       end.

Definition repositoryArgs (repoName : string) : list string :=
  [ "api"; "-H"; "Accept: application/vnd.github+json";
    "-H"; ("X-GitHub-Api-Version: " ++ GithubAPIVersion)%string;
    "-X"; "GET";
    "--jq"; "{full_name,clone_url,ssh_url,default_branch,archived,language,visibility,fork,size,pushed_at}";
    ("/repos/" ++ repoName)%string ].

Definition RunForRepository (repoName : string) (opts : Options)
  : M (option error) :=
  if GoStrings.Count repoName "/"%char >? 1 then
    ret (Some (ErrorF "incorrect repository name %q" [repoName]))
  else
    r <- runX "." "gh" (repositoryArgs repoName) ;;
    match snd r with
    | Some e =>
        ret (Some (ErrWrapf "fetching repository %q: %w" [repoName]
                            (ErrOrGHAPIErr (fst r) e)))
    | None =>
        match unmarshalRepository w (fst r) with
        | inr e => ret (Some (ErrWrapf "unmarshaling repository: %w" [] e))
        | inl repo =>
            err <- processRepository repo opts ;;
            match err with
            | Some e => ret (Some (ErrWrapf "processing %q: %w" [Name repo] e))
            | None => ret None
            end
        end
    end.

End Sequential.

(** ** [RunForOrganization]: from the options to the dispatcher *)

Record Result : Type := mkResult { Found : Z; Inspected : Z; Processed : Z }.

Definition zeroResult : Result := mkResult 0 0 0.

(** The [target] and the pagination flag, or the validation error. *)
Definition listingTarget (orgName : string) (searchOpts : SearchOptions)
  : (list string * string) + error :=
  let target := ("/orgs/" ++ orgName ++ "/repos")%string in
  let perPage := PerPage searchOpts in
  let sized :=
    if (perPage =? 0) || (perPage >? maxPerPage) then
      inl (target ++ "?per_page=" ++ Fmt.decimal defaultPerPage)%string
    else if perPage >? 0 then
      inl (target ++ "?per_page=" ++ Fmt.decimal perPage)%string
    else inr (ErrNew "invalid negative SearchOptions.PerPage") in
  match sized with
  | inr e => inr e
  | inl target =>
      let page := soPage searchOpts in
      if page =? AllPages then inl (["--paginate"], target)
      else if page >? 0 then
        inl ([], (target ++ "&page=" ++ Fmt.decimal page)%string)
      else if negb (page =? 0) then
        inr (ErrNew "invalid negative SearchOptions.Page")
      else inl ([], target)
  end.

Definition organizationArgs (w : World) (searchOpts : SearchOptions) : list string :=
  [ "api"; "-H"; "Accept: application/vnd.github+json";
    "-H"; ("X-GitHub-Api-Version: " ++ GithubAPIVersion)%string;
    "-X"; "GET";
    "--jq"; ". | map({full_name,clone_url,ssh_url,default_branch,archived,language,visibility,fork,size,pushed_at})" ]
  ++ (if Cache searchOpts >? 0
      then ["--cache"; durationString w (Cache searchOpts)] else []).

(** Where the sequential part of [RunForOrganization] ends: with a return,
    or with the call of [runForReposConcurrently]. *)
Inductive Listing : Type :=
| Returned (res : Result) (err : error)
| Dispatch (repoPages : list (list Repository)) (nOfWorkers : Z)
           (filterIn : Repository -> bool).

Definition numberOfWorkers (opts : Options) : Z :=
  if NumberOfWorkers opts >? 0 then NumberOfWorkers opts else defaultNumberOfWorkers.

(** The deferred [os.RemoveAll(reposDir)] is recorded on the early returns;
    after a [Dispatch] it runs once the dispatcher has returned. *)
Definition RunForOrganization (w : World) (orgName : string)
           (searchOpts : SearchOptions) (opts : Options) : M Listing :=
  match listingTarget orgName searchOpts with
  | inr e => osRemoveAll w (reposDir w) ;;; ret (Returned zeroResult e)
  | inl (flags, target) =>
      r <- runX w "." "gh" (organizationArgs w searchOpts ++ flags ++ [target]) ;;
      match snd r with
      | Some e =>
          osRemoveAll w (reposDir w) ;;;
          ret (Returned zeroResult
                 (ErrWrapf "fetching repositories: %w" [] (ErrOrGHAPIErr w (fst r) e)))
      | None =>
          match scanRepoPages w (fst r) with
          | inr e =>
              osRemoveAll w (reposDir w) ;;;
              ret (Returned zeroResult
                     (ErrWrapf "processing repositories pages: %w" [] e))
          | inl repoPages =>
              ret (Dispatch repoPages (numberOfWorkers opts)
                            (MakeFilterIn (equalFoldUnicode w) searchOpts))
          end
      end
  end.

(** ** The dispatcher: [runForReposConcurrently]

    One state per goroutine, the three channels, the context and the
    counters.  A step is one channel operation, one critical section, or one
    call of [processRepository]; a schedule names the goroutine that moves.
    The counters are Go [int]s; they never exceed the number of records held
    in the page slices, so their arithmetic is that of [Z]. *)

(** Where the producer goroutine stands; [rest] are the records of the
    remaining iterations of its two [range] loops. *)
Inductive ProducerState : Type :=
| PIdle                                              (* not started *)
| PLoop (rest : list Repository)                     (* at the head of the loops *)
| PSelect (repo : Repository) (rest : list Repository) (* counted; at its [select] *)
| PSend (repo : Repository) (rest : list Repository) (* [default]: [repoC <- repo] *)
| PCloseDone                                         (* loops over: [close(doneC)] *)
| PCloseRepos (rest : list Repository)               (* deferred [close(repoC)] *)
| PExit (rest : list Repository).                    (* returned *)

(** Where a worker goroutine stands. *)
Inductive WorkerState : Type :=
| WRecv                        (* [for repo := range repoC] *)
| WSelect (repo : Repository)  (* the [select] on [ctx.Done()] *)
| WProcess (repo : Repository) (* inside [processRepository] *)
| WSendErr (e : error)         (* [errC <- fmt.Errorf(...)] *)
| WDone.                       (* returned; [wg.Done()] has run *)

(** Where the calling goroutine stands. *)
Inductive MainState : Type :=
| MSum (rest : list (list Repository))  (* the loop adding page lengths *)
| MSelect                               (* the outer [select] *)
| MErrCloseDone (e : error)             (* [case err]: [close(doneC)] *)
| MErrWait (e : error)                  (* [case err]: [wg.Wait()] *)
| MErrCloseErr (e : error)              (* [case err]: [close(errC)] *)
| MCtxWait                              (* [case ctx.Done]: [wg.Wait()] *)
| MCtxCheckDone                         (* [case ctx.Done]: inner [select] *)
| MCtxCloseDone                         (* its [default]: [close(doneC)] *)
| MCtxCloseErr                          (* [case ctx.Done]: [close(errC)] *)
| MDoneWait                             (* [case doneC]: [wg.Wait()] *)
| MDoneSelect                           (* [case doneC]: inner [select] *)
| MDoneCloseErr (res : Result) (err : option error) (* deferred [close(errC)] *)
| MReturned (res : Result) (err : option error).

Record State : Type := mkState {
  repoC : list Repository;
  repoClosed : bool;
  errC : list error;
  errClosed : bool;
  doneClosed : bool;
  ctxDone : bool;
  mFound : Z;
  mInspected : Z;
  mProcessed : Z;
  producer : ProducerState;
  workers : list WorkerState;
  main : MainState;
  logs : list LogRecord;
  panicked : bool
}.

(** The arguments of [runForReposConcurrently]; [process] is what
    [processRepository] answers for a record. *)
Record Run : Type := mkRun {
  repoPages : list (list Repository);
  nOfWorkers : Z;
  filterIn : Repository -> bool;
  process : Repository -> option error
}.

Inductive Label : Type :=
| LMain
| LMainErr
| LMainCtx
| LMainDone
| LProducer
| LWorker (i : nat)
| LCancel.

Definition initial (run : Run) : State :=
  mkState [] false [] false false false 0 0 0 PIdle [] (MSum (repoPages run)) [] false.

Definition panic (s : State) : State :=
  mkState (repoC s) (repoClosed s) (errC s) (errClosed s) (doneClosed s) (ctxDone s)
          (mFound s) (mInspected s) (mProcessed s) (producer s) (workers s) (main s)
          (logs s) true.

Definition setMain (m : MainState) (s : State) : State :=
  mkState (repoC s) (repoClosed s) (errC s) (errClosed s) (doneClosed s) (ctxDone s)
          (mFound s) (mInspected s) (mProcessed s) (producer s) (workers s) m
          (logs s) (panicked s).

Definition setProducer (p : ProducerState) (s : State) : State :=
  mkState (repoC s) (repoClosed s) (errC s) (errClosed s) (doneClosed s) (ctxDone s)
          (mFound s) (mInspected s) (mProcessed s) p (workers s) (main s)
          (logs s) (panicked s).

Definition setWorkers (ws : list WorkerState) (s : State) : State :=
  mkState (repoC s) (repoClosed s) (errC s) (errClosed s) (doneClosed s) (ctxDone s)
          (mFound s) (mInspected s) (mProcessed s) (producer s) ws (main s)
          (logs s) (panicked s).

Definition setRepoC (q : list Repository) (closed : bool) (s : State) : State :=
  mkState q closed (errC s) (errClosed s) (doneClosed s) (ctxDone s)
          (mFound s) (mInspected s) (mProcessed s) (producer s) (workers s) (main s)
          (logs s) (panicked s).

Definition setErrC (q : list error) (closed : bool) (s : State) : State :=
  mkState (repoC s) (repoClosed s) q closed (doneClosed s) (ctxDone s)
          (mFound s) (mInspected s) (mProcessed s) (producer s) (workers s) (main s)
          (logs s) (panicked s).

Definition closeDone (s : State) : State :=
  mkState (repoC s) (repoClosed s) (errC s) (errClosed s) true (ctxDone s)
          (mFound s) (mInspected s) (mProcessed s) (producer s) (workers s) (main s)
          (logs s) (panicked s).

Definition cancel (s : State) : State :=
  mkState (repoC s) (repoClosed s) (errC s) (errClosed s) (doneClosed s) true
          (mFound s) (mInspected s) (mProcessed s) (producer s) (workers s) (main s)
          (logs s) (panicked s).

Definition setCounters (found inspected processed : Z) (s : State) : State :=
  mkState (repoC s) (repoClosed s) (errC s) (errClosed s) (doneClosed s) (ctxDone s)
          found inspected processed (producer s) (workers s) (main s)
          (logs s) (panicked s).

Definition addLogs (records : list LogRecord) (s : State) : State :=
  mkState (repoC s) (repoClosed s) (errC s) (errClosed s) (doneClosed s) (ctxDone s)
          (mFound s) (mInspected s) (mProcessed s) (producer s) (workers s) (main s)
          (logs s ++ records) (panicked s).

Definition isDone (ws : WorkerState) : bool :=
  match ws with WDone => true | _ => false end.

(** [wg.Wait()] returns once every worker has run its deferred [wg.Done]. *)
Definition waitDone (s : State) : bool := forallb isDone (workers s).

Fixpoint setNth {A : Type} (i : nat) (x : A) (l : list A) : list A :=
  match l, i with
  | [], _ => []
  | _ :: rest, O => x :: rest
  | y :: rest, S j => y :: setNth j x rest
  end.

Definition setWorker (i : nat) (ws : WorkerState) (s : State) : State :=
  setWorkers (setNth i ws (workers s)) s.

Definition hasRoom {A : Type} (q : list A) (capacity : Z) : bool :=
  Z.of_nat (List.length q) <? capacity.

Definition ctxErr : error := ErrCtx "context canceled".

Section Dispatcher.

Variable run : Run.

(** The goroutine started by [go func() { defer close(repoC) ... }()]. *)
Definition stepProducer (s : State) : option State :=
  match producer s with
  | PIdle => None
  | PLoop [] => Some (setProducer PCloseDone s)
  | PLoop (repo :: rest) =>
      if filterIn run repo
      then Some (setProducer (PSelect repo rest)
                   (setCounters (mFound s) (mInspected s + 1) (mProcessed s + 1) s))
      else Some (setProducer (PLoop rest)
                   (setCounters (mFound s) (mInspected s + 1) (mProcessed s) s))
  | PSelect repo rest =>
      if ctxDone s || doneClosed s
      then Some (setProducer (PCloseRepos rest) s)
      else Some (setProducer (PSend repo rest) s)
  | PSend repo rest =>
      if repoClosed s then Some (panic s)
      else if hasRoom (repoC s) (nOfWorkers run)
           then Some (setProducer (PLoop rest)
                        (setRepoC (repoC s ++ [repo]) (repoClosed s) s))
           else None
  | PCloseDone =>
      if doneClosed s then Some (panic s)
      else Some (setProducer (PCloseRepos []) (closeDone s))
  | PCloseRepos rest =>
      if repoClosed s then Some (panic s)
      else Some (setProducer (PExit rest) (setRepoC (repoC s) true s))
  | PExit _ => None
  end.

(** What a worker does with the answer of [processRepository]. *)
Definition afterProcess (repo : Repository) (outcome : option error)
  : WorkerState * list LogRecord :=
  match outcome with
  | None => (WRecv, [])
  | Some err =>
      if isNoDefaultBranch err
      then (WRecv, [mkLog LevelWarn "Repository with no default branch"
                          [("repository", AttrString (Name repo))]])
      else (WSendErr (ErrWrapf "processing %q: %w" [Name repo] err), [])
  end.

(** One of the [nOfWorkers] goroutines ranging over [repoC]. *)
Definition stepWorker (i : nat) (s : State) : option State :=
  match nth_error (workers s) i with
  | None => None
  | Some WRecv =>
      match repoC s with
      | repo :: q => Some (setWorker i (WSelect repo) (setRepoC q (repoClosed s) s))
      | [] => if repoClosed s then Some (setWorker i WDone s) else None
      end
  | Some (WSelect repo) =>
      if ctxDone s then Some (setWorker i WRecv s)
      else Some (setWorker i (WProcess repo) s)
  | Some (WProcess repo) =>
      let '(next, records) := afterProcess repo (process run repo) in
      Some (setWorker i next (addLogs records s))
  | Some (WSendErr e) =>
      if errClosed s then Some (panic s)
      else if hasRoom (errC s) (nOfWorkers run)
           then Some (setWorker i WDone (setErrC (errC s ++ [e]) (errClosed s) s))
           else None
  | Some WDone => None
  end.

Definition currentResult (s : State) : Result :=
  mkResult (mFound s) (mInspected s) (mProcessed s).

(** The calling goroutine outside its outer [select]. *)
Definition stepMain (s : State) : option State :=
  match main s with
  | MSum (page :: rest) =>
      Some (setMain (MSum rest)
              (setCounters (mFound s + Z.of_nat (List.length page))
                           (mInspected s) (mProcessed s) s))
  | MSum [] =>
      Some (setMain MSelect
              (setProducer (PLoop (List.concat (repoPages run)))
                 (setWorkers (repeat WRecv (Z.to_nat (nOfWorkers run))) s)))
  | MSelect => None
  | MErrCloseDone e =>
      if doneClosed s then Some (panic s)
      else Some (setMain (MErrWait e) (closeDone s))
  | MErrWait e => if waitDone s then Some (setMain (MErrCloseErr e) s) else None
  | MErrCloseErr e =>
      if errClosed s then Some (panic s)
      else Some (setMain (MReturned zeroResult (Some e)) (setErrC (errC s) true s))
  | MCtxWait => if waitDone s then Some (setMain MCtxCheckDone s) else None
  | MCtxCheckDone =>
      if doneClosed s then Some (setMain MCtxCloseErr s)
      else Some (setMain MCtxCloseDone s)
  | MCtxCloseDone =>
      if doneClosed s then Some (panic s)
      else Some (setMain MCtxCloseErr (closeDone s))
  | MCtxCloseErr =>
      if errClosed s then Some (panic s)
      else Some (setMain (MReturned zeroResult (Some ctxErr)) (setErrC (errC s) true s))
  | MDoneWait => if waitDone s then Some (setMain MDoneSelect s) else None
  | MDoneSelect =>
      match errC s with
      | e :: q => Some (setMain (MDoneCloseErr zeroResult (Some e))
                          (setErrC q (errClosed s) s))
      | [] => Some (setMain (MDoneCloseErr (currentResult s) None) s)
      end
  | MDoneCloseErr res err =>
      if errClosed s then Some (panic s)
      else Some (setMain (MReturned res err) (setErrC (errC s) true s))
  | MReturned _ _ => None
  end.

(** The three cases of the outer [select]; each needs its channel ready. *)
Definition stepSelect (l : Label) (s : State) : option State :=
  match main s, l with
  | MSelect, LMainErr =>
      match errC s with
      | e :: q => Some (setMain (MErrCloseDone e) (setErrC q (errClosed s) s))
      | [] => None
      end
  | MSelect, LMainCtx => if ctxDone s then Some (setMain MCtxWait s) else None
  | MSelect, LMainDone => if doneClosed s then Some (setMain MDoneWait s) else None
  | _, _ => None
  end.

(** A panic in any goroutine ends the process. *)
Definition step (l : Label) (s : State) : option State :=
  if panicked s then None
  else match l with
       | LMain => stepMain s
       | LMainErr | LMainCtx | LMainDone => stepSelect l s
       | LProducer => stepProducer s
       | LWorker i => stepWorker i s
       | LCancel => Some (cancel s)
       end.

Fixpoint exec (schedule : list Label) (s : State) : option State :=
  match schedule with
  | [] => Some s
  | l :: rest =>
      match step l s with
      | Some s' => exec rest s'
      | None => None
      end
  end.

(** The states the dispatcher can be in. *)
Definition reachable (s : State) : Prop :=
  exists schedule, exec schedule (initial run) = Some s.

End Dispatcher.

(** ** [processRepoPages]: the pages of a listing

    [bufio.Scanner] with [ScanLines] hands out the lines of the payload one
    by one until the payload is exhausted or the scanner fails: [scanned]
    are the lines for which [Scan] answers true, [scanErr] is what [Err()]
    answers once [Scan] has answered false.  [unmarshalPage] is
    [json.Unmarshal] into a [[]Repository].  Leaving the loop by [break]
    happens after a successful [Scan], so [Err()] is nil then. *)
Section RepoPages.

Variable unmarshalPage : string -> list Repository + error.

Fixpoint scanPages (scanned : list string) (scanErr : option error)
         (repoPages : list (list Repository)) : list (list Repository) + error :=
  match scanned with
  | [] =>
      match scanErr with
      | Some e => inr (ErrWrapf "scaning reponse pages: %w" [] e)
      | None => inl repoPages
      end
  | line :: rest =>
      if (String.length line <=? 2)%nat then inl repoPages
      else match unmarshalPage line with
           | inr e => inr (ErrWrapf "unmarshaling repositories: %w" [] e)
           | inl page => scanPages rest scanErr (repoPages ++ [page])
           end
  end.

Definition processRepoPages (scanned : list string) (scanErr : option error)
  : list (list Repository) + error :=
  scanPages scanned scanErr [].

End RepoPages.

(** ** Package exec: the execer's environment and its errors *)

Module Exec.

(** [execer]; the logger, which only decorates, is left out. *)
Record execer : Type := mkExecer { dir : string; env : list string }.

Definition NewExecer (d : string) : execer := mkExecer d [].

(** The loop [for i := range kvLen / 2] of [WithEnv], appending
    [kv[2*i] + "=" + kv[2*i+1]]; [None] stands for the panic of an index out
    of range. *)
Fixpoint appendPairs (kv : list string) (i count : nat) (acc : list string)
  : option (list string) :=
  match count with
  | O => Some acc
  | S count' =>
      match nth_error kv (2 * i), nth_error kv (2 * i + 1) with
      | Some k, Some v => appendPairs kv (S i) count' (acc ++ [(k ++ "=" ++ v)%string])
      | _, _ => None
      end
  end.

Definition WithEnv (e : execer) (kv : list string) : option execer :=
  let kvLen := List.length kv in
  if (kvLen <=? 1)%nat then Some e
  else
    let kv' := if negb (kvLen mod 2 =? 0)%nat then firstn (kvLen - 1) kv else kv in
    match appendPairs kv' 0 (kvLen / 2) (env e) with
    | Some env' => Some (mkExecer (dir e) env')
    | None => None
    end.

(** Errors as [errors.As] sees them: an [execError], an error that wraps
    another one with [%w], or anything else. *)
Inductive err : Type :=
| execError (msg stderr : string) (exitCode : Z)
| wrapped (format : string) (inner : err)
| other (msg : string).

Definition NewExecErr (message stderr : string) (exitCode : Z) : option err :=
  if exitCode =? 0 then None else Some (execError message stderr exitCode).

(** [errors.As(err, &execErr)] down the [Unwrap] chain. *)
Fixpoint stderrOf (e : err) : string * bool :=
  match e with
  | execError _ stderr _ => (stderr, true)
  | wrapped _ inner => stderrOf inner
  | other _ => (EmptyString, false)
  end.

Definition GetStderr (e : option err) : string * bool :=
  match e with
  | Some e => stderrOf e
  | None => (EmptyString, false)
  end.

(** [execute.ExecTask] as [RunWithStdin] fills it; [Stdin] is the reader of
    the caller ([nil] when the command comes from [Run] or [RunX]). *)
Record ExecTask : Type := mkExecTask {
  Command : string; Args : list string; Cwd : string; Env : list string
}.

(** The task [RunWithStdin] builds; [Run] and [RunX] go through it. *)
Definition taskOf (e : execer) (command : string) (args : list string) : ExecTask :=
  mkExecTask command args (dir e) (env e).

(** Where the command of a task runs.  [ExecTask.Execute] hands [Cwd] to
    [exec.Cmd.Dir], and package os/exec starts a command whose [Dir] is the
    empty string in the current directory of the calling process. *)
Definition workingDirectory (processDir : string) (task : ExecTask) : string :=
  if GoStrings.isEmpty (Cwd task) then processDir else Cwd task.

Record Result : Type := mkResult {
  Stdout : string; Stderr : string; ExitCode : Z; Cancelled : bool
}.

Definition cmdString (command : string) (args : list string) : string :=
  GoStrings.Join (command :: args) " ".

(** [RunX], given what [Run] answered. *)
Definition RunX (ran : Result + err) (command : string) (args : list string)
  : string * option err :=
  match ran with
  | inr e => (EmptyString, Some e)
  | inl res =>
      if negb (ExitCode res =? 0)
      then (Stdout res,
            NewExecErr (cmdString command args ++ ": exit code "
                        ++ Fmt.decimal (ExitCode res))%string
                       (Stderr res) (ExitCode res))
      else (Stdout res, None)
  end.

(** [github.wrapErrIfNotNil] with a format that holds one [%w], as at all
    its call sites. *)
Definition wrapErrIfNotNil (message : string) (e : option err) : option err :=
  match e with
  | None => None
  | Some e => Some (wrapped message e)
  end.

End Exec.

(** ** main.go: the report of a run *)

(** The two lines printed after [RunForOrganization] has returned no error. *)
Definition cliReport (res : Result) : list string :=
  [ ("Processed " ++ Fmt.decimal (Processed res) ++ " repositories")%string;
    ("Filtered " ++ Fmt.decimal (Inspected res) ++ " repositories")%string ].

(** * Vocabulary of the properties *)

(** [searchOpts] with another [PerPage]. *)
Definition withPerPage (n : Z) (so : SearchOptions) : SearchOptions :=
  mkSearchOptions (Languages so) (soArchiveCondition so) (soVisibility so)
                  (soSource so) n (soPage so) (soSizeCondition so) (FilterIn so)
                  (Cache so).

(** ** The clone cache *)

(** The fields of a clock reading that reach the synthesized cache key. *)
Definition sameDayClock (t1 t2 : Time) : Prop :=
  tDay t1 = tDay t2 /\ tHour t1 = tHour t2 /\ tMinute t1 = tMinute t2 /\
  tSecond t1 = tSecond t2 /\ tNano t1 = tNano t2.

(** The directory of an acquisition that has to synthesize its key. *)
Definition synthesizedCloneDir (w : World) (repo : Repository) (opts : Options)
           (now : Time) : string :=
  pathJoin (reposDir w) (cloneDirName repo (formatCacheKey now) (CloningSubset opts)).

(** ** Histories and workers *)

(** A computation only ever adds to the history. *)
Definition grows {A : Type} (c : M A) : Prop :=
  forall t, exists d, snd (c t) = t ++ d.

(** The record a worker logs when it skips a repository. *)
Definition noDefaultBranchWarning (repo : Repository) : LogRecord :=
  mkLog LevelWarn "Repository with no default branch"
        [("repository", AttrString (Name repo))].

(** The error a worker forwards on [errC]. *)
Definition processingError (repo : Repository) (e : error) : error :=
  ErrWrapf "processing %q: %w" [Name repo] e.

(** ** The counters of the dispatcher *)

Definition pagesLength (pages : list (list Repository)) : Z :=
  Z.of_nat (List.length (List.concat pages)).

Definition ordered (res : Result) : Prop :=
  0 <= Processed res /\ Processed res <= Inspected res /\ Inspected res <= Found res.

(** The records the producer has not looked at yet. *)
Definition unexamined (p : ProducerState) : option (list Repository) :=
  match p with
  | PIdle => None
  | PLoop rest | PSelect _ rest | PSend _ rest | PCloseRepos rest | PExit rest =>
      Some rest
  | PCloseDone => Some []
  end.

(** [Inspected] counts the records examined so far, [Processed] those of
    them that passed the filter. *)
Definition counted (run : Run) (s : State) : Prop :=
  exists examined rest,
    unexamined (producer s) = Some rest /\
    List.concat (repoPages run) = examined ++ rest /\
    mInspected s = Z.of_nat (List.length examined) /\
    mProcessed s = Z.of_nat (List.length (filter (filterIn run) examined)).

(** While the caller sums the page lengths nothing is examined; afterwards
    [Found] is the number of all records and the other two are [counted]. *)
Definition countersInv (run : Run) (s : State) : Prop :=
  match main s with
  | MSum rest =>
      0 <= mFound s /\
      mFound s + pagesLength rest = pagesLength (repoPages run) /\
      mInspected s = 0 /\ mProcessed s = 0 /\ producer s = PIdle
  | _ => mFound s = pagesLength (repoPages run) /\ counted run s
  end /\
  match main s with
  | MDoneCloseErr res _ | MReturned res _ => ordered res
  | _ => True
  end.

(** The counts of a run that examined every record. *)
Definition finalResult (run : Run) : Result :=
  mkResult (pagesLength (repoPages run)) (pagesLength (repoPages run))
           (Z.of_nat (List.length (filter (filterIn run) (List.concat (repoPages run))))).

(** The caller has closed [doneC] itself and is on its way out with an error. *)
Definition callerClosedDone (m : MainState) : Prop :=
  match m with
  | MErrWait _ | MErrCloseErr _ | MCtxCloseErr | MReturned _ (Some _) => True
  | _ => False
  end.

(** [doneC] is closed by the producer only after its last record, and the
    caller reads the counters only then. *)
Definition completionInv (run : Run) (s : State) : Prop :=
  (doneClosed s = true ->
   unexamined (producer s) = Some [] \/ callerClosedDone (main s)) /\
  match main s with
  | MDoneWait | MDoneSelect => unexamined (producer s) = Some []
  | MDoneCloseErr res None | MReturned res None => res = finalResult run
  | _ => True
  end.

(** ** Errors in the dispatcher *)

(** An error never travels with counts. *)
Definition errorVoidsResult (s : State) : Prop :=
  match main s with
  | MDoneCloseErr res (Some _) | MReturned res (Some _) => res = zeroResult
  | _ => True
  end.

(** An error a worker forwards: some record whose processing failed with
    something other than the missing default branch, wrapped with its name. *)
Definition forwarded (run : Run) (x : error) : Prop :=
  exists repo e,
    process run repo = Some e /\ isNoDefaultBranch e = false /\
    x = processingError repo e.

Definition workerForwards (run : Run) (ws : WorkerState) : Prop :=
  match ws with
  | WSendErr x => forwarded run x
  | _ => True
  end.

(** Every error in flight was forwarded by a worker; the caller returns such
    an error or the context's. *)
Definition errorsInv (run : Run) (s : State) : Prop :=
  Forall (forwarded run) (errC s) /\
  Forall (workerForwards run) (workers s) /\
  match main s with
  | MErrCloseDone x | MErrWait x | MErrCloseErr x => forwarded run x
  | MDoneCloseErr _ (Some x) | MReturned _ (Some x) => forwarded run x \/ x = ctxErr
  | _ => True
  end.

Definition isSendErr (ws : WorkerState) : bool :=
  match ws with WSendErr _ => true | _ => false end.

(** A worker holds an error it has not sent yet, or [errC] holds one. *)
Definition failurePending (s : State) : Prop :=
  existsb isSendErr (workers s) = true \/ errC s <> [].

(** The caller is on a path that ends in a non-nil error. *)
Definition errorBound (m : MainState) : Prop :=
  match m with
  | MErrCloseDone _ | MErrWait _ | MErrCloseErr _
  | MCtxWait | MCtxCheckDone | MCtxCloseDone | MCtxCloseErr
  | MDoneCloseErr _ (Some _) | MReturned _ (Some _) => True
  | _ => False
  end.

(** A failure, once it exists, stays visible until the caller picks it up. *)
Definition failureInv (s : State) : Prop :=
  errorBound (main s) \/
  (failurePending s /\ (main s = MSelect \/ main s = MDoneWait)) \/
  (errC s <> [] /\ main s = MDoneSelect).

(** No worker exists before the goroutines start, and all have returned
    once the caller is past its [wg.Wait()] on the clean path. *)
Definition waitedInv (s : State) : Prop :=
  match main s with
  | MSum _ => workers s = []
  | MDoneSelect | MDoneCloseErr _ None | MReturned _ None => waitDone s = true
  | _ => True
  end.

(** ** Channels, workers and the context *)

(** The caller is past one of its [wg.Wait()] calls. *)
Definition pastWait (m : MainState) : Prop :=
  match m with
  | MErrCloseErr _ | MCtxCheckDone | MCtxCloseDone | MCtxCloseErr
  | MDoneSelect | MDoneCloseErr _ _ | MReturned _ _ => True
  | _ => False
  end.

(** The three places where [doneC] is closed. *)
Definition closingDone (s : State) : Prop :=
  producer s = PCloseDone \/ (exists e, main s = MErrCloseDone e) \/
  main s = MCtxCloseDone.

(** [repoC] is closed by the producer as it returns, [errC] by the caller as
    it returns, after every worker has; a panic comes from closing [doneC]. *)
Definition channelsInv (s : State) : Prop :=
  (repoClosed s = true -> exists rest, producer s = PExit rest) /\
  (errClosed s = true -> exists res err, main s = MReturned res err) /\
  (pastWait (main s) -> waitDone s = true) /\
  (panicked s = true -> doneClosed s = true /\ closingDone s) /\
  match main s with
  | MSum _ => repoClosed s = false /\ producer s = PIdle
  | _ => True
  end.

Fixpoint notDone (ws : list WorkerState) : nat :=
  match ws with
  | [] => 0
  | w :: rest => (if isDone w then 0 else 1) + notDone rest
  end.

(** Each worker sends at most one error, so [errC] has room for all. *)
Definition capacityInv (run : Run) (s : State) : Prop :=
  (List.length (errC s) + notDone (workers s) <= List.length (workers s))%nat /\
  match main s with
  | MSum _ => workers s = []
  | _ => List.length (workers s) = Z.to_nat (nOfWorkers run)
  end.

(** A record of the pages that the filter accepts. *)
Definition accepted (run : Run) (repo : Repository) : Prop :=
  In repo (List.concat (repoPages run)) /\ filterIn run repo = true.

Definition workerHoldsAccepted (run : Run) (ws : WorkerState) : Prop :=
  match ws with
  | WSelect repo | WProcess repo => accepted run repo
  | _ => True
  end.

Definition producerHoldsAccepted (run : Run) (p : ProducerState) : Prop :=
  match p with
  | PSelect repo _ | PSend repo _ => accepted run repo
  | _ => True
  end.

(** What the producer has still to examine is a tail of the pages. *)
Definition tailOfPages (run : Run) (p : ProducerState) : Prop :=
  match unexamined p with
  | Some rest => exists pre, List.concat (repoPages run) = pre ++ rest
  | None => True
  end.

(** Only accepted records travel from the producer to the workers. *)
Definition acceptedInv (run : Run) (s : State) : Prop :=
  Forall (accepted run) (repoC s) /\
  Forall (workerHoldsAccepted run) (workers s) /\
  producerHoldsAccepted run (producer s) /\
  tailOfPages run (producer s).

(** After the cancellation at [s0], whoever processes a record was
    processing it already. *)
Definition noNewProcessing (s0 s : State) : Prop :=
  ctxDone s = true /\
  forall i repo,
    nth_error (workers s) i = Some (WProcess repo) ->
    nth_error (workers s0) i = Some (WProcess repo).

(** ** What a call adds to the history *)

(** Every event a computation adds to the history satisfies [P]. *)
Definition adds {A : Type} (P : Event -> Prop) (c : M A) : Prop :=
  forall t, exists d, snd (c t) = t ++ d /\ Forall P d.

Definition notProcessor (e : Event) : Prop :=
  match e with
  | EvProcessor _ _ _ => False
  | _ => True
  end.

Definition isLog (e : Event) : Prop :=
  match e with
  | EvLog _ => True
  | _ => False
  end.



(** The commands and file operations of a clone that succeeds. *)
Definition cloneEvents (repo : Repository) (repoDir : string) (opts : Options)
  : list Event :=
  [ EvRunX repoDir "git" ["init"];
    EvRunX repoDir "git"
           ["remote"; "add"; "origin"; if UseHTTPS opts then URL repo else SSHURL repo] ]
  ++ match CloningSubset opts with
     | [] => []
     | _ :: _ =>
         EvRunX repoDir "git" ["config"; "core.sparseCheckout"; "true"]
         :: EvCreate (pathJoin repoDir ".git/info/sparse-checkout")
         :: map (EvFprintln (pathJoin repoDir ".git/info/sparse-checkout"))
                (CloningSubset opts)
     end
  ++ [ EvRunX repoDir "git" ["fetch"; "origin"; DefaultBranchName repo];
       EvRunX repoDir "git" ["checkout"; DefaultBranchName repo] ].

(** ** The acquisition of a clone *)

(** The cache key [cloneRepositoryOrGetFromCache] settles on at history
    [t]: the caller's when there is one, else the time of day. *)
Definition cacheKeyAt (w : World) (repo : Repository) (opts : Options)
           (t : list Event) : string :=
  if GoStrings.isEmpty (explicitCacheKey opts repo)
  then formatCacheKey (onNow w t)
  else explicitCacheKey opts repo.

(** The directory [os.Stat] is asked about. *)
Definition cloneDirAt (w : World) (repo : Repository) (opts : Options)
           (t : list Event) : string :=
  pathJoin (reposDir w) (cloneDirName repo (cacheKeyAt w repo opts t) (CloningSubset opts)).

(** The history at that question: the clock has been read when the caller
    named no key. *)
Definition historyAtStat (repo : Repository) (opts : Options) (t : list Event)
  : list Event :=
  if GoStrings.isEmpty (explicitCacheKey opts repo) then t ++ [EvNow] else t.

(** The history when [cloneRepository] starts in a directory that was
    missing and has been created. *)
Definition historyAtClone (w : World) (repo : Repository) (opts : Options)
           (t : list Event) : list Event :=
  historyAtStat repo opts t
  ++ [EvStat (cloneDirAt w repo opts t); EvMkdirAll (cloneDirAt w repo opts t)].

(** What follows an [os.RemoveAll] whose failure is only logged. *)
Definition removalWarning (msg : string) (answer : option error) : list Event :=
  match answer with
  | Some re => [EvLog (warnRecord msg re)]
  | None => []
  end.


(** The handle [e] targets a root that does not exist: whatever command is
    run through it by a process that stands in [processDir], the file
    system has nothing at the command's working directory. *)
Definition targetsMissingRoot (w : World) (t : list Event) (processDir : string)
           (e : Exec.execer) : Prop :=
  forall (command : string) (args : list string),
    onStat w t (Exec.workingDirectory processDir (Exec.taskOf e command args))
    = StatNotExist.

(** ** Directory names *)

Definition isHexDigit (c : ascii) : bool :=
  existsb (Ascii.eqb c) (list_ascii_of_string "0123456789abcdef").

(** ** The listing request *)

(** The page size the listing asks for. *)
Definition effectivePerPage (so : SearchOptions) : Z :=
  if (PerPage so =? 0) || (PerPage so >? maxPerPage) then defaultPerPage
  else PerPage so.

Definition sizedTarget (orgName : string) (so : SearchOptions) : string :=
  ("/orgs/" ++ orgName ++ "/repos?per_page=" ++ Fmt.decimal (effectivePerPage so))%string.

(** [searchOpts] with another [Page]. *)
Definition withPage (p : Page) (so : SearchOptions) : SearchOptions :=
  mkSearchOptions (Languages so) (soArchiveCondition so) (soVisibility so)
                  (soSource so) (PerPage so) p (soSizeCondition so) (FilterIn so)
                  (Cache so).

(** The pagination flag of a valid [Page]. *)
Definition pageFlags (so : SearchOptions) : list string :=
  if soPage so =? AllPages then ["--paginate"] else [].

(** The target of a valid request: the page is named when it is positive. *)
Definition pagedTarget (orgName : string) (so : SearchOptions) : string :=
  if soPage so >? 0
  then (sizedTarget orgName so ++ "&page=" ++ Fmt.decimal (soPage so))%string
  else sizedTarget orgName so.

(** What the sequential part of [RunForOrganization] leaves to be recorded
    after the listing command: the deferred removal on a return, nothing yet
    when the dispatcher is started. *)
Definition afterListing (w : World) (l : Listing) : list Event :=
  match l with
  | Returned _ _ => [EvRemoveAll (reposDir w)]
  | Dispatch _ _ _ => []
  end.

(** ** Progress of the dispatcher *)

(** The producer is on its way out: at the deferred [close(repoC)] or past it. *)
Definition leaving (p : ProducerState) : Prop :=
  match p with
  | PCloseRepos _ | PExit _ => True
  | _ => False
  end.

(** The producer leaves only once [doneC] is closed or the context done,
    and closes [repoC] as it does; while the caller waits in its [select]
    with [repoC] open, every worker that has returned has left an error in
    [errC]. *)
Definition progressInv (s : State) : Prop :=
  (forall rest, producer s = PExit rest -> repoClosed s = true) /\
  (leaving (producer s) -> ctxDone s = true \/ doneClosed s = true) /\
  match main s with
  | MSum _ => errC s = [] /\ workers s = []
  | MSelect =>
      producer s <> PIdle /\
      (repoClosed s = false ->
       List.length (workers s) = (notDone (workers s) + List.length (errC s))%nat)
  | _ => producer s <> PIdle
  end.

(** ** Termination of the dispatcher *)

(** How many steps each goroutine can still take. *)
Definition mainRank (run : Run) (m : MainState) : nat :=
  match m with
  | MSum rest => 6 + List.length rest + Z.to_nat (nOfWorkers run)
  | MSelect => 5
  | MCtxWait => 4
  | MErrCloseDone _ | MCtxCheckDone | MDoneWait => 3
  | MErrWait _ | MCtxCloseDone | MDoneSelect => 2
  | MErrCloseErr _ | MCtxCloseErr | MDoneCloseErr _ _ => 1
  | MReturned _ _ => 0
  end.

(** Each record the producer still holds costs it three steps and, once
    sent, three steps of a worker. *)
Definition producerRank (run : Run) (p : ProducerState) : nat :=
  match p with
  | PIdle => 6 * List.length (List.concat (repoPages run)) + 3
  | PLoop rest => 6 * List.length rest + 3
  | PSend _ rest => 6 * List.length rest + 7
  | PSelect _ rest => 6 * List.length rest + 8
  | PCloseDone => 2
  | PCloseRepos _ => 1
  | PExit _ => 0
  end.

Definition workerRank (ws : WorkerState) : nat :=
  match ws with
  | WSelect _ => 3
  | WProcess _ => 2
  | WRecv | WSendErr _ => 1
  | WDone => 0
  end.

Fixpoint workersRank (ws : list WorkerState) : nat :=
  match ws with
  | [] => 0
  | w :: rest => workerRank w + workersRank rest
  end.

Definition stepsLeft (run : Run) (s : State) : nat :=
  if panicked s then 0
  else 1 + mainRank run (main s) + producerRank run (producer s)
       + 3 * List.length (repoC s) + workersRank (workers s).

(** The steps of a schedule that are taken by a goroutine, not by whoever
    cancels the context. *)
Fixpoint moves (schedule : list Label) : nat :=
  match schedule with
  | [] => 0
  | LCancel :: rest => moves rest
  | _ :: rest => S (moves rest)
  end.

(** ** The environment of an execer *)

(** Keys and values taken two by two; a last key without value is dropped. *)
Fixpoint pairUp (kv : list string) : list string :=
  match kv with
  | k :: v :: rest => (k ++ "=" ++ v)%string :: pairUp rest
  | _ => []
  end.

(** ** The command line, end to end *)

(** The run of the dispatcher that the command line starts. *)
Definition cliRun (fold : string -> string -> bool) (f : LoggingFilter)
           (perPage p : Z) (pages : list (list Repository)) (n : Z)
           (processor : Repository -> option error) : Run :=
  mkRun pages n (MakeFilterIn fold (cliSearchOptions f perPage p)) processor.

(** What the search-filter expression selects: the default filter when it
    is empty, else the records on which its program evaluates to [true]. *)
Definition selects (cel : Compiler) (cond : string) (r : Repository) : bool :=
  if GoStrings.isEmpty cond then defaultSearchFilterIn r
  else match cel cond with
       | inl prg =>
           match prg (repoMap r) with
           | inl (VBool b) => b
           | _ => false
           end
       | inr _ => false
       end.


(** ** Which records get processed *)

Definition heldByWorker (ws : WorkerState) : list Repository :=
  match ws with
  | WSelect repo | WProcess repo => [repo]
  | _ => []
  end.

Definition heldByProducer (p : ProducerState) : list Repository :=
  match p with
  | PSelect repo _ | PSend repo _ => [repo]
  | _ => []
  end.

(** The records the producer has not examined. *)
Definition remaining (run : Run) (p : ProducerState) : list Repository :=
  match p with
  | PIdle => List.concat (repoPages run)
  | PLoop rest | PSelect _ rest | PSend _ rest | PCloseRepos rest | PExit rest => rest
  | PCloseDone => []
  end.

(** The accepted records that are not processed yet: with a worker, in
    [repoC], with the producer, or not examined so far. *)
Definition pending (run : Run) (s : State) : list Repository :=
  flat_map heldByWorker (workers s) ++ repoC s ++ heldByProducer (producer s)
  ++ filter (filterIn run) (remaining run (producer s)).

(** The record on which a step completes a call of [processRepository]. *)
Definition processedAt (l : Label) (s : State) : list Repository :=
  match l with
  | LWorker i =>
      match nth_error (workers s) i with
      | Some (WProcess repo) => [repo]
      | _ => []
      end
  | _ => []
  end.

(** The record a step gives up: a worker that sees the context done, or the
    producer that sees the context done or [doneC] closed. *)
Definition lostAt (l : Label) (s : State) : list Repository :=
  match l with
  | LWorker i =>
      match nth_error (workers s) i with
      | Some (WSelect repo) => if ctxDone s then [repo] else []
      | _ => []
      end
  | LProducer =>
      match producer s with
      | PSelect repo _ => if ctxDone s || doneClosed s then [repo] else []
      | _ => []
      end
  | _ => []
  end.

(** The records processed, and those given up, along a schedule. *)
Fixpoint processedBy (run : Run) (schedule : list Label) (s : State)
  : list Repository :=
  match schedule with
  | [] => []
  | l :: rest =>
      match step run l s with
      | Some s' => processedAt l s ++ processedBy run rest s'
      | None => []
      end
  end.

Fixpoint lostBy (run : Run) (schedule : list Label) (s : State) : list Repository :=
  match schedule with
  | [] => []
  | l :: rest =>
      match step run l s with
      | Some s' => lostAt l s ++ lostBy run rest s'
      | None => []
      end
  end.

(** The producer is past its [close(doneC)]. *)
Definition finished (p : ProducerState) : Prop :=
  p = PCloseRepos [] \/ p = PExit [].

(** On the way to a return without error. *)
Definition cleanPath (m : MainState) : Prop :=
  match m with
  | MDoneWait | MDoneSelect | MDoneCloseErr _ None | MReturned _ None => True
  | _ => False
  end.

(** [doneC] is closed by the producer at the end of its loops, unless the
    caller closed it on an error; [repoC] never holds more records than
    there are workers; and once the caller has found [errC] empty after its
    wait, [repoC] is empty. *)
Definition servedInv (run : Run) (s : State) : Prop :=
  (doneClosed s = true -> finished (producer s) \/ callerClosedDone (main s)) /\
  (cleanPath (main s) -> doneClosed s = true) /\
  (List.length (repoC s) <= Z.to_nat (nOfWorkers run))%nat /\
  match main s with
  | MSelect | MDoneWait | MDoneSelect =>
      List.length (workers s) = (notDone (workers s) + List.length (errC s))%nat \/
      (repoClosed s = true /\ repoC s = [])
  | MDoneCloseErr _ None | MReturned _ None => repoC s = []
  | _ => True
  end.

(** The invariants of the dispatcher taken together. *)
Definition dispatcherInv (run : Run) (s : State) : Prop :=
  channelsInv s /\ capacityInv run s /\ progressInv s /\ servedInv run s.

(** The warnings that processing [repos] in this order leaves in the log. *)
Definition warningsFor (run : Run) (repos : list Repository) : list LogRecord :=
  flat_map (fun repo =>
              match process run repo with
              | Some e => if isNoDefaultBranch e then [noDefaultBranchWarning repo] else []
              | None => []
              end) repos.

(** The accepted records that are on their way: with a worker, in [repoC],
    or with the producer. *)
Definition inFlight (s : State) : list Repository :=
  flat_map heldByWorker (workers s) ++ repoC s ++ heldByProducer (producer s).

(** The strings [strings.EqualFold] settles on its ASCII path. *)
Fixpoint allASCII (s : string) : bool :=
  match s with
  | EmptyString => true
  | String a rest => GoStrings.isASCII a && allASCII rest
  end.

(** A string with its letters A to Z lowered. *)
Fixpoint lowerASCII (s : string) : string :=
  match s with
  | EmptyString => EmptyString
  | String a rest => String (GoStrings.lowerAscii a) (lowerASCII rest)
  end.

(** * Sample data *)

Definition epoch : Time := mkTime 1970 1 1 0 0 0 0.

Definition sampleRepo (name branch : string) (archived fork : bool) (size : Z)
  : Repository :=
  mkRepository name ("https://github.com/" ++ name ++ ".git")
               ("git@github.com:" ++ name ++ ".git") branch archived "Go" "public"
               fork size epoch.

Definition negativeRepo : Repository := sampleRepo "octo/neg" "main" false false (-1).

Definition archivedRepo : Repository := sampleRepo "octo/old" "main" true false 7.

Definition emptyRepo : Repository := sampleRepo "octo/empty" "main" false false 0.

Definition goodRepo : Repository := sampleRepo "octo/good" "main" false false 42.

Definition branchlessRepo : Repository :=
  sampleRepo "octo/branchless" EmptyString false false 5.

Definition badRepo : Repository := sampleRepo "octo/bad" "main" false false 9.

Definition repoNamed (name : string) : Repository := sampleRepo name "main" false false 1.

Definition plainOptions : Options := mkOptions false None [] 0.

(** A compiler that rejects every expression. *)
Definition rejectAll : Compiler := fun _ => inr (ErrForeign "rejected").

(** The program of an expression such as [1 + 1]: an integer, never a bool. *)
Definition intProgram : Program := fun _ => inl (VInt 2).

Definition noon : Time := mkTime 2024 1 15 12 0 0 500000000.

(** A world where every command and file operation succeeds, nothing is
    cached yet and the Processor is content. *)
Definition calmWorld : World :=
  mkWorld (fun _ _ _ _ => (EmptyString, None))
          (fun _ _ => StatNotExist)
          (fun _ _ => None) (fun _ _ => None) (fun _ _ => None) (fun _ _ _ => None)
          (fun _ _ _ _ => None)
          (fun _ => noon)
          (fun _ _ => "abcdefghi")
          (fun _ => None)
          (fun _ => inl goodRepo)
          (fun _ => inl [[goodRepo]])
          (fun _ => "1h0m0s")
          String.eqb
          "/tmp/gh-iterator".

(** A world with another clock, Processor or command runner. *)
Definition withClock (clock : list Event -> Time) (w : World) : World :=
  mkWorld (onRunX w) (onStat w) (onMkdirAll w) (onRemoveAll w) (onCreate w)
          (onFprintln w) (onProcessor w) clock (onRandSequence w) (decodeGHError w)
          (unmarshalRepository w) (scanRepoPages w) (durationString w)
          (equalFoldUnicode w) (reposDir w).

Definition withProcessor
           (processor : list Event -> string -> bool -> string -> option error)
           (w : World) : World :=
  mkWorld (onRunX w) (onStat w) (onMkdirAll w) (onRemoveAll w) (onCreate w)
          (onFprintln w) processor (onNow w) (onRandSequence w) (decodeGHError w)
          (unmarshalRepository w) (scanRepoPages w) (durationString w)
          (equalFoldUnicode w) (reposDir w).

Definition withRunX
           (run : list Event -> string -> string -> list string -> string * option error)
           (w : World) : World :=
  mkWorld run (onStat w) (onMkdirAll w) (onRemoveAll w) (onCreate w)
          (onFprintln w) (onProcessor w) (onNow w) (onRandSequence w) (decodeGHError w)
          (unmarshalRepository w) (scanRepoPages w) (durationString w)
          (equalFoldUnicode w) (reposDir w).

(** A clock that shows the fifteenth at noon, in January when first read
    and in February ever after. *)
Definition monthlyWorld : World :=
  withClock (fun t => match t with
                      | [] => mkTime 2024 1 15 12 0 0 500000000
                      | _ :: _ => mkTime 2024 2 15 12 0 0 500000000
                      end)
            calmWorld.

(** A clock whose seconds advance with every recorded event. *)
Definition tickingWorld : World :=
  withClock (fun t => mkTime 2024 1 15 12 0 (Z.of_nat (List.length t) mod 60) 0)
            calmWorld.

(** A world whose Processor fails on one repository. *)
Definition failingWorld : World :=
  withProcessor (fun _ name _ _ => if String.eqb name "octo/bad"
                                   then Some (ErrForeign "processor failed")
                                   else None)
                calmWorld.

(** A world where [git init] fails. *)
Definition brokenGitWorld : World :=
  withRunX (fun _ _ command args =>
              match args with
              | ["init"] => (EmptyString, Some (ErrForeign "git init: exit code 128"))
              | _ => (EmptyString, None)
              end)
           calmWorld.

(** The filter the command line compiles when no expression is given. *)
Definition defaultChain : Repository -> bool :=
  MakeFilterIn String.eqb
               (cliSearchOptions (fun r => (defaultSearchFilterIn r, [])) 100 (-1)).

(** Two workers, one page of five repositories that all pass the default
    filter; processing the first one fails. *)
Definition failingRun : Run :=
  mkRun [[badRepo; repoNamed "octo/r2"; repoNamed "octo/r3"; repoNamed "octo/r4";
          repoNamed "octo/r5"]]
        2 defaultChain
        (fun r => fst (processRepository failingWorld r plainOptions [])).

(** The producer is held up sending the fifth record while the first worker
    fails; the caller closes [doneC]; the second worker then frees a slot and
    the producer, past its last send, closes [doneC] again. *)
Definition failingSchedule : list Label :=
  [LMain; LMain]
  ++ [LProducer; LProducer; LProducer] ++ [LWorker 0; LWorker 0]
  ++ [LProducer; LProducer; LProducer] ++ [LWorker 1; LWorker 1]
  ++ [LProducer; LProducer; LProducer] ++ [LProducer; LProducer; LProducer]
  ++ [LProducer; LProducer]
  ++ [LWorker 0; LWorker 0] ++ [LMainErr; LMain]
  ++ [LWorker 1; LWorker 1]
  ++ [LProducer; LProducer; LProducer].

(** The scenario of the specification: pages of 2, 1 and 3 records, two of
    them archived, processed by two workers. *)
Definition scenarioRun : Run :=
  mkRun [[archivedRepo; repoNamed "octo/a"]; [repoNamed "octo/b"];
         [sampleRepo "octo/old2" "main" true false 3; repoNamed "octo/c";
          repoNamed "octo/d"]]
        2 defaultChain
        (fun r => fst (processRepository calmWorld r plainOptions [])).

Definition passes : list Label :=
  [LProducer; LProducer; LProducer; LWorker 0; LWorker 0; LWorker 0].

Definition scenarioSchedule : list Label :=
  [LMain; LMain; LMain; LMain]
  ++ [LProducer] ++ passes ++ passes ++ [LProducer] ++ passes ++ passes
  ++ [LProducer; LProducer; LProducer] ++ [LWorker 0; LWorker 1]
  ++ [LMainDone; LMain; LMain; LMain].

(** One page: a repository without default branch, then a good one. *)
Definition branchlessRun : Run :=
  mkRun [[branchlessRepo; goodRepo]] 1 defaultChain
        (fun r => fst (processRepository calmWorld r plainOptions [])).

Definition branchlessSchedule : list Label :=
  [LMain; LMain] ++ passes ++ passes
  ++ [LProducer; LProducer; LProducer] ++ [LWorker 0]
  ++ [LMainDone; LMain; LMain; LMain].


(** The first worker has failed on the first record of [failingRun] and
    stands at its send on [errC]. *)
Definition failureSchedule : list Label :=
  [LMain; LMain; LProducer; LProducer; LProducer; LWorker 0; LWorker 0; LWorker 0].

(** The error is sent and received; the caller closes [doneC]; the producer
    sees it closed and leaves; the second worker finds [repoC] closed; the
    caller returns. *)
Definition failureTail : list Label :=
  [LWorker 0; LMainErr; LMain; LProducer; LProducer; LProducer; LWorker 1;
   LMain; LMain].

Definition badRepoError : error :=
  ErrWrapf "processing %q: %w" ["octo/bad"] (ErrForeign "processor failed").

(** [failingSchedule] up to the producer's [close(doneC)]. *)
Definition beforeDoubleClose : list Label := removelast failingSchedule.

(** The scenario, cancelled while the first worker processes [octo/a]. *)
Definition cancelledSchedule : list Label :=
  [LMain; LMain; LMain; LMain; LProducer; LProducer; LProducer; LProducer;
   LWorker 0; LWorker 0; LCancel].

Definition cancelledState : State :=
  match exec scenarioRun cancelledSchedule (initial scenarioRun) with
  | Some s => s
  | None => initial scenarioRun
  end.

(** The producer examines [octo/b] and leaves at its [select]. *)
Definition afterCancel : list Label := [LProducer; LProducer; LProducer; LWorker 1].

(** A sparse clone over HTTPS. *)
Definition sparseOptions : Options := mkOptions true None ["docs"; "src/*.go"] 0.



(** The calm world, started in a home directory that exists. *)
Definition homeWorld : World :=
  mkWorld (onRunX calmWorld)
          (fun _ path => if String.eqb path "/home/octo" then StatDir else StatNotExist)
          (onMkdirAll calmWorld)
          (onRemoveAll calmWorld) (onCreate calmWorld) (onFprintln calmWorld)
          (onProcessor calmWorld) (onNow calmWorld) (onRandSequence calmWorld)
          (decodeGHError calmWorld) (unmarshalRepository calmWorld)
          (scanRepoPages calmWorld) (durationString calmWorld)
          (equalFoldUnicode calmWorld) (reposDir calmWorld).



(** A decoder that knows one page and refuses everything else. *)
Definition onePageDecoder (line : string) : list Repository + error :=
  if String.eqb line "[{octo/good}]" then inl [goodRepo]
  else inr (ErrForeign "invalid character").

(** * Properties *)

(** ** Strings *)

Lemma append_inv_head (a x y : string) :
  (a ++ x)%string = (a ++ y)%string -> x = y.
Proof.
  induction a as [|c a IH]; simpl; intros H.
  - exact H.
  - injection H as H. auto.
Qed.

Lemma append_assoc (a b c : string) :
  ((a ++ b) ++ c)%string = (a ++ (b ++ c))%string.
Proof.
  induction a as [|x a IH]; simpl; [reflexivity | now rewrite IH].
Qed.

Lemma append_length (a b : string) :
  String.length (a ++ b) = (String.length a + String.length b)%nat.
Proof.
  induction a as [|x a IH]; simpl; [reflexivity | now rewrite IH].
Qed.

Lemma append_inv_length (a a' b b' : string) :
  String.length a = String.length a' ->
  (a ++ b)%string = (a' ++ b')%string -> a = a' /\ b = b'.
Proof.
  revert a'. induction a as [|x a IH]; intros [|x' a'] Hlen H; simpl in *;
    try discriminate.
  - split; [reflexivity | exact H].
  - injection H as Hx H. injection Hlen as Hlen.
    destruct (IH a' Hlen H) as [-> ->]. subst. split; reflexivity.
Qed.

(** ** The filter chain *)

Lemma MakeFilterIn_cli (fold : string -> string -> bool) (f : LoggingFilter)
      (perPage p : Z) (r : Repository) :
  MakeFilterIn fold (cliSearchOptions f perPage p) r = fst (f r).
Proof.
  unfold MakeFilterIn, filtersOf, cliSearchOptions, asFilter. simpl.
  destruct (fst (f r)); reflexivity.
Qed.

(** With nothing configured the library's chain has no filter at all. *)
Lemma MakeFilterIn_zero (fold : string -> string -> bool) (r : Repository) :
  MakeFilterIn fold zeroSearchOptions r = true.
Proof. reflexivity. Qed.

(** C1, as amended.  When the command line gives no search-filter
    expression, [parseSearchFilterIn] hands [defaultSearchFilterIn] to the
    library as its [FilterIn], and the chain compiled by [MakeFilterIn]
    accepts a repository exactly when it is not archived, not a fork and its
    size is strictly positive.  The library's chain alone, compiled from
    options with no custom predicate and nothing else set, accepts every
    repository. *)
Theorem default_chain_excludes (fold : string -> string -> bool) (cel : Compiler)
        (perPage p : Z) :
  (exists f : LoggingFilter,
     parseSearchFilterIn cel EmptyString = inl f /\
     forall r : Repository,
       MakeFilterIn fold (cliSearchOptions f perPage p) r = true <->
       (Archived r = false /\ Fork r = false /\ 0 < Size r)) /\
  (forall r : Repository, MakeFilterIn fold zeroSearchOptions r = true).
Proof.
  split; [|exact (MakeFilterIn_zero fold)].
  eexists. split; [reflexivity|].
  intro r. rewrite MakeFilterIn_cli. simpl. unfold defaultSearchFilterIn.
  rewrite !andb_true_iff, !negb_true_iff, Z.ltb_lt. tauto.
Qed.

(** C1, the claim as written fails: a repository that is neither archived
    nor a fork and whose size is not 0 but negative is still excluded by the
    default chain; and the library's own chain, compiled from options
    with no filter of any kind, accepts an archived repository. *)
Lemma default_chain_counterexample :
  (Archived negativeRepo = false /\ Fork negativeRepo = false /\
   Size negativeRepo <> 0 /\
   exists f, parseSearchFilterIn rejectAll EmptyString = inl f /\
             forall fold,
               MakeFilterIn fold (cliSearchOptions f 100 (-1)) negativeRepo = false)
  /\ (Archived archivedRepo = true /\
      forall fold, MakeFilterIn fold zeroSearchOptions archivedRepo = true).
Proof.
  repeat split; try discriminate.
  eexists. split; reflexivity.
Qed.

(** C4, as amended.  Whenever evaluation does not produce a boolean, be it
    an evaluator error or a value of another type, the predicate answers
    [false]; the diagnostic is logged exactly in the error case, and a
    non-boolean value is rejected silently. The predicate itself is a total
    function into [bool]: no error leaves it. *)
Theorem celFilterIn_fail_closed (prg : Program) (r : Repository) :
  (forall b, prg (repoMap r) <> inl (VBool b)) ->
  fst (celFilterIn prg r) = false /\
  (forall err, prg (repoMap r) = inr err ->
     snd (celFilterIn prg r) =
       [mkLog LevelError "Failed to evaluate CEL expression" [("error", AttrError err)]]) /\
  (forall v, prg (repoMap r) = inl v -> snd (celFilterIn prg r) = []).
Proof.
  intros Hnb. unfold celFilterIn.
  destruct (prg (repoMap r)) as [v|err] eqn:E.
  - destruct v as [b| | | |];
      [exfalso; apply (Hnb b); reflexivity | ..];
      simpl; (split; [reflexivity | split; intros; congruence]).
  - simpl. split; [reflexivity | split; intros; congruence].
Qed.

(** C4 at a program that yields an integer. *)
Lemma celFilterIn_fail_closed_witness :
  fst (celFilterIn intProgram goodRepo) = false /\
  snd (celFilterIn intProgram goodRepo) = [].
Proof.
  assert (H : forall b, intProgram (repoMap goodRepo) <> inl (VBool b))
    by (intros b; unfold intProgram; discriminate).
  destruct (celFilterIn_fail_closed intProgram goodRepo H) as [Hf [_ Hv]].
  split; [exact Hf | exact (Hv (VInt 2) eq_refl)].
Defined.

(** C4, the claim as written fails: for a program that yields an integer
    the predicate answers [false] without any diagnostic. *)
Lemma celFilterIn_silent_on_non_boolean :
  intProgram (repoMap goodRepo) = inl (VInt 2) /\
  celFilterIn intProgram goodRepo = (false, []).
Proof. split; reflexivity. Qed.

(** ** The directory name of a clone *)

Lemma cloneDirName_subset (repo : Repository) (key : string) (cs : list string) :
  cs <> [] ->
  cloneDirName repo key cs
  = ((Name repo ++ "-" ++ key) ++ "-" ++ hashCloningSubset cs)%string.
Proof. destruct cs; [congruence | reflexivity]. Qed.

(** C2, as amended.  For one repository and one cache key, identical
    subsets name the same directory; two non-empty subsets name the same
    directory exactly when the first sixteen hexadecimal digits of the MD5 of
    their patterns joined by a bar agree, which they do whenever the joined
    texts coincide; and a non-empty subset never shares its directory with
    the empty one, which adds no suffix. *)
Theorem cloneDirName_by_subset_hash (repo : Repository) (key : string)
        (cs1 cs2 : list string) :
  (cs1 = cs2 -> cloneDirName repo key cs1 = cloneDirName repo key cs2) /\
  (cs1 <> [] -> cs2 <> [] ->
   (cloneDirName repo key cs1 = cloneDirName repo key cs2 <->
    hashCloningSubset cs1 = hashCloningSubset cs2)) /\
  (cs1 <> [] -> cs2 <> [] ->
   GoStrings.Join cs1 "|" = GoStrings.Join cs2 "|" ->
   cloneDirName repo key cs1 = cloneDirName repo key cs2) /\
  (cs1 <> [] -> cloneDirName repo key cs1 <> cloneDirName repo key []).
Proof.
  split; [intros ->; reflexivity|]. split; [|split].
  - intros H1 H2. rewrite !cloneDirName_subset by assumption. split.
    + intros H. apply append_inv_head in H. apply append_inv_head in H. exact H.
    + intros ->. reflexivity.
  - intros H1 H2 H. rewrite !cloneDirName_subset by assumption.
    unfold hashCloningSubset. rewrite H. reflexivity.
  - intros H1 H. rewrite cloneDirName_subset in H by assumption. simpl in H.
    apply (f_equal String.length) in H. rewrite append_length in H.
    simpl in H. lia.
Qed.

(** C2 at two subsets with the same joined text, and at the empty subset. *)
Lemma cloneDirName_by_subset_hash_witness :
  cloneDirName goodRepo "v1" ["docs"; "src"] = cloneDirName goodRepo "v1" ["docs|src"]
  /\ cloneDirName goodRepo "v1" ["docs"] <> cloneDirName goodRepo "v1" [].
Proof.
  split.
  - apply (cloneDirName_by_subset_hash goodRepo "v1" ["docs"; "src"] ["docs|src"]);
      [discriminate | discriminate | reflexivity].
  - apply (cloneDirName_by_subset_hash goodRepo "v1" ["docs"] ["docs"]).
    discriminate.
Defined.

(** C2, the claim as written fails: the one-pattern subset [a|b] and the
    two-pattern subset [a], [b] differ and still name the same directory. *)
Lemma cloneDirName_collision :
  ["a|b"] <> ["a"; "b"] /\
  cloneDirName goodRepo "v1" ["a|b"] = cloneDirName goodRepo "v1" ["a"; "b"] /\
  hashCloningSubset ["a"; "b"] = "d0726241020676b1".
Proof.
  split; [discriminate|]. split; vm_compute; reflexivity.
Qed.

(** ** Histories only grow *)

Lemma grows_ret {A : Type} (a : A) : grows (ret a).
Proof. intros t. exists []. simpl. now rewrite app_nil_r. Qed.

Lemma grows_bind {A B : Type} (c : M A) (k : A -> M B) :
  grows c -> (forall a, grows (k a)) -> grows (bind c k).
Proof.
  intros Hc Hk t. unfold bind.
  destruct (Hc t) as [d Hd]. destruct (c t) as [a t'] eqn:E. simpl in Hd. subst t'.
  destruct (Hk a (t ++ d)) as [d' Hd']. exists (d ++ d').
  rewrite Hd'. now rewrite app_assoc.
Qed.

Lemma grows_event {A : Type} (f : list Event -> A) (e : Event) :
  grows (fun t => (f t, t ++ [e])).
Proof. intros t. exists [e]. reflexivity. Qed.

Ltac grows_step :=
  match goal with
  | |- grows (bind _ _) => apply grows_bind; [| intros ?]
  | |- grows (ret _) => apply grows_ret
  | |- grows (fun t => (_, t ++ [_])) => apply grows_event
  | |- grows (match ?x with _ => _ end) => destruct x
  end.

Ltac grows_auto := repeat grows_step.

Lemma grows_printLines (w : World) (path : string) (lines : list string) :
  grows (printLines w path lines).
Proof.
  induction lines as [|l rest IH]; simpl.
  - apply grows_ret.
  - unfold fprintln. grows_auto. exact IH.
Qed.

Lemma grows_cloneRepository (w : World) (repo : Repository) (dir : string)
      (opts : Options) :
  grows (cloneRepository w repo dir opts).
Proof.
  unfold cloneRepository, cloneSetup, sparseCheckout, fetchAndCheckout, fillLines,
    runX, osCreate.
  grows_auto; apply grows_printLines.
Qed.

Lemma grows_cloneRepositoryOrGetFromCache (w : World) (repo : Repository)
      (opts : Options) :
  grows (cloneRepositoryOrGetFromCache w repo opts).
Proof.
  unfold cloneRepositoryOrGetFromCache, cloneOnMiss, copyFromCache, timeNow, osStat,
    osMkdirAll, osRemoveAll, logRecord, randSequence, runX.
  grows_auto; apply grows_cloneRepository.
Qed.

Lemma grows_processRepository (w : World) (repo : Repository) (opts : Options) :
  grows (processRepository w repo opts).
Proof.
  unfold processRepository, callProcessor, osRemoveAll, logRecord.
  grows_auto. apply grows_cloneRepositoryOrGetFromCache.
Qed.

(** ** Empty repositories *)

(** C7, as amended.  A record of size 0 is processed without touching the
    clone cache: the history grows by the debug record and by one call of
    the Processor, made with [isEmpty = true] and the execer
    [exec.NewExecer("")]; no directory is looked up, created or removed, no
    command is run.  The directory of that execer is the empty string:
    every command run through it gets an empty [Cwd] and so runs in the
    current directory of the process.  The handle therefore targets a root
    that does not exist only when the current directory of the process
    does not exist. *)
Theorem processRepository_empty (w : World) (repo : Repository) (opts : Options)
        (t : list Event) :
  Size repo = 0 ->
  let t' := t ++ [EvLog (mkLog LevelDebug "Empty repository"
                               [("repository", AttrString (Name repo))])] in
  let handle := Exec.NewExecer EmptyString in
  processRepository w repo opts t
  = (match onProcessor w t' (Name repo) true (Exec.dir handle) with
     | Some e => Some (ErrWrapf "processing empty repository: %w" [] e)
     | None => None
     end,
     t' ++ [EvProcessor (Name repo) true (Exec.dir handle)]) /\
  (forall (command : string) (args : list string) (processDir : string),
     Exec.Cwd (Exec.taskOf handle command args) = EmptyString /\
     Exec.workingDirectory processDir (Exec.taskOf handle command args) = processDir) /\
  (forall (t0 : list Event) (processDir : string),
     targetsMissingRoot w t0 processDir handle <->
     onStat w t0 processDir = StatNotExist).
Proof.
  intros Hsize. cbv zeta. split; [|split].
  - unfold processRepository. rewrite Hsize. simpl.
    unfold bind, logRecord, callProcessor.
    destruct (onProcessor w _ (Name repo) true EmptyString); reflexivity.
  - intros command args processDir. split; reflexivity.
  - intros t0 processDir. unfold targetsMissingRoot. split.
    + intros H. exact (H EmptyString []).
    + intros H command args. exact H.
Qed.

(** C7 at an empty repository in the calm world. *)
Lemma processRepository_empty_witness :
  processRepository calmWorld emptyRepo plainOptions []
  = (None,
     [EvLog (mkLog LevelDebug "Empty repository"
                   [("repository", AttrString "octo/empty")]);
      EvProcessor "octo/empty" true EmptyString]).
Proof.
  exact (proj1 (processRepository_empty calmWorld emptyRepo plainOptions [] eq_refl)).
Defined.

(** C7, the claim as written fails: the handle given for an empty
    repository has the empty directory, so a command run through it by a
    process that stands in [/home/octo] runs in [/home/octo], a directory
    that exists. *)
Lemma empty_repository_handle_targets_current_directory :
  Size emptyRepo = 0 /\
  processRepository homeWorld emptyRepo plainOptions []
  = (None,
     [EvLog (mkLog LevelDebug "Empty repository"
                   [("repository", AttrString "octo/empty")]);
      EvProcessor "octo/empty" true (Exec.dir (Exec.NewExecer EmptyString))]) /\
  Exec.workingDirectory "/home/octo"
    (Exec.taskOf (Exec.NewExecer EmptyString) "git" ["status"]) = "/home/octo" /\
  onStat homeWorld (snd (processRepository homeWorld emptyRepo plainOptions []))
         "/home/octo" = StatDir /\
  ~ targetsMissingRoot homeWorld
      (snd (processRepository homeWorld emptyRepo plainOptions []))
      "/home/octo" (Exec.NewExecer EmptyString).
Proof.
  split; [reflexivity|]. split; [reflexivity|]. split; [reflexivity|].
  split; [reflexivity|].
  intros H. specialize (H "git" ["status"]). vm_compute in H. discriminate H.
Qed.

(** ** Validation at the two entry points *)

(** C9.  [RunForRepository] answers the incorrect-name error, before any
    other call, exactly when the name holds more than one slash; with at most
    one slash (none included) the first thing it does is the [gh api] fetch,
    and whatever it returns then is another error or none. *)
Theorem RunForRepository_name_validation (w : World) (repoName : string)
        (opts : Options) (t : list Event) :
  (1 < GoStrings.Count repoName "/"%char ->
   RunForRepository w repoName opts t
   = (Some (ErrorF "incorrect repository name %q" [repoName]), t)) /\
  (GoStrings.Count repoName "/"%char <= 1 ->
   exists res rest,
     RunForRepository w repoName opts t
     = (res, t ++ EvRunX "." "gh" (repositoryArgs repoName) :: rest) /\
     res <> Some (ErrorF "incorrect repository name %q" [repoName])).
Proof.
  unfold RunForRepository. split; intros H.
  - apply Z.gtb_lt in H. rewrite H. reflexivity.
  - destruct (GoStrings.Count repoName "/" >? 1) eqn:E.
    + apply Z.gtb_lt in E. lia.
    + unfold bind at 1. unfold runX at 1.
      destruct (onRunX w t "." "gh" (repositoryArgs repoName)) as [out [e|]]; simpl.
      * eexists _, []. split; [reflexivity | discriminate].
      * destruct (unmarshalRepository w out) as [repo|e].
        -- unfold bind.
           destruct (grows_processRepository w repo opts
                       (t ++ [EvRunX "." "gh" (repositoryArgs repoName)])) as [d Hd].
           destruct (processRepository w repo opts _) as [err t'].
           simpl in Hd. subst t'. rewrite <- app_assoc. simpl.
           destruct err; eexists _, d; (split; [reflexivity | discriminate]).
        -- eexists _, []. split; [reflexivity | discriminate].
Qed.

(** C9 at a name with two slashes and at a name with none. *)
Lemma RunForRepository_name_validation_witness :
  RunForRepository calmWorld "a/b/c" plainOptions []
  = (Some (ErrorF "incorrect repository name %q" ["a/b/c"]), []) /\
  exists res rest,
    RunForRepository calmWorld "good" plainOptions []
    = (res, [] ++ EvRunX "." "gh" (repositoryArgs "good") :: rest) /\
    res <> Some (ErrorF "incorrect repository name %q" ["good"]).
Proof.
  split.
  - apply (RunForRepository_name_validation calmWorld "a/b/c" plainOptions []).
    vm_compute. reflexivity.
  - apply (RunForRepository_name_validation calmWorld "good" plainOptions []).
    vm_compute. discriminate.
Defined.

(** ** The listing request of [RunForOrganization] *)

Lemma listingTarget_negative_perPage (orgName : string) (so : SearchOptions) :
  PerPage so < 0 ->
  listingTarget orgName so = inr (ErrNew "invalid negative SearchOptions.PerPage").
Proof.
  intros H. unfold listingTarget, maxPerPage.
  destruct (PerPage so =? 0) eqn:E0; [apply Z.eqb_eq in E0; lia|].
  destruct (PerPage so >? 1000) eqn:E1; [apply Z.gtb_lt in E1; lia|].
  destruct (PerPage so >? 0) eqn:E2; [apply Z.gtb_lt in E2; lia|].
  reflexivity.
Qed.

Lemma listingTarget_sized (orgName : string) (so : SearchOptions) :
  0 <= PerPage so ->
  listingTarget orgName so
  = (let page := soPage so in
     if page =? AllPages then inl (["--paginate"], sizedTarget orgName so)
     else if page >? 0 then
       inl ([], (sizedTarget orgName so ++ "&page=" ++ Fmt.decimal page)%string)
     else if negb (page =? 0) then
       inr (ErrNew "invalid negative SearchOptions.Page")
     else inl ([], sizedTarget orgName so)).
Proof.
  intros H. unfold listingTarget, sizedTarget, effectivePerPage.
  destruct ((PerPage so =? 0) || (PerPage so >? maxPerPage)) eqn:E.
  - cbv zeta. rewrite !append_assoc. reflexivity.
  - apply orb_false_iff in E. destruct E as [E0 _]. apply Z.eqb_neq in E0.
    assert (E2 : (PerPage so >? 0) = true) by (apply Z.gtb_lt; lia).
    rewrite E2. cbv zeta. rewrite !append_assoc. reflexivity.
Qed.

Lemma listingTarget_valid (orgName : string) (so : SearchOptions) :
  0 <= PerPage so -> -1 <= soPage so ->
  listingTarget orgName so = inl (pageFlags so, pagedTarget orgName so).
Proof.
  intros Hpp Hpg. rewrite (listingTarget_sized orgName so Hpp).
  unfold pageFlags, pagedTarget, AllPages. cbv zeta.
  destruct (soPage so =? -1) eqn:P0.
  - apply Z.eqb_eq in P0.
    assert (E : (soPage so >? 0) = false)
      by (rewrite Z.gtb_ltb; apply Z.ltb_ge; lia).
    rewrite E. reflexivity.
  - destruct (soPage so >? 0) eqn:P1; [reflexivity|].
    destruct (soPage so =? 0) eqn:P2; [reflexivity|].
    apply Z.eqb_neq in P0, P2. rewrite Z.gtb_ltb in P1. apply Z.ltb_ge in P1. lia.
Qed.

Lemma listingTarget_negative_page (orgName : string) (so : SearchOptions) :
  0 <= PerPage so -> soPage so < -1 ->
  listingTarget orgName so = inr (ErrNew "invalid negative SearchOptions.Page").
Proof.
  intros Hpp Hpg. rewrite (listingTarget_sized orgName so Hpp).
  unfold AllPages. cbv zeta.
  assert (E1 : (soPage so =? -1) = false) by (apply Z.eqb_neq; lia).
  assert (E2 : (soPage so >? 0) = false) by (rewrite Z.gtb_ltb; apply Z.ltb_ge; lia).
  assert (E3 : (soPage so =? 0) = false) by (apply Z.eqb_neq; lia).
  rewrite E1, E2, E3. reflexivity.
Qed.

(** With options that pass the validation, [RunForOrganization] runs the
    one [gh] command and goes on by its outcome. *)
Lemma RunForOrganization_request (w : World) (orgName : string)
      (so : SearchOptions) (opts : Options) (t : list Event)
      (flags : list string) (target : string) :
  listingTarget orgName so = inl (flags, target) ->
  RunForOrganization w orgName so opts t
  = (let args := organizationArgs w so ++ flags ++ [target] in
     let r := onRunX w t "." "gh" args in
     match snd r with
     | Some e =>
         (Returned zeroResult
            (ErrWrapf "fetching repositories: %w" [] (ErrOrGHAPIErr w (fst r) e)),
          t ++ [EvRunX "." "gh" args; EvRemoveAll (reposDir w)])
     | None =>
         match scanRepoPages w (fst r) with
         | inr e =>
             (Returned zeroResult (ErrWrapf "processing repositories pages: %w" [] e),
              t ++ [EvRunX "." "gh" args; EvRemoveAll (reposDir w)])
         | inl repoPages =>
             (Dispatch repoPages (numberOfWorkers opts)
                       (MakeFilterIn (equalFoldUnicode w) so),
              t ++ [EvRunX "." "gh" args])
         end
     end).
Proof.
  intros H. unfold RunForOrganization. rewrite H.
  unfold bind, runX, osRemoveAll, ret. cbv zeta.
  destruct (onRunX w t "." "gh" _) as [payload [e|]]; simpl.
  - rewrite <- app_assoc. reflexivity.
  - destruct (scanRepoPages w payload) as [pages|e]; simpl.
    + reflexivity.
    + rewrite <- app_assoc. reflexivity.
Qed.

Lemma RunForOrganization_refused (w : World) (orgName : string)
      (so : SearchOptions) (opts : Options) (t : list Event) (e : error) :
  listingTarget orgName so = inr e ->
  RunForOrganization w orgName so opts t
  = (Returned zeroResult e, t ++ [EvRemoveAll (reposDir w)]).
Proof.
  intros H. unfold RunForOrganization. rewrite H. reflexivity.
Qed.

Lemma RunForOrganization_history (w : World) (orgName : string)
      (so : SearchOptions) (opts : Options) (t : list Event)
      (flags : list string) (target : string) :
  listingTarget orgName so = inl (flags, target) ->
  snd (RunForOrganization w orgName so opts t)
  = t ++ EvRunX "." "gh" (organizationArgs w so ++ flags ++ [target])
         :: afterListing w (fst (RunForOrganization w orgName so opts t)).
Proof.
  intros H. rewrite (RunForOrganization_request w orgName so opts t flags target H).
  cbv zeta.
  destruct (snd (onRunX w t "." "gh" _)) as [e|]; [reflexivity|].
  destruct (scanRepoPages w _) as [pages|e]; reflexivity.
Qed.

Lemma RunForOrganization_not_perPage_error (w : World) (orgName : string)
      (so : SearchOptions) (opts : Options) (t : list Event) :
  0 <= PerPage so ->
  fst (RunForOrganization w orgName so opts t)
  <> Returned zeroResult (ErrNew "invalid negative SearchOptions.PerPage").
Proof.
  intros Hpp.
  destruct (Z_lt_ge_dec (soPage so) (-1)) as [Hpg|Hpg].
  - rewrite (RunForOrganization_refused w orgName so opts t _
               (listingTarget_negative_page orgName so Hpp Hpg)).
    simpl. intros H. discriminate H.
  - rewrite (RunForOrganization_request w orgName so opts t _ _
               (listingTarget_valid orgName so Hpp ltac:(lia))).
    cbv zeta.
    destruct (snd (onRunX w t "." "gh" _)) as [e|]; [simpl; intros H; discriminate H|].
    destruct (scanRepoPages w _) as [pages|e]; simpl; intros H; discriminate H.
Qed.

Lemma sizedTarget_default (orgName : string) (so : SearchOptions) :
  PerPage so = 0 \/ 1000 < PerPage so ->
  sizedTarget orgName so = ("/orgs/" ++ orgName ++ "/repos?per_page=100")%string.
Proof.
  intros H. unfold sizedTarget, effectivePerPage, maxPerPage.
  assert (E : (PerPage so =? 0) || (PerPage so >? 1000) = true).
  { apply orb_true_iff. destruct H as [H|H];
      [left; now apply Z.eqb_eq | right; now apply Z.gtb_lt]. }
  rewrite E. reflexivity.
Qed.

(** C10.  A negative [PerPage] is answered at once with the validation
    error and the zero result, no command having run.  With a [PerPage] of
    0 or above 1000, [RunForOrganization] does all that it does with a
    [PerPage] of 100: unless the [Page] is refused, the first thing it does
    is to run [gh api] on [/orgs/<org>/repos?per_page=100], with
    [--paginate] before it when all pages are asked for and [&page=N] after
    it for a positive page.  And [RunForOrganization] returns the [PerPage]
    error for negative values only. *)
Theorem RunForOrganization_perPage (w : World) (orgName : string)
        (searchOpts : SearchOptions) (opts : Options) (t : list Event) :
  (PerPage searchOpts < 0 ->
   RunForOrganization w orgName searchOpts opts t
   = (Returned zeroResult (ErrNew "invalid negative SearchOptions.PerPage"),
      t ++ [EvRemoveAll (reposDir w)])) /\
  (PerPage searchOpts = 0 \/ 1000 < PerPage searchOpts ->
   RunForOrganization w orgName searchOpts opts t
   = RunForOrganization w orgName (withPerPage defaultPerPage searchOpts) opts t /\
   (-1 <= soPage searchOpts ->
    snd (RunForOrganization w orgName searchOpts opts t)
    = t ++ EvRunX "." "gh"
             (organizationArgs w searchOpts
              ++ (if soPage searchOpts =? AllPages then ["--paginate"] else [])
              ++ [if soPage searchOpts >? 0
                  then ("/orgs/" ++ orgName ++ "/repos?per_page=100&page="
                        ++ Fmt.decimal (soPage searchOpts))%string
                  else ("/orgs/" ++ orgName ++ "/repos?per_page=100")%string])
           :: afterListing w (fst (RunForOrganization w orgName searchOpts opts t)))) /\
  (fst (RunForOrganization w orgName searchOpts opts t)
   = Returned zeroResult (ErrNew "invalid negative SearchOptions.PerPage") <->
   PerPage searchOpts < 0).
Proof.
  split; [|split].
  - intros H. apply RunForOrganization_refused.
    apply listingTarget_negative_perPage. exact H.
  - intros H. split.
    + unfold RunForOrganization.
      assert (E : listingTarget orgName searchOpts
                  = listingTarget orgName (withPerPage defaultPerPage searchOpts)).
      { assert (Hpp : 0 <= PerPage searchOpts) by lia.
        rewrite (listingTarget_sized orgName searchOpts Hpp).
        rewrite (listingTarget_sized orgName (withPerPage defaultPerPage searchOpts))
          by (simpl; unfold defaultPerPage; lia).
        rewrite (sizedTarget_default orgName searchOpts H).
        reflexivity. }
      rewrite <- E. destruct searchOpts; reflexivity.
    + intros Hpg.
      rewrite (RunForOrganization_history w orgName searchOpts opts t _ _
                 (listingTarget_valid orgName searchOpts ltac:(lia) Hpg)).
      unfold pageFlags, pagedTarget.
      rewrite (sizedTarget_default orgName searchOpts H).
      destruct (soPage searchOpts >? 0); [|reflexivity].
      rewrite !append_assoc. reflexivity.
  - split.
    + intros H. destruct (Z_lt_ge_dec (PerPage searchOpts) 0) as [Hn|Hn]; [exact Hn|].
      exfalso.
      exact (RunForOrganization_not_perPage_error w orgName searchOpts opts t
               ltac:(lia) H).
    + intros H.
      rewrite (RunForOrganization_refused w orgName searchOpts opts t _
                 (listingTarget_negative_perPage orgName searchOpts H)).
      reflexivity.
Qed.

(** C10 at a [PerPage] of -5 and of 5000. *)
Lemma RunForOrganization_perPage_witness :
  (RunForOrganization calmWorld "octo" (withPerPage (-5) zeroSearchOptions) plainOptions []
   = (Returned zeroResult (ErrNew "invalid negative SearchOptions.PerPage"),
      [EvRemoveAll "/tmp/gh-iterator"])) /\
  (RunForOrganization calmWorld "octo" (withPerPage 5000 zeroSearchOptions) plainOptions []
   = RunForOrganization calmWorld "octo"
       (withPerPage defaultPerPage (withPerPage 5000 zeroSearchOptions)) plainOptions []) /\
  (snd (RunForOrganization calmWorld "octo" (withPerPage 5000 zeroSearchOptions)
          plainOptions [])
   = [EvRunX "." "gh"
        [ "api"; "-H"; "Accept: application/vnd.github+json";
          "-H"; "X-GitHub-Api-Version: 2022-11-28"; "-X"; "GET"; "--jq";
          ". | map({full_name,clone_url,ssh_url,default_branch,archived,language,visibility,fork,size,pushed_at})";
          "/orgs/octo/repos?per_page=100" ]]).
Proof.
  split; [|split].
  - apply (RunForOrganization_perPage calmWorld "octo"
             (withPerPage (-5) zeroSearchOptions) plainOptions []).
    vm_compute. reflexivity.
  - apply (RunForOrganization_perPage calmWorld "octo"
             (withPerPage 5000 zeroSearchOptions) plainOptions []).
    right. vm_compute. reflexivity.
  - apply (RunForOrganization_perPage calmWorld "octo"
             (withPerPage 5000 zeroSearchOptions) plainOptions []).
    + right. vm_compute. reflexivity.
    + vm_compute. discriminate.
Defined.

(** ** The synthesized cache key *)

Lemma padDigits_length (w : nat) (x : Z) : String.length (Fmt.padDigits w x) = w.
Proof.
  revert x. induction w as [|w IH]; intros x; simpl; [reflexivity|].
  rewrite append_length, IH. simpl. lia.
Qed.

Lemma digit_inj (a b : Z) :
  0 <= a < 10 -> 0 <= b < 10 -> Fmt.digit a = Fmt.digit b -> a = b.
Proof.
  intros Ha Hb H. unfold Fmt.digit in H.
  apply (f_equal nat_of_ascii) in H.
  rewrite !nat_ascii_embedding in H by lia. lia.
Qed.

Lemma padDigits_inj (w : nat) (x y : Z) :
  0 <= x < 10 ^ Z.of_nat w -> 0 <= y < 10 ^ Z.of_nat w ->
  Fmt.padDigits w x = Fmt.padDigits w y -> x = y.
Proof.
  revert x y. induction w as [|w IH]; intros x y Hx Hy H.
  - simpl in Hx, Hy. lia.
  - simpl in H.
    rewrite Nat2Z.inj_succ, Z.pow_succ_r in Hx, Hy by lia.
    apply append_inv_length in H; [|now rewrite !padDigits_length].
    destruct H as [Hq Hr]. injection Hr as Hr.
    apply digit_inj in Hr; try (apply Z.mod_pos_bound; lia).
    apply IH in Hq.
    + rewrite (Z.div_mod x 10), (Z.div_mod y 10) by lia. congruence.
    + split; [apply Z.div_pos; lia | apply Z.div_lt_upper_bound; lia].
    + split; [apply Z.div_pos; lia | apply Z.div_lt_upper_bound; lia].
Qed.

Lemma trimZeros_inj (s1 s2 : string) :
  String.length s1 = String.length s2 ->
  Fmt.trimZeros s1 = Fmt.trimZeros s2 -> s1 = s2.
Proof.
  revert s2. induction s1 as [|c1 r1 IH]; intros [|c2 r2] Hlen H;
    simpl in Hlen; try discriminate; [reflexivity|].
  injection Hlen as Hlen. simpl in H.
  destruct (Fmt.trimZeros r1) as [|a1 t1] eqn:E1;
    destruct (Fmt.trimZeros r2) as [|a2 t2] eqn:E2.
  - rewrite (IH r2 Hlen (eq_sym E2)).
    destruct (Ascii.eqb_spec c1 "0"%char), (Ascii.eqb_spec c2 "0"%char);
      try discriminate; congruence.
  - destruct (Ascii.eqb c1 "0"%char); discriminate.
  - destruct (Ascii.eqb c2 "0"%char); discriminate.
  - injection H as Hc Ha Ht. subst.
    rewrite (IH r2 Hlen (eq_sym E2)). reflexivity.
Qed.

Lemma fracSecond9_inj (x y : Z) :
  0 <= x <= 999999999 -> 0 <= y <= 999999999 ->
  Fmt.fracSecond9 x = Fmt.fracSecond9 y -> x = y.
Proof.
  intros Hx Hy. unfold Fmt.fracSecond9.
  destruct (Z.eqb_spec x 0), (Z.eqb_spec y 0); intros H;
    try discriminate; [congruence|].
  apply (append_inv_head ".") in H.
  apply trimZeros_inj in H; [|now rewrite !padDigits_length].
  assert (E9 : 10 ^ Z.of_nat 9 = 1000000000) by reflexivity.
  apply padDigits_inj in H; [exact H | rewrite E9; lia | rewrite E9; lia].
Qed.

Lemma formatCacheKey_inj (t1 t2 : Time) :
  validClock t1 -> validClock t2 ->
  formatCacheKey t1 = formatCacheKey t2 -> sameDayClock t1 t2.
Proof.
  intros (_ & Hd1 & Hh1 & Hm1 & Hs1 & Hn1) (_ & Hd2 & Hh2 & Hm2 & Hs2 & Hn2) H.
  unfold formatCacheKey in H.
  apply append_inv_length in H; [|now rewrite !padDigits_length].
  destruct H as [Hd H]. apply (append_inv_head "T") in H.
  apply append_inv_length in H; [|now rewrite !padDigits_length].
  destruct H as [Hh H]. apply (append_inv_head "_") in H.
  apply append_inv_length in H; [|now rewrite !padDigits_length].
  destruct H as [Hm H]. apply (append_inv_head "_") in H.
  apply append_inv_length in H; [|now rewrite !padDigits_length].
  destruct H as [Hs Hn].
  assert (E2 : 10 ^ Z.of_nat 2 = 100) by reflexivity.
  apply padDigits_inj in Hd, Hh, Hm, Hs; try (rewrite E2; lia).
  apply fracSecond9_inj in Hn; try lia.
  repeat split; assumption.
Qed.

Lemma append_inv_tail (a b s : string) :
  (a ++ s)%string = (b ++ s)%string -> a = b.
Proof.
  intros H. apply append_inv_length in H; [tauto|].
  apply (f_equal String.length) in H. rewrite !append_length in H. lia.
Qed.

Lemma cloneDirName_key_inj (repo : Repository) (k1 k2 : string) (cs : list string) :
  cloneDirName repo k1 cs = cloneDirName repo k2 cs -> k1 = k2.
Proof.
  unfold cloneDirName. destruct cs as [|c cs]; intros H.
  - now do 2 apply append_inv_head in H.
  - apply append_inv_tail in H. now do 2 apply append_inv_head in H.
Qed.

(** With no key of the caller's, an acquisition that succeeds returns the
    directory named after the clock reading it took. *)
Lemma acquire_synthesized (w : World) (repo : Repository) (opts : Options)
      (t : list Event) (dir : string) :
  explicitCacheKey opts repo = EmptyString ->
  fst (cloneRepositoryOrGetFromCache w repo opts t) = inl dir ->
  dir = synthesizedCloneDir w repo opts (onNow w t).
Proof.
  intros Hk. unfold cloneRepositoryOrGetFromCache. rewrite Hk. simpl.
  unfold bind, timeNow, ret, osStat. simpl.
  destruct (onStat w _ _); simpl.
  - intros H. injection H as <-. reflexivity.
  - discriminate.
  - destruct (cloneOnMiss w repo _ opts _) as [[e|] t']; simpl.
    + discriminate.
    + intros H. injection H as <-. reflexivity.
  - discriminate.
Qed.

(** C8, as amended.  When the caller gives no cache key (or an empty one)
    the key is the clock reading of the call, laid out as day of the month,
    hour, minute, second and nanoseconds.  Two such acquisitions of one
    repository that succeed return the same directory exactly when their
    readings agree on all five fields: readings that differ in one of them
    never share a directory, readings that differ in month or year only do. *)
Theorem synthesized_key_directories (w : World) (repo : Repository)
        (opts : Options) (t1 t2 : list Event) (d1 d2 : string) :
  explicitCacheKey opts repo = EmptyString ->
  validClock (onNow w t1) -> validClock (onNow w t2) ->
  fst (cloneRepositoryOrGetFromCache w repo opts t1) = inl d1 ->
  fst (cloneRepositoryOrGetFromCache w repo opts t2) = inl d2 ->
  (d1 = d2 <-> sameDayClock (onNow w t1) (onNow w t2)).
Proof.
  intros Hk V1 V2 H1 H2.
  apply acquire_synthesized in H1, H2; try assumption. subst d1 d2.
  unfold synthesizedCloneDir, pathJoin. split.
  - intros H. do 2 apply append_inv_head in H.
    apply cloneDirName_key_inj in H. now apply formatCacheKey_inj.
  - intros (Hd & Hh & Hm & Hs & Hn). unfold formatCacheKey.
    now rewrite Hd, Hh, Hm, Hs, Hn.
Qed.

(** C8 at two readings of a ticking clock three seconds apart. *)
Lemma synthesized_key_directories_witness :
  "/tmp/gh-iterator/octo/good-15T12_00_00" = "/tmp/gh-iterator/octo/good-15T12_00_03"
  <-> sameDayClock (onNow tickingWorld []) (onNow tickingWorld [EvNow; EvNow; EvNow]).
Proof.
  apply (synthesized_key_directories tickingWorld goodRepo plainOptions
           [] [EvNow; EvNow; EvNow]).
  - reflexivity.
  - repeat split; vm_compute; discriminate.
  - repeat split; vm_compute; discriminate.
  - vm_compute. reflexivity.
  - vm_compute. reflexivity.
Defined.

(** C8, the claim as written fails: two acquisitions without a cache key,
    made a month apart, synthesize the same key and are given the same
    clone directory. *)
Lemma synthesized_key_reused :
  explicitCacheKey plainOptions goodRepo = EmptyString /\
  tMonth (onNow monthlyWorld []) = 1 /\
  tMonth (onNow monthlyWorld (snd (cloneRepositoryOrGetFromCache
                                     monthlyWorld goodRepo plainOptions []))) = 2 /\
  fst (cloneRepositoryOrGetFromCache monthlyWorld goodRepo plainOptions [])
  = inl "/tmp/gh-iterator/octo/good-15T12_00_00.5" /\
  fst (cloneRepositoryOrGetFromCache monthlyWorld goodRepo plainOptions
         (snd (cloneRepositoryOrGetFromCache monthlyWorld goodRepo plainOptions [])))
  = inl "/tmp/gh-iterator/octo/good-15T12_00_00.5".
Proof. repeat split; vm_compute; reflexivity. Qed.

(** ** The counters of the dispatcher *)

Lemma filter_length_bound {A : Type} (f : A -> bool) (l : list A) :
  (List.length (filter f l) <= List.length l)%nat.
Proof.
  induction l as [|x l IH]; simpl; [lia|]. destruct (f x); simpl; lia.
Qed.

Lemma counted_ordered (run : Run) (s : State) :
  mFound s = pagesLength (repoPages run) -> counted run s ->
  ordered (currentResult s).
Proof.
  intros Hf (examined & rest & _ & Hflat & Hi & Hp).
  unfold ordered, currentResult, pagesLength in *. simpl.
  rewrite Hf, Hi, Hp, Hflat, length_app.
  pose proof (filter_length_bound (filterIn run) examined). lia.
Qed.

Lemma countersInv_ordered (run : Run) (s : State) :
  countersInv run s -> ordered (currentResult s).
Proof.
  unfold countersInv. destruct (main s) eqn:E; intros [H _];
    try (destruct H as [Hf Hc]; now apply (counted_ordered run)).
  destruct H as (H0 & _ & Hi & Hp & _).
  unfold ordered, currentResult. simpl. lia.
Qed.

Lemma countersInv_initial (run : Run) : countersInv run (initial run).
Proof.
  unfold countersInv, initial. simpl. repeat split; lia.
Qed.

Ltac crunch H :=
  repeat match type of H with
         | context [if ?b then _ else _] => destruct b eqn:?
         | context [match ?x with _ => _ end] => destruct x eqn:?
         | None = Some _ => discriminate H
         end.

Lemma counted_examine (run : Run) (repo : Repository) (rest : list Repository)
      (i p : Z) :
  (exists examined rest',
     Some (repo :: rest) = Some rest' /\
     List.concat (repoPages run) = examined ++ rest' /\
     i = Z.of_nat (List.length examined) /\
     p = Z.of_nat (List.length (filter (filterIn run) examined))) ->
  exists examined rest',
    Some rest = Some rest' /\
    List.concat (repoPages run) = examined ++ rest' /\
    i + 1 = Z.of_nat (List.length examined) /\
    (if filterIn run repo then p + 1 else p)
    = Z.of_nat (List.length (filter (filterIn run) examined)).
Proof.
  intros (examined & rest' & Hr & Hflat & Hi & Hp). injection Hr as <-.
  exists (examined ++ [repo]), rest. repeat split.
  - rewrite Hflat, <- app_assoc. reflexivity.
  - rewrite length_app. simpl. lia.
  - rewrite filter_app, length_app. simpl.
    destruct (filterIn run repo); simpl; lia.
Qed.

Lemma countersInv_step (run : Run) (l : Label) (s s' : State) :
  countersInv run s -> step run l s = Some s' -> countersInv run s'.
Proof.
  intros HI H. pose proof (countersInv_ordered run s HI) as Hord.
  destruct s as [rc rcl ec ecl dc cx f i p pr ws m lg pn].
  unfold step in H. simpl in H. destruct pn; [discriminate|].
  unfold countersInv, counted, currentResult in *. simpl in *.
  destruct l; simpl in H.
  - (* the calling goroutine *)
    unfold stepMain in H; simpl in H.
    destruct m; crunch H; injection H as <-; simpl; try tauto.
    + destruct HI as [(H0 & Hsum & Hi & Hp & Hpr) _]. subst.
      split; [|exact I]. split.
      * unfold pagesLength in *. simpl in Hsum. lia.
      * exists [], (List.concat (repoPages run)). simpl. tauto.
    + destruct HI as [(H0 & Hsum & Hi & Hp & Hpr) _].
      split; [|exact I]. unfold pagesLength in *. simpl in Hsum.
      rewrite length_app in Hsum. repeat split; try assumption; lia.
    + split; [tauto|]. unfold ordered. simpl. lia.
    + split; [tauto|]. unfold ordered. simpl. lia.
    + split; [tauto|]. unfold ordered. simpl. lia.
  - unfold stepSelect in H; simpl in H.
    destruct m; crunch H; injection H as <-; simpl; tauto.
  - unfold stepSelect in H; simpl in H.
    destruct m; crunch H; injection H as <-; simpl; tauto.
  - unfold stepSelect in H; simpl in H.
    destruct m; crunch H; injection H as <-; simpl; tauto.
  - (* the producer *)
    unfold stepProducer in H; simpl in H.
    destruct m;
      try (destruct HI as [(_ & _ & _ & _ & ->) _]; discriminate H);
      (destruct pr as [|rest|repo rest|repo rest| |rest|rest];
       try discriminate;
       [ destruct rest as [|repo rest];
         [ injection H as <-; simpl; tauto
         | pose proof (counted_examine run repo rest i p) as Hex;
           destruct (filterIn run repo); injection H as <-; simpl; tauto ]
       | crunch H; injection H as <-; simpl; tauto .. ]).
  - (* a worker *)
    unfold stepWorker in H; simpl in H.
    destruct (nth_error ws i0) as [[| | | |]|]; try discriminate;
      crunch H; injection H as <-; simpl; destruct m; tauto.
  - injection H as <-. simpl. destruct m; tauto.
Qed.

Lemma countersInv_exec (run : Run) (schedule : list Label) (s s' : State) :
  countersInv run s -> exec run schedule s = Some s' -> countersInv run s'.
Proof.
  revert s. induction schedule as [|l rest IH]; intros s HI H; simpl in H.
  - injection H as <-. exact HI.
  - destruct (step run l s) as [s1|] eqn:E; [|discriminate].
    apply (IH s1); [|exact H]. now apply (countersInv_step run l s).
Qed.

(** C3.  At every point of every run of the dispatcher, whatever the pages,
    the filter, the outcomes of processing and the schedule, the counters
    satisfy [0 <= Processed <= Inspected <= Found], and so does any
    [Result] the call returns.  [Found] is summed over the pages before any
    record is examined; from then on it is the number of all records,
    [Inspected] the number of records the producer has examined and
    [Processed] the number of those that passed the filter. *)
Theorem counters_ordered (run : Run) (schedule : list Label) (s : State) :
  exec run schedule (initial run) = Some s ->
  ordered (currentResult s) /\
  (forall res err, main s = MReturned res err -> ordered res) /\
  ((forall rest, main s <> MSum rest) ->
   mFound s = pagesLength (repoPages run) /\ counted run s) /\
  (forall rest, main s = MSum rest -> mInspected s = 0 /\ mProcessed s = 0).
Proof.
  intros H.
  pose proof (countersInv_exec run schedule _ _ (countersInv_initial run) H) as HI.
  split; [now apply (countersInv_ordered run)|].
  destruct HI as [HA HB]. split; [|split].
  - intros res err E. rewrite E in HB. exact HB.
  - intros Hn. destruct (main s) eqn:E; try exact HA.
    exfalso. apply (Hn rest). reflexivity.
  - intros rest E. rewrite E in HA. tauto.
Qed.

(** C3 at the scenario of the specification: [Found = 6], [Inspected = 6],
    [Processed = 4]. *)
Lemma counters_ordered_witness :
  exists s,
    exec scenarioRun scenarioSchedule (initial scenarioRun) = Some s /\
    main s = MReturned (mkResult 6 6 4) None /\
    ordered (currentResult s).
Proof.
  eexists. split; [vm_compute; reflexivity|]. split; [reflexivity|].
  apply (counters_ordered scenarioRun scenarioSchedule). vm_compute. reflexivity.
Defined.

(** ** Errors in the dispatcher *)

Lemma errorVoidsResult_step (run : Run) (l : Label) (s s' : State) :
  errorVoidsResult s -> step run l s = Some s' -> errorVoidsResult s'.
Proof.
  intros HI H.
  destruct s as [rc rcl ec ecl dc cx f i p pr ws m lg pn].
  unfold step in H. simpl in H. destruct pn; [discriminate|].
  unfold errorVoidsResult in *. simpl in *.
  destruct l; simpl in H.
  - unfold stepMain in H; simpl in H.
    destruct m; crunch H; injection H as <-; simpl; tauto.
  - unfold stepSelect in H; simpl in H.
    destruct m; crunch H; injection H as <-; simpl; tauto.
  - unfold stepSelect in H; simpl in H.
    destruct m; crunch H; injection H as <-; simpl; tauto.
  - unfold stepSelect in H; simpl in H.
    destruct m; crunch H; injection H as <-; simpl; tauto.
  - unfold stepProducer in H; simpl in H.
    destruct pr; crunch H; injection H as <-; simpl; exact HI.
  - unfold stepWorker in H; simpl in H.
    destruct (nth_error ws i0) as [[| | | |]|]; try discriminate;
      crunch H; injection H as <-; simpl; exact HI.
  - injection H as <-. exact HI.
Qed.

Lemma errorVoidsResult_exec (run : Run) (schedule : list Label) (s s' : State) :
  errorVoidsResult s -> exec run schedule s = Some s' -> errorVoidsResult s'.
Proof.
  revert s. induction schedule as [|l rest IH]; intros s HI H; simpl in H.
  - injection H as <-. exact HI.
  - destruct (step run l s) as [s1|] eqn:E; [|discriminate].
    apply (IH s1); [|exact H]. now apply (errorVoidsResult_step run l s).
Qed.

(** Whenever the dispatcher returns an error, the [Result] beside it is the
    zero value. *)
Lemma returned_error_voids_result (run : Run) (schedule : list Label) (s : State)
      (res : Result) (e : error) :
  exec run schedule (initial run) = Some s ->
  main s = MReturned res (Some e) -> res = zeroResult.
Proof.
  intros H E.
  assert (HI : errorVoidsResult s)
    by (apply (errorVoidsResult_exec run schedule (initial run)); [exact I | exact H]).
  unfold errorVoidsResult in HI. rewrite E in HI. exact HI.
Qed.

(** C5, what the code does at the failing input.  With two workers and five
    repositories, processing the first fails while the producer waits to send
    the fifth.  The caller receives the wrapped error and closes [doneC]; the
    other worker frees a slot; the producer completes its last send, leaves
    the loop and closes [doneC] a second time.  The process panics with the
    caller still inside [wg.Wait()]: nothing is returned. *)
Theorem dispatcher_double_close :
  process failingRun badRepo = Some (ErrForeign "processor failed") /\
  isNoDefaultBranch (ErrForeign "processor failed") = false /\
  exists s,
    exec failingRun failingSchedule (initial failingRun) = Some s /\
    panicked s = true /\
    producer s = PCloseDone /\
    main s = MErrWait (processingError badRepo (ErrForeign "processor failed")) /\
    forall l, step failingRun l s = None.
Proof.
  split; [vm_compute; reflexivity|]. split; [reflexivity|].
  eexists. split; [vm_compute; reflexivity|].
  repeat split.
Qed.

(** ** The acquisition of a clone *)

Lemma cloneRepositoryOrGetFromCache_stat (w : World) (repo : Repository)
      (opts : Options) (t : list Event) :
  cloneRepositoryOrGetFromCache w repo opts t
  = bind (match onStat w (historyAtStat repo opts t) (cloneDirAt w repo opts t) with
          | StatDir => ret None
          | StatFile =>
              ret (Some (ErrorF "unexpected file in cloning directory: %s"
                                [cloneDirAt w repo opts t]))
          | StatNotExist => cloneOnMiss w repo (cloneDirAt w repo opts t) opts
          | StatError e => ret (Some (ErrWrapf "checking clone directory: %w" [] e))
          end)
         (fun prepared =>
            match prepared with
            | Some e => ret (inr e)
            | None =>
                if GoStrings.isEmpty (explicitCacheKey opts repo)
                then ret (inl (cloneDirAt w repo opts t))
                else copyFromCache w (cloneDirAt w repo opts t)
            end)
         (historyAtStat repo opts t ++ [EvStat (cloneDirAt w repo opts t)]).
Proof.
  unfold cloneRepositoryOrGetFromCache, cloneDirAt, cacheKeyAt, historyAtStat.
  destruct (GoStrings.isEmpty (explicitCacheKey opts repo)); reflexivity.
Qed.

Lemma cloneOnMiss_failed (w : World) (repo : Repository) (dir : string)
      (opts : Options) (t tc : list Event) (e : error) :
  onMkdirAll w t dir = None ->
  cloneRepository w repo dir opts (t ++ [EvMkdirAll dir]) = (Some e, tc) ->
  cloneOnMiss w repo dir opts t
  = (Some e,
     tc ++ EvRemoveAll dir
        :: removalWarning "Failed to remove the clone directory" (onRemoveAll w tc dir)).
Proof.
  intros Hm Hc. unfold cloneOnMiss, bind, osMkdirAll. rewrite Hm, Hc.
  unfold osRemoveAll, logRecord, ret, removalWarning.
  destruct (onRemoveAll w tc dir) as [re|]; simpl.
  - rewrite <- app_assoc. reflexivity.
  - reflexivity.
Qed.

(** The clone into a directory that was missing fails: the directory is
    removed and the clone's error comes back. *)
Lemma acquisition_clone_failed (w : World) (repo : Repository) (opts : Options)
      (t tc : list Event) (e : error) :
  onStat w (historyAtStat repo opts t) (cloneDirAt w repo opts t) = StatNotExist ->
  onMkdirAll w (historyAtStat repo opts t ++ [EvStat (cloneDirAt w repo opts t)])
             (cloneDirAt w repo opts t) = None ->
  cloneRepository w repo (cloneDirAt w repo opts t) opts (historyAtClone w repo opts t)
  = (Some e, tc) ->
  cloneRepositoryOrGetFromCache w repo opts t
  = (inr e,
     tc ++ EvRemoveAll (cloneDirAt w repo opts t)
        :: removalWarning "Failed to remove the clone directory"
                          (onRemoveAll w tc (cloneDirAt w repo opts t))).
Proof.
  intros Hst Hm Hc. rewrite cloneRepositoryOrGetFromCache_stat, Hst.
  unfold historyAtClone in Hc.
  change [EvStat (cloneDirAt w repo opts t); EvMkdirAll (cloneDirAt w repo opts t)]
    with ([EvStat (cloneDirAt w repo opts t)] ++ [EvMkdirAll (cloneDirAt w repo opts t)])
    in Hc.
  rewrite app_assoc in Hc.
  unfold bind at 1. rewrite (cloneOnMiss_failed w repo _ opts _ tc e Hm Hc).
  reflexivity.
Qed.

Lemma processRepository_clone_failed (w : World) (repo : Repository) (opts : Options)
      (t tc : list Event) (e : error) :
  Size repo <> 0 ->
  onStat w (historyAtStat repo opts t) (cloneDirAt w repo opts t) = StatNotExist ->
  onMkdirAll w (historyAtStat repo opts t ++ [EvStat (cloneDirAt w repo opts t)])
             (cloneDirAt w repo opts t) = None ->
  cloneRepository w repo (cloneDirAt w repo opts t) opts (historyAtClone w repo opts t)
  = (Some e, tc) ->
  processRepository w repo opts t
  = (Some e,
     tc ++ EvRemoveAll (cloneDirAt w repo opts t)
        :: removalWarning "Failed to remove the clone directory"
                          (onRemoveAll w tc (cloneDirAt w repo opts t))).
Proof.
  intros Hs Hst Hm Hc. unfold processRepository.
  apply Z.eqb_neq in Hs. rewrite Hs. unfold bind at 1.
  rewrite (acquisition_clone_failed w repo opts t tc e Hst Hm Hc). reflexivity.
Qed.







(** ** Repositories without a default branch *)




(** The run of the example goes on after the warning and ends well. *)
Lemma branchless_run_completes :
  exists s,
    exec branchlessRun branchlessSchedule (initial branchlessRun) = Some s /\
    main s = MReturned (mkResult 2 2 2) None /\
    logs s = [noDefaultBranchWarning branchlessRepo] /\
    panicked s = false.
Proof. eexists. split; [vm_compute; reflexivity|]. repeat split. Qed.

(** ** Clean completion *)

Lemma completionInv_step (run : Run) (l : Label) (s s' : State) :
  countersInv run s -> completionInv run s -> step run l s = Some s' ->
  completionInv run s'.
Proof.
  intros HC HI H.
  destruct s as [rc rcl ec ecl dc cx f i p pr ws m lg pn].
  unfold step in H. simpl in H. destruct pn; [discriminate|].
  unfold completionInv, countersInv, counted, currentResult in *. simpl in *.
  destruct HI as [HK HL].
  destruct l; simpl in H.
  - unfold stepMain in H; simpl in H.
    destruct m; crunch H; injection H as <-; simpl; try tauto;
      try (split; [intros; tauto | exact I]).
    + (* the goroutines start: nobody has closed [doneC] *)
      split; [|exact I]. intros Hd.
      destruct HC as [(_ & _ & _ & _ & ->) _].
      destruct (HK Hd) as [Hu|[]]. discriminate Hu.
    + (* the counters are read *)
      split; [tauto|].
      destruct HC as [(Hf & examined & rest & Hr & Hflat & Hi & Hp) _].
      rewrite HL in Hr. injection Hr as <-. rewrite app_nil_r in Hflat.
      unfold currentResult, finalResult. simpl.
      unfold pagesLength in *. rewrite Hflat in *. congruence.
    + destruct err; tauto.
  - unfold stepSelect in H; simpl in H.
    destruct m; crunch H; injection H as <-; simpl; tauto.
  - unfold stepSelect in H; simpl in H.
    destruct m; crunch H; injection H as <-; simpl; tauto.
  - unfold stepSelect in H; simpl in H.
    destruct m; crunch H; injection H as <-; simpl; try tauto.
    split; [tauto|]. destruct (HK eq_refl) as [Hu|[]]. exact Hu.
  - unfold stepProducer in H; simpl in H.
    destruct pr as [|rest|repo rest|repo rest| |rest|rest];
      crunch H; injection H as <-; simpl; simpl in HK, HL;
      (split;
       [ intros Hd;
         first [ left; reflexivity
               | destruct (HK Hd) as [Hu|Hm];
                 [ first [discriminate Hu | left; exact Hu] | right; exact Hm ] ]
       | destruct m; first [exact I | reflexivity | exact HL | discriminate HL] ]).
  - unfold stepWorker in H; simpl in H.
    destruct (nth_error ws i0) as [[| | | |]|]; try discriminate;
      crunch H; injection H as <-; simpl; tauto.
  - injection H as <-. simpl. tauto.
Qed.

Lemma completionInv_exec (run : Run) (schedule : list Label) (s s' : State) :
  countersInv run s -> completionInv run s -> exec run schedule s = Some s' ->
  completionInv run s'.
Proof.
  revert s. induction schedule as [|l rest IH]; intros s HC HI H; simpl in H.
  - injection H as <-. exact HI.
  - destruct (step run l s) as [s1|] eqn:E; [|discriminate].
    apply (IH s1); [| |exact H].
    + now apply (countersInv_step run l s).
    + now apply (completionInv_step run l s).
Qed.

(** A run that returns no error has examined every record: [Found] and
    [Inspected] are the number of records of all pages, [Processed] the
    number of those the filter accepts. *)
Lemma clean_completion_counts (run : Run) (schedule : list Label) (s : State)
      (res : Result) :
  exec run schedule (initial run) = Some s ->
  main s = MReturned res None -> res = finalResult run.
Proof.
  intros H E.
  assert (HI : completionInv run s).
  { apply (completionInv_exec run schedule (initial run)); [| |exact H].
    - apply countersInv_initial.
    - split; [discriminate | exact I]. }
  destruct HI as [_ HL]. rewrite E in HL. exact HL.
Qed.

(** ** Where a returned error comes from *)

Lemma Forall_setNth {A : Type} (P : A -> Prop) (i : nat) (x : A) (l : list A) :
  P x -> Forall P l -> Forall P (setNth i x l).
Proof.
  intros Hx Hl. revert i. induction Hl as [|y l Hy Hl IH]; intros i.
  - destruct i; constructor.
  - destruct i; simpl; constructor; auto.
Qed.

Lemma Forall_nth_error {A : Type} (P : A -> Prop) (l : list A) (i : nat) (x : A) :
  Forall P l -> nth_error l i = Some x -> P x.
Proof.
  intros Hl H. rewrite Forall_forall in Hl. apply Hl.
  now apply nth_error_In with i.
Qed.

Lemma Forall_repeat {A : Type} (P : A -> Prop) (x : A) (n : nat) :
  P x -> Forall P (repeat x n).
Proof. intros Hx. induction n; simpl; constructor; auto. Qed.

Lemma errorsInv_step (run : Run) (l : Label) (s s' : State) :
  errorsInv run s -> step run l s = Some s' -> errorsInv run s'.
Proof.
  intros HI H.
  destruct s as [rc rcl ec ecl dc cx f i p pr ws m lg pn].
  unfold step in H. simpl in H. destruct pn; [discriminate|].
  unfold errorsInv in *. simpl in *. destruct HI as (HE & HW & HM).
  destruct l; simpl in H.
  - unfold stepMain in H; simpl in H.
    destruct m; crunch H; injection H as <-; simpl;
      try match goal with
          | HE' : Forall _ (_ :: _) |- _ => inversion HE'; subst
          end; try tauto.
    repeat split; try tauto. apply Forall_repeat. exact I.
  - unfold stepSelect in H; simpl in H.
    destruct m; crunch H; injection H as <-; simpl;
      try match goal with
          | HE' : Forall _ (_ :: _) |- _ => inversion HE'; subst
          end; tauto.
  - unfold stepSelect in H; simpl in H.
    destruct m; crunch H; injection H as <-; simpl; tauto.
  - unfold stepSelect in H; simpl in H.
    destruct m; crunch H; injection H as <-; simpl; tauto.
  - unfold stepProducer in H; simpl in H.
    destruct pr; crunch H; injection H as <-; simpl; tauto.
  - unfold stepWorker in H; simpl in H.
    destruct (nth_error ws i0) as [[|repo|repo|x|]|] eqn:En; try discriminate.
    + crunch H; injection H as <-; simpl;
        (split; [exact HE | split; [apply Forall_setNth; [exact I | exact HW] | exact HM]]).
    + crunch H; injection H as <-; simpl;
        (split; [exact HE | split; [apply Forall_setNth; [exact I | exact HW] | exact HM]]).
    + unfold afterProcess in H.
      destruct (process run repo) as [e|] eqn:Ep;
        [destruct (isNoDefaultBranch e) eqn:Eb|];
        injection H as <-; simpl;
        (split; [exact HE | split; [apply Forall_setNth; [|exact HW] | exact HM]]);
        try exact I.
      exists repo, e. repeat split; assumption.
    + pose proof (Forall_nth_error _ _ _ _ HW En) as Hx. simpl in Hx.
      crunch H; injection H as <-; simpl; try tauto.
      split; [|split; [apply Forall_setNth; [exact I | exact HW] | exact HM]].
      apply Forall_app. split; [exact HE | constructor; [exact Hx | constructor]].
  - injection H as <-. simpl. tauto.
Qed.

Lemma errorsInv_exec (run : Run) (schedule : list Label) (s s' : State) :
  errorsInv run s -> exec run schedule s = Some s' -> errorsInv run s'.
Proof.
  revert s. induction schedule as [|l rest IH]; intros s HI H; simpl in H.
  - injection H as <-. exact HI.
  - destruct (step run l s) as [s1|] eqn:E; [|discriminate].
    apply (IH s1); [|exact H]. now apply (errorsInv_step run l s).
Qed.

(** When the dispatcher does return an error, the [Result] beside it is the
    zero value, and the error is the context's or the error of some record,
    other than the missing default branch, wrapped with that record's name. *)
Lemma returned_error_origin (run : Run) (schedule : list Label) (s : State)
      (res : Result) (x : error) :
  exec run schedule (initial run) = Some s ->
  main s = MReturned res (Some x) ->
  res = zeroResult /\ (forwarded run x \/ x = ctxErr).
Proof.
  intros H E. split.
  - exact (returned_error_voids_result run schedule s res x H E).
  - assert (HI : errorsInv run s).
    { apply (errorsInv_exec run schedule (initial run)); [|exact H].
      repeat split; constructor. }
    destruct HI as (_ & _ & HM). rewrite E in HM. exact HM.
Qed.

(** ** A failure is never masked *)

Lemma waitDone_nth (l : list WorkerState) (i : nat) (x : WorkerState) :
  forallb isDone l = true -> nth_error l i = Some x -> x = WDone.
Proof.
  intros Hl H. rewrite forallb_forall in Hl.
  apply nth_error_In in H. apply Hl in H. destruct x; try discriminate. reflexivity.
Qed.

Lemma waitDone_no_sender (l : list WorkerState) :
  forallb isDone l = true -> existsb isSendErr l = false.
Proof.
  induction l as [|x l IH]; simpl; [reflexivity|].
  intros H. apply andb_true_iff in H. destruct H as [Hx Hl].
  destruct x; try discriminate. simpl. auto.
Qed.

Lemma sender_setNth (l : list WorkerState) (i : nat) (x y : WorkerState) :
  nth_error l i = Some x -> isSendErr x = false ->
  existsb isSendErr l = true -> existsb isSendErr (setNth i y l) = true.
Proof.
  revert i. induction l as [|z l IH]; intros i Hn Hx H; [discriminate|].
  destruct i; simpl in *.
  - injection Hn as ->. rewrite Hx in H. simpl in H. rewrite H. apply orb_true_r.
  - apply orb_true_iff in H. apply orb_true_iff. destruct H as [H|H]; [now left|].
    right. now apply (IH i).
Qed.

Lemma sender_nth (l : list WorkerState) (i : nat) (x : error) :
  nth_error l i = Some (WSendErr x) -> existsb isSendErr l = true.
Proof.
  intros H. apply existsb_exists. exists (WSendErr x).
  split; [now apply nth_error_In with i | reflexivity].
Qed.

Lemma waitedInv_step (run : Run) (l : Label) (s s' : State) :
  waitedInv s -> step run l s = Some s' -> waitedInv s'.
Proof.
  intros HI H.
  destruct s as [rc rcl ec ecl dc cx f i p pr ws m lg pn].
  unfold step in H. simpl in H. destruct pn; [discriminate|].
  unfold waitedInv, waitDone in *. simpl in *.
  destruct l; simpl in H.
  - unfold stepMain, waitDone in H; simpl in H.
    destruct m; crunch H; injection H as <-; simpl; tauto.
  - unfold stepSelect in H; simpl in H.
    destruct m; crunch H; injection H as <-; simpl; tauto.
  - unfold stepSelect in H; simpl in H.
    destruct m; crunch H; injection H as <-; simpl; tauto.
  - unfold stepSelect in H; simpl in H.
    destruct m; crunch H; injection H as <-; simpl; tauto.
  - unfold stepProducer in H; simpl in H.
    destruct pr; crunch H; injection H as <-; simpl; exact HI.
  - unfold stepWorker in H; simpl in H.
    destruct (nth_error ws i0) as [x|] eqn:En; [|discriminate].
    assert (Hnot : match m with
                   | MSum _ => False
                   | MDoneSelect | MDoneCloseErr _ None | MReturned _ None => x = WDone
                   | _ => True
                   end).
    { destruct m as [rest| | | | | | | | | | |res [e|]|res [e|]]; try exact I;
        try (now apply (waitDone_nth ws i0)).
      subst ws. destruct i0; discriminate En. }
    destruct m as [rest| | | | | | | | | | |res [e|]|res [e|]];
      try (subst x; discriminate H); try (exfalso; exact Hnot);
      destruct x; crunch H; try discriminate H; injection H as <-; simpl; exact I.
  - injection H as <-. exact HI.
Qed.

Lemma failureInv_step (run : Run) (l : Label) (s s' : State) :
  failureInv s -> step run l s = Some s' -> failureInv s'.
Proof.
  intros HI H.
  destruct s as [rc rcl ec ecl dc cx f i p pr ws m lg pn].
  unfold step in H. simpl in H. destruct pn; [discriminate|].
  unfold failureInv, failurePending in *. simpl in *.
  destruct l; simpl in H.
  - unfold stepMain, waitDone in H; simpl in H.
    destruct m; crunch H; injection H as <-; simpl;
      try (left; exact I);
      try (destruct HI as [[]|[[_ [Hm|Hm]]|[_ Hm]]]; discriminate Hm).
    + (* past [wg.Wait()] on the clean path: the error is in [errC] *)
      right. right. split; [|reflexivity].
      destruct HI as [[]|[[Hp _]|[_ Hm]]]; [|discriminate Hm].
      destruct Hp as [Hp|Hp]; [|exact Hp].
      match goal with
      | Hw : forallb isDone ws = true |- _ =>
          rewrite (waitDone_no_sender ws Hw) in Hp
      end. discriminate Hp.
    + destruct HI as [[]|[[_ [Hm|Hm]]|[Hne _]]]; try discriminate Hm.
      exfalso. apply Hne. reflexivity.
    + destruct err; [left; exact I|].
      destruct HI as [[]|[[_ [Hm|Hm]]|[_ Hm]]]; discriminate Hm.
    + destruct err; [left; exact I|].
      destruct HI as [[]|[[_ [Hm|Hm]]|[_ Hm]]]; discriminate Hm.
  - unfold stepSelect in H; simpl in H.
    destruct m; crunch H; injection H as <-; simpl; left; exact I.
  - unfold stepSelect in H; simpl in H.
    destruct m; crunch H; injection H as <-; simpl; left; exact I.
  - unfold stepSelect in H; simpl in H.
    destruct m; crunch H; injection H as <-; simpl.
    destruct HI as [[]|[[Hp _]|[_ Hm]]]; [|discriminate Hm].
    right. left. split; [exact Hp | right; reflexivity].
  - unfold stepProducer in H; simpl in H.
    destruct pr; crunch H; injection H as <-; simpl; exact HI.
  - unfold stepWorker in H; simpl in H.
    destruct (nth_error ws i0) as [x|] eqn:En; [|discriminate].
    destruct HI as [Hb|[[Hp Hm]|[Hne Hm]]].
    + destruct x; crunch H; try discriminate H; injection H as <-; simpl;
        left; exact Hb.
    + right. left.
      destruct x; crunch H; try discriminate H; injection H as <-; simpl;
        (split; [|exact Hm]);
        first
          [ exact Hp
          | right; intros Habs; apply app_eq_nil in Habs;
            destruct Habs as [_ Habs]; discriminate Habs
          | destruct Hp as [Hp|Hp];
            [ left; apply (sender_setNth ws i0 _ _ En); [reflexivity | exact Hp]
            | right; exact Hp ] ].
    + right. right.
      destruct x; crunch H; try discriminate H; injection H as <-; simpl;
        (split; [|exact Hm]);
        first
          [ exact Hne
          | intros Habs; apply app_eq_nil in Habs;
            destruct Habs as [_ Habs]; discriminate Habs ].
  - injection H as <-. exact HI.
Qed.

Lemma failureInv_exec (run : Run) (schedule : list Label) (s s' : State) :
  failureInv s -> exec run schedule s = Some s' -> failureInv s'.
Proof.
  revert s. induction schedule as [|l rest IH]; intros s HI H; simpl in H.
  - injection H as <-. exact HI.
  - destruct (step run l s) as [s1|] eqn:E; [|discriminate].
    apply (IH s1); [|exact H]. now apply (failureInv_step run l s).
Qed.

Lemma waitedInv_exec (run : Run) (schedule : list Label) (s s' : State) :
  waitedInv s -> exec run schedule s = Some s' -> waitedInv s'.
Proof.
  revert s. induction schedule as [|l rest IH]; intros s HI H; simpl in H.
  - injection H as <-. exact HI.
  - destruct (step run l s) as [s1|] eqn:E; [|discriminate].
    apply (IH s1); [|exact H]. now apply (waitedInv_step run l s).
Qed.

Lemma exec_app (run : Run) (a b : list Label) (s s1 s2 : State) :
  exec run a s = Some s1 -> exec run b s1 = Some s2 -> exec run (a ++ b) s = Some s2.
Proof.
  revert s. induction a as [|l a IH]; intros s Ha Hb; simpl in *.
  - injection Ha as <-. exact Hb.
  - destruct (step run l s) as [s'|]; [|discriminate]. now apply IH.
Qed.

(** Once the processing of a record has failed with an error other than the
    missing default branch, the dispatcher cannot return a nil error any
    more: if it returns, it returns the zero [Result] and either an error
    forwarded by a worker, wrapped with its repository's name, or the
    context's error. *)
Lemma failure_never_masked (run : Run) (schedule schedule' : list Label)
      (s s' : State) (i : nat) (x : error) (res : Result) (err : option error) :
  exec run schedule (initial run) = Some s ->
  nth_error (workers s) i = Some (WSendErr x) ->
  exec run schedule' s = Some s' ->
  main s' = MReturned res err ->
  res = zeroResult /\
  exists e, err = Some e /\ (forwarded run e \/ e = ctxErr).
Proof.
  intros H Hx H' E.
  assert (HW : waitedInv s)
    by (apply (waitedInv_exec run schedule (initial run)); [reflexivity | exact H]).
  assert (HF : failureInv s).
  { unfold failureInv, failurePending. unfold waitedInv, waitDone in HW.
    pose proof (sender_nth _ _ _ Hx) as Hs.
    destruct (main s) as [rest| | | | | | | | | | |r [e|]|r [e|]] eqn:Em;
      try (left; exact I);
      try (right; left; split; [left; exact Hs | tauto]);
      try (rewrite (waitDone_no_sender _ HW) in Hs; discriminate Hs).
    rewrite HW in Hx. destruct i; discriminate Hx. }
  pose proof (failureInv_exec run schedule' s s' HF H') as HF'.
  unfold failureInv in HF'. rewrite E in HF'.
  destruct HF' as [Hb|[[_ [Hm|Hm]]|[_ Hm]]]; try discriminate Hm.
  destruct err as [e|]; [|destruct Hb].
  pose proof (exec_app run schedule schedule' _ _ _ H H') as Hall.
  destruct (returned_error_origin run _ s' res e Hall E) as [Hz Ho].
  split; [exact Hz|]. exists e. split; [reflexivity | exact Ho].
Qed.

(** ** Channels are closed once, except [doneC] *)

Lemma forallb_isDone_repeat (n : nat) :
  n <> O -> forallb isDone (repeat WRecv n) = false.
Proof. destruct n; [congruence | reflexivity]. Qed.

Ltac channels_goal HR HE HW HN Hx :=
  split;
  [ intros Hc;
    first [ discriminate Hc | (destruct HN; congruence) | solve [eauto]
          | (destruct (HR Hc) as [? Hr]; discriminate Hr) ]
  | split;
    [ intros Hc;
      first [ discriminate Hc | solve [eauto]
            | (destruct (HE Hc) as (? & ? & Hm); discriminate Hm) ]
    | split;
      [ intros Hm;
        first [ assumption | exact (HW Hm) | exact (HW I) | destruct Hm
              | (specialize (Hx Hm); discriminate Hx) ]
      | split;
        [ intros Hp;
          first [ discriminate Hp
                | (split; [reflexivity | solve [intuition eauto]]) ]
        | first [exact I | exact HN | assumption] ] ] ] ].

Lemma channelsInv_step (run : Run) (l : Label) (s s' : State) :
  channelsInv s -> step run l s = Some s' -> channelsInv s'.
Proof.
  intros HI H.
  destruct s as [rc rcl ec ecl dc cx f i p pr ws m lg pn].
  unfold step in H. simpl in H. destruct pn; [discriminate|].
  unfold channelsInv, closingDone, waitDone in *. simpl in *.
  destruct HI as (HR & HE & HW & _ & HN).
  assert (Hx0 : True -> True) by auto.
  destruct l; simpl in H.
  - (* the calling goroutine *)
    unfold stepMain, waitDone in H; simpl in H.
    destruct m; crunch H; injection H as <-; simpl;
      try (destruct (HE eq_refl) as (res' & err' & Hm); discriminate Hm);
      channels_goal HR HE HW HN Hx0.
  - unfold stepSelect in H; simpl in H.
    destruct m; crunch H; injection H as <-; simpl;
      channels_goal HR HE HW HN Hx0.
  - unfold stepSelect in H; simpl in H.
    destruct m; crunch H; injection H as <-; simpl;
      channels_goal HR HE HW HN Hx0.
  - unfold stepSelect in H; simpl in H.
    destruct m; crunch H; injection H as <-; simpl;
      channels_goal HR HE HW HN Hx0.
  - (* the producer *)
    unfold stepProducer in H; simpl in H.
    destruct pr; crunch H; injection H as <-; simpl;
      try (destruct (HR eq_refl) as (rest' & Hp); discriminate Hp);
      (destruct m;
       try match type of HN with
           | _ /\ _ => destruct HN as [_ HP]; discriminate HP
           end;
       channels_goal HR HE HW HN Hx0).
  - (* a worker *)
    unfold stepWorker in H; simpl in H.
    destruct (nth_error ws i0) as [x|] eqn:En; [|discriminate].
    assert (Hx : pastWait m -> x = WDone)
      by (intros Hm; exact (waitDone_nth ws i0 x (HW Hm) En)).
    destruct x; crunch H; try discriminate H; injection H as <-; simpl;
      try (destruct (HE eq_refl) as (res' & err' & Hm);
           assert (Hd : pastWait m) by (rewrite Hm; exact I);
           specialize (Hx Hd); discriminate Hx);
      channels_goal HR HE HW HN Hx.
  - injection H as <-. simpl. channels_goal HR HE HW HN Hx0.
Qed.

Lemma invariant_exec (run : Run) (P : State -> Prop) :
  (forall l s s', P s -> step run l s = Some s' -> P s') ->
  forall schedule s s', P s -> exec run schedule s = Some s' -> P s'.
Proof.
  intros Hstep schedule. induction schedule as [|l rest IH]; intros s s' HP H;
    simpl in H.
  - injection H as <-. exact HP.
  - destruct (step run l s) as [s1|] eqn:E; [|discriminate].
    apply (IH s1); [|exact H]. now apply (Hstep l s).
Qed.

Lemma channelsInv_reachable (run : Run) (schedule : list Label) (s : State) :
  exec run schedule (initial run) = Some s -> channelsInv s.
Proof.
  apply (invariant_exec run channelsInv (channelsInv_step run)).
  unfold channelsInv, initial. simpl.
  repeat split; try discriminate; intros [].
Qed.

(** ** Forwarding an error never blocks *)

Lemma length_setNth {A : Type} (i : nat) (x : A) (l : list A) :
  List.length (setNth i x l) = List.length l.
Proof.
  revert i. induction l as [|y l IH]; intros i; destruct i; simpl; auto.
Qed.

Lemma notDone_setNth (l : list WorkerState) (i : nat) (x y : WorkerState) :
  nth_error l i = Some x ->
  (notDone (setNth i y l) + (if isDone x then 0 else 1)
   = notDone l + (if isDone y then 0 else 1))%nat.
Proof.
  revert i. induction l as [|z l IH]; intros i H; [destruct i; discriminate|].
  destruct i; simpl in *.
  - injection H as ->. lia.
  - specialize (IH i H). lia.
Qed.

Lemma notDone_repeat (n : nat) : notDone (repeat WRecv n) = n.
Proof. induction n; simpl; [reflexivity | now rewrite IHn]. Qed.

Lemma notDone_nth (l : list WorkerState) (i : nat) (x : WorkerState) :
  nth_error l i = Some x -> isDone x = false -> (1 <= notDone l)%nat.
Proof.
  revert i. induction l as [|z l IH]; intros i H Hx; [destruct i; discriminate|].
  destruct i; simpl in *.
  - injection H as ->. rewrite Hx. lia.
  - specialize (IH i H Hx). lia.
Qed.

Lemma capacityInv_step (run : Run) (l : Label) (s s' : State) :
  capacityInv run s -> step run l s = Some s' -> capacityInv run s'.
Proof.
  intros HI H.
  destruct s as [rc rcl ec ecl dc cx f i p pr ws m lg pn].
  unfold step in H. simpl in H. destruct pn; [discriminate|].
  unfold capacityInv in *. simpl in *. destruct HI as [HL HN].
  destruct l; simpl in H.
  - unfold stepMain, waitDone in H; simpl in H.
    destruct m; crunch H; injection H as <-; simpl in *;
      try (split; [lia | assumption]).
    subst ws. simpl in HL. rewrite repeat_length, notDone_repeat. split; lia.
  - unfold stepSelect in H; simpl in H.
    destruct m; crunch H; injection H as <-; simpl in *; split; (lia || assumption).
  - unfold stepSelect in H; simpl in H.
    destruct m; crunch H; injection H as <-; simpl in *; split; (lia || assumption).
  - unfold stepSelect in H; simpl in H.
    destruct m; crunch H; injection H as <-; simpl in *; split; (lia || assumption).
  - unfold stepProducer in H; simpl in H.
    destruct pr; crunch H; injection H as <-; simpl;
      (split; [exact HL | destruct m; exact HN]).
  - unfold stepWorker in H; simpl in H.
    destruct (nth_error ws i0) as [x|] eqn:En; [|discriminate].
    assert (Hlen : forall y, List.length (setNth i0 y ws) = List.length ws)
      by (intros y; apply length_setNth).
    assert (Hm : forall y,
               match m with
               | MSum _ => setNth i0 y ws = []
               | _ => List.length (setNth i0 y ws) = Z.to_nat (nOfWorkers run)
               end).
    { intros y. destruct m; rewrite ?Hlen; try exact HN.
      subst ws. destruct i0; discriminate En. }
    destruct x; crunch H; try discriminate H; injection H as <-; simpl;
      (split; [|first [apply Hm | exact HN]]);
      first
        [ exact HL
        | match goal with
          | |- context [setNth i0 ?y ws] =>
              pose proof (notDone_setNth ws i0 _ y En) as Hnd; simpl in Hnd;
              rewrite ?length_app, Hlen; simpl;
              try (destruct (isDone y)); lia
          end ].
  - injection H as <-. exact (conj HL HN).
Qed.

Lemma capacityInv_reachable (run : Run) (schedule : list Label) (s : State) :
  exec run schedule (initial run) = Some s -> capacityInv run s.
Proof.
  apply (invariant_exec run (capacityInv run) (capacityInv_step run)).
  unfold capacityInv, initial. simpl. split; [lia | reflexivity].
Qed.

(** ** Only accepted records reach a worker *)

Lemma acceptedInv_step (run : Run) (l : Label) (s s' : State) :
  acceptedInv run s -> step run l s = Some s' -> acceptedInv run s'.
Proof.
  intros HI H.
  destruct s as [rc rcl ec ecl dc cx f i p pr ws m lg pn].
  unfold step in H. simpl in H. destruct pn; [discriminate|].
  unfold acceptedInv, tailOfPages in *. simpl in *.
  destruct HI as (HQ & HW & HP & HT).
  destruct l; simpl in H.
  - unfold stepMain in H; simpl in H.
    destruct m; crunch H; injection H as <-; simpl; try tauto.
    split; [exact HQ|]. split; [apply Forall_repeat; exact I|].
    split; [exact I|]. exists []. reflexivity.
  - unfold stepSelect in H; simpl in H.
    destruct m; crunch H; injection H as <-; simpl; tauto.
  - unfold stepSelect in H; simpl in H.
    destruct m; crunch H; injection H as <-; simpl; tauto.
  - unfold stepSelect in H; simpl in H.
    destruct m; crunch H; injection H as <-; simpl; tauto.
  - unfold stepProducer in H; simpl in H.
    destruct pr as [|rest|repo rest|repo rest| |rest|rest]; try discriminate.
    + destruct rest as [|repo rest].
      * injection H as <-. simpl. tauto.
      * simpl in HT. destruct HT as [pre Hpre].
        assert (Hin : In repo (List.concat (repoPages run)))
          by (rewrite Hpre; apply in_or_app; right; left; reflexivity).
        assert (Htail : exists pre', List.concat (repoPages run) = pre' ++ rest)
          by (exists (pre ++ [repo]); rewrite <- app_assoc; exact Hpre).
        destruct (filterIn run repo) eqn:Ef; injection H as <-; simpl;
          unfold accepted; tauto.
    + crunch H; injection H as <-; simpl; tauto.
    + crunch H; injection H as <-; simpl; try tauto.
      split; [|tauto].
      apply Forall_app. split; [exact HQ | constructor; [exact HP | constructor]].
    + crunch H; injection H as <-; simpl; tauto.
    + crunch H; injection H as <-; simpl; tauto.
  - unfold stepWorker in H; simpl in H.
    destruct (nth_error ws i0) as [x|] eqn:En; [|discriminate].
    pose proof (Forall_nth_error _ _ _ _ HW En) as Hx. simpl in Hx.
    destruct x as [|repo|repo|e|].
    + destruct rc as [|repo q].
      * destruct rcl; [|discriminate]. injection H as <-. simpl.
        split; [exact HQ|]. split; [|tauto].
        apply Forall_setNth; [exact I | exact HW].
      * injection H as <-. simpl. inversion HQ; subst.
        split; [assumption|]. split; [|tauto].
        apply Forall_setNth; assumption.
    + destruct cx; injection H as <-; simpl;
        (split; [exact HQ|]); (split; [|tauto]);
        (apply Forall_setNth; [first [exact I | exact Hx] | exact HW]).
    + unfold afterProcess in H.
      destruct (process run repo) as [err|]; [destruct (isNoDefaultBranch err)|];
        injection H as <-; simpl;
        (split; [exact HQ|]); (split; [|tauto]);
        (apply Forall_setNth; [exact I | exact HW]).
    + destruct ecl; [injection H as <-; simpl; tauto|].
      destruct (hasRoom ec (nOfWorkers run)); [|discriminate].
      injection H as <-. simpl.
      split; [exact HQ|]. split; [|tauto].
      apply Forall_setNth; [exact I | exact HW].
    + discriminate.
  - injection H as <-. simpl. tauto.
Qed.

Lemma nth_error_setNth {A : Type} (l : list A) (i j : nat) (x y : A) :
  nth_error (setNth j y l) i = Some x ->
  (i = j /\ x = y) \/ nth_error l i = Some x.
Proof.
  revert i j. induction l as [|z l IH]; intros i j H.
  - destruct j; destruct i; discriminate H.
  - destruct j; destruct i; simpl in *.
    + injection H as <-. left. split; reflexivity.
    + right. exact H.
    + right. exact H.
    + destruct (IH i j H) as [[-> ->]|Hn]; [left; split; reflexivity | right; exact Hn].
Qed.

Lemma nth_error_repeat_eq {A : Type} (x y : A) (n i : nat) :
  nth_error (repeat x n) i = Some y -> y = x.
Proof.
  intros H. apply nth_error_In in H. now apply repeat_spec in H.
Qed.

Lemma noNewProcessing_step (run : Run) (s0 : State) (l : Label) (s s' : State) :
  noNewProcessing s0 s -> step run l s = Some s' -> noNewProcessing s0 s'.
Proof.
  intros HI H.
  destruct s as [rc rcl ec ecl dc cx f i p pr ws m lg pn].
  unfold step in H. simpl in H. destruct pn; [discriminate|].
  unfold noNewProcessing in *. simpl in *. destruct HI as [HC HW].
  destruct l; simpl in H.
  - unfold stepMain in H; simpl in H.
    destruct m; crunch H; injection H as <-; simpl; try (split; assumption).
    split; [exact HC|]. intros j repo Hj.
    apply nth_error_repeat_eq in Hj. discriminate Hj.
  - unfold stepSelect in H; simpl in H.
    destruct m; crunch H; injection H as <-; simpl; split; assumption.
  - unfold stepSelect in H; simpl in H.
    destruct m; crunch H; injection H as <-; simpl; split; assumption.
  - unfold stepSelect in H; simpl in H.
    destruct m; crunch H; injection H as <-; simpl; split; assumption.
  - unfold stepProducer in H; simpl in H.
    destruct pr; crunch H; injection H as <-; simpl; split; assumption.
  - unfold stepWorker in H; simpl in H. subst cx.
    destruct (nth_error ws i0) as [x|] eqn:En; [|discriminate].
    destruct x; crunch H; try discriminate H; injection H as <-; simpl;
      (split; [reflexivity|]); try exact HW;
      intros j repo' Hj;
      (apply nth_error_setNth in Hj; destruct Hj as [[_ Hj]|Hj];
       [|exact (HW j repo' Hj)]);
      try discriminate Hj.
    unfold afterProcess in *.
    destruct (process run repo) as [e|]; [destruct (isNoDefaultBranch e)|];
      match goal with
      | Hp : (_, _) = (_, _) |- _ => injection Hp as <- _
      end; discriminate Hj.
  - injection H as <-. simpl. split; [reflexivity | exact HW].
Qed.

Lemma acceptedInv_reachable (run : Run) (schedule : list Label) (s : State) :
  exec run schedule (initial run) = Some s -> acceptedInv run s.
Proof.
  apply (invariant_exec run (acceptedInv run) (acceptedInv_step run)).
  unfold acceptedInv, initial. simpl. repeat split; constructor.
Qed.

Lemma errorsInv_reachable (run : Run) (schedule : list Label) (s : State) :
  exec run schedule (initial run) = Some s -> errorsInv run s.
Proof.
  intros H. apply (errorsInv_exec run schedule (initial run)); [|exact H].
  repeat split; constructor.
Qed.

(** * Further properties of the dispatcher *)

(** X1.  A run of [runForReposConcurrently] that returns a nil error has
    examined every record: [Found] and [Inspected] are the number of records
    of all pages and [Processed] is the number of those the filter accepts. *)
Theorem clean_return_counts_everything (run : Run) (schedule : list Label)
        (s : State) (res : Result) :
  exec run schedule (initial run) = Some s ->
  main s = MReturned res None ->
  Found res = pagesLength (repoPages run) /\
  Inspected res = pagesLength (repoPages run) /\
  Processed res
  = Z.of_nat (List.length (filter (filterIn run) (List.concat (repoPages run)))).
Proof.
  intros H E.
  rewrite (clean_completion_counts run schedule s res H E). repeat split.
Qed.

(** X1 at the scenario of three pages: six records, four accepted. *)
Lemma clean_return_counts_everything_witness :
  Found (mkResult 6 6 4) = pagesLength (repoPages scenarioRun) /\
  Inspected (mkResult 6 6 4) = pagesLength (repoPages scenarioRun) /\
  Processed (mkResult 6 6 4)
  = Z.of_nat (List.length (filter (filterIn scenarioRun)
                                  (List.concat (repoPages scenarioRun)))).
Proof.
  eapply (clean_return_counts_everything scenarioRun scenarioSchedule).
  - vm_compute. reflexivity.
  - reflexivity.
Defined.

(** X2.  When [runForReposConcurrently] returns an error, the [Result] beside
    it is the zero value, and the error is either the context's or the error
    of some record, other than the missing default branch, wrapped with that
    record's name. *)
Theorem error_return_origin (run : Run) (schedule : list Label) (s : State)
        (res : Result) (x : error) :
  exec run schedule (initial run) = Some s ->
  main s = MReturned res (Some x) ->
  res = zeroResult /\
  (x = ctxErr \/
   exists repo e,
     process run repo = Some e /\ isNoDefaultBranch e = false /\
     x = ErrWrapf "processing %q: %w" [Name repo] e).
Proof.
  intros H E. split.
  - exact (returned_error_voids_result run schedule s res x H E).
  - destruct (errorsInv_reachable run schedule s H) as (_ & _ & HM).
    rewrite E in HM. destruct HM as [HM|HM]; [right; exact HM | left; exact HM].
Qed.

(** X2 at the run whose first record fails. *)
Lemma error_return_origin_witness :
  zeroResult = zeroResult /\
  (badRepoError = ctxErr \/
   exists repo e,
     process failingRun repo = Some e /\ isNoDefaultBranch e = false /\
     badRepoError = ErrWrapf "processing %q: %w" [Name repo] e).
Proof.
  eapply (error_return_origin failingRun (failureSchedule ++ failureTail)).
  - vm_compute. reflexivity.
  - reflexivity.
Defined.

(** X3.  Once the processing of a record has failed with an error other
    than the missing default branch, so that a worker stands at its send on
    [errC], the dispatcher cannot return a nil error any more, whatever the
    schedule: if it returns, it returns an error and the zero [Result]. *)
Theorem failure_is_never_masked (run : Run) (schedule schedule' : list Label)
        (s s' : State) (i : nat) (x : error) (res : Result) (err : option error) :
  exec run schedule (initial run) = Some s ->
  nth_error (workers s) i = Some (WSendErr x) ->
  exec run schedule' s = Some s' ->
  main s' = MReturned res err ->
  res = zeroResult /\ err <> None.
Proof.
  intros H Hx H' E.
  destruct (failure_never_masked run schedule schedule' s s' i x res err H Hx H' E)
    as [Hz (e & -> & _)].
  split; [exact Hz | discriminate].
Qed.

(** X3 at the run whose first record fails. *)
Lemma failure_is_never_masked_witness :
  zeroResult = zeroResult /\ Some badRepoError <> None.
Proof.
  eapply (failure_is_never_masked failingRun failureSchedule failureTail _ _ 0%nat).
  - vm_compute. reflexivity.
  - reflexivity.
  - vm_compute. reflexivity.
  - reflexivity.
Defined.

(** X4.  The only step of the dispatcher that can panic is a [close(doneC)]
    on the channel already closed: by the producer after its loops, or by the
    caller in the [errC] case or in the [default] of the [ctx.Done()] case.
    No send meets a closed channel and neither [repoC] nor [errC] is closed
    twice. *)
Theorem panic_is_double_close (run : Run) (schedule : list Label) (s s' : State)
        (l : Label) :
  exec run schedule (initial run) = Some s ->
  step run l s = Some s' ->
  panicked s' = true ->
  doneClosed s = true /\
  ((l = LProducer /\ producer s = PCloseDone) \/
   (l = LMain /\ ((exists e, main s = MErrCloseDone e) \/ main s = MCtxCloseDone))).
Proof.
  intros Hr H Hp.
  pose proof (channelsInv_reachable run schedule s Hr) as HI.
  destruct s as [rc rcl ec ecl dc cx f i p pr ws m lg pn].
  unfold step in H. simpl in H. destruct pn; [discriminate|].
  unfold channelsInv, waitDone in HI. simpl in *.
  destruct HI as (HR & HE & HW & _ & _).
  destruct l; simpl in H.
  - unfold stepMain, waitDone in H; simpl in H.
    destruct m; crunch H; injection H as <-; simpl in Hp; try discriminate Hp;
      try (destruct (HE eq_refl) as (res' & err' & Hm); discriminate Hm);
      (split; [reflexivity|]); right; (split; [reflexivity|]);
      [left; eexists; reflexivity | right; reflexivity].
  - unfold stepSelect in H; simpl in H.
    destruct m; crunch H; injection H as <-; simpl in Hp; discriminate Hp.
  - unfold stepSelect in H; simpl in H.
    destruct m; crunch H; injection H as <-; simpl in Hp; discriminate Hp.
  - unfold stepSelect in H; simpl in H.
    destruct m; crunch H; injection H as <-; simpl in Hp; discriminate Hp.
  - unfold stepProducer in H; simpl in H.
    destruct pr; crunch H; injection H as <-; simpl in Hp; try discriminate Hp;
      try (destruct (HR eq_refl) as (rest' & Hq); discriminate Hq).
    split; [reflexivity|]. left. split; reflexivity.
  - unfold stepWorker in H; simpl in H.
    destruct (nth_error ws i0) as [x|] eqn:En; [|discriminate].
    destruct x; crunch H; try discriminate H; injection H as <-; simpl in Hp;
      try discriminate Hp.
    destruct (HE eq_refl) as (res' & err' & Hm). subst m.
    pose proof (waitDone_nth ws i0 _ (HW I) En) as Hd. discriminate Hd.
  - injection H as <-. simpl in Hp. discriminate Hp.
Qed.

(** X4 at the second [close(doneC)] of the failing run. *)
Lemma panic_is_double_close_witness :
  exists s,
    exec failingRun beforeDoubleClose (initial failingRun) = Some s /\
    doneClosed s = true /\
    ((LProducer = LProducer /\ producer s = PCloseDone) \/
     (LProducer = LMain /\
      ((exists e, main s = MErrCloseDone e) \/ main s = MCtxCloseDone))).
Proof.
  eexists. split; [vm_compute; reflexivity|].
  eapply (panic_is_double_close failingRun beforeDoubleClose).
  - vm_compute. reflexivity.
  - vm_compute. reflexivity.
  - reflexivity.
Defined.

(** X5.  A worker never blocks, and never panics, on the send of its error:
    [errC] has room for one error per worker and is closed only after every
    worker has returned. *)
Theorem error_send_never_blocks (run : Run) (schedule : list Label) (s : State)
        (i : nat) (e : error) :
  exec run schedule (initial run) = Some s ->
  panicked s = false ->
  nth_error (workers s) i = Some (WSendErr e) ->
  step run (LWorker i) s
  = Some (setWorker i WDone (setErrC (errC s ++ [e]) false s)).
Proof.
  intros Hr Hp En.
  pose proof (channelsInv_reachable run schedule s Hr) as HI.
  pose proof (capacityInv_reachable run schedule s Hr) as HC.
  destruct s as [rc rcl ec ecl dc cx f n p pr ws m lg pn].
  unfold channelsInv, capacityInv, waitDone in *. simpl in *. subst pn.
  destruct HI as (_ & HE & HW & _ & _). destruct HC as [HL HM].
  unfold step, stepWorker. simpl. rewrite En.
  assert (Hc : ecl = false).
  { destruct ecl; [|reflexivity].
    destruct (HE eq_refl) as (res & err & Hm). subst m.
    pose proof (waitDone_nth ws i _ (HW I) En) as Hd. discriminate Hd. }
  subst ecl.
  assert (Hn : (1 <= notDone ws)%nat)
    by exact (notDone_nth ws i _ En eq_refl).
  assert (Hw : List.length ws = Z.to_nat (nOfWorkers run)).
  { destruct m; try exact HM. subst ws. destruct i; discriminate En. }
  unfold hasRoom.
  assert (Hlt : (Z.of_nat (List.length ec) <? nOfWorkers run) = true)
    by (apply Z.ltb_lt; lia).
  rewrite Hlt. reflexivity.
Qed.

(** X5 at the worker of the failing run that holds the error. *)
Lemma error_send_never_blocks_witness :
  exists s,
    exec failingRun failureSchedule (initial failingRun) = Some s /\
    step failingRun (LWorker 0) s
    = Some (setWorker 0 WDone (setErrC (errC s ++ [badRepoError]) false s)).
Proof.
  eexists. split; [vm_compute; reflexivity|].
  eapply (error_send_never_blocks failingRun failureSchedule).
  - vm_compute. reflexivity.
  - reflexivity.
  - reflexivity.
Defined.

(** X6.  Whatever a worker processes is a record of the pages that the
    filter accepts: nothing rejected and nothing foreign reaches
    [processRepository]. *)
Theorem workers_process_accepted_records (run : Run) (schedule : list Label)
        (s : State) (i : nat) (repo : Repository) :
  exec run schedule (initial run) = Some s ->
  nth_error (workers s) i = Some (WProcess repo) ->
  In repo (List.concat (repoPages run)) /\ filterIn run repo = true.
Proof.
  intros Hr En.
  destruct (acceptedInv_reachable run schedule s Hr) as (_ & HW & _).
  exact (Forall_nth_error _ _ _ _ HW En).
Qed.

(** X6 at the scenario, where the first worker processes [octo/a]. *)
Lemma workers_process_accepted_records_witness :
  In (repoNamed "octo/a") (List.concat (repoPages scenarioRun)) /\
  filterIn scenarioRun (repoNamed "octo/a") = true.
Proof.
  eapply (workers_process_accepted_records scenarioRun
            (removelast cancelledSchedule) _ 0%nat).
  - vm_compute. reflexivity.
  - reflexivity.
Defined.

(** X7.  Once the context is cancelled no worker starts on another record:
    a worker found inside [processRepository] later on was inside it, with
    the same record, when the cancellation was seen. *)
Theorem cancellation_stops_new_work (run : Run) (schedule : list Label)
        (s0 s : State) (i : nat) (repo : Repository) :
  ctxDone s0 = true ->
  exec run schedule s0 = Some s ->
  nth_error (workers s) i = Some (WProcess repo) ->
  nth_error (workers s0) i = Some (WProcess repo).
Proof.
  intros Hc H.
  assert (HI : noNewProcessing s0 s).
  { apply (invariant_exec run (noNewProcessing s0) (noNewProcessing_step run s0)
             schedule s0 s); [|exact H].
    split; [exact Hc | auto]. }
  destruct HI as [_ HI]. apply HI.
Qed.

(** X7 at the scenario cancelled while [octo/a] is being processed. *)
Lemma cancellation_stops_new_work_witness :
  nth_error (workers cancelledState) 0 = Some (WProcess (repoNamed "octo/a")).
Proof.
  eapply (cancellation_stops_new_work scenarioRun afterCancel cancelledState).
  - reflexivity.
  - vm_compute. reflexivity.
  - reflexivity.
Defined.

(** * Further properties of the clone cache *)

Lemma printLines_trace (w : World) (path : string) (lines : list string)
      (t : list Event) :
  exists written rest,
    lines = written ++ rest /\
    snd (printLines w path lines t) = t ++ map (EvFprintln path) written /\
    (fst (printLines w path lines t) = None -> rest = []).
Proof.
  revert t. induction lines as [|l lines IH]; intros t.
  - exists [], []. simpl. rewrite app_nil_r. repeat split.
  - simpl. unfold bind, fprintln.
    destruct (onFprintln w t path l) as [e|].
    + exists [l], lines. simpl. repeat split. discriminate.
    + destruct (IH (t ++ [EvFprintln path l])) as (written & rest & -> & Ht & Hn).
      exists (l :: written), rest. simpl. rewrite Ht, <- app_assoc.
      repeat split. exact Hn.
Qed.

Lemma fillLines_trace (w : World) (path : string) (lines : list string)
      (t : list Event) :
  exists written rest,
    lines = written ++ rest /\
    snd (fillLines w path lines t)
    = t ++ EvCreate path :: map (EvFprintln path) written /\
    (fst (fillLines w path lines t) = None -> rest = []).
Proof.
  unfold fillLines, bind, osCreate.
  destruct (onCreate w t path) as [e|].
  - exists [], lines. simpl. repeat split. discriminate.
  - destruct (printLines_trace w path lines (t ++ [EvCreate path]))
      as (written & rest & Hl & Ht & Hn).
    exists written, rest. rewrite Ht, <- app_assoc. repeat split; assumption.
Qed.

Lemma fillLines_success (w : World) (path : string) (lines : list string)
      (t : list Event) :
  fst (fillLines w path lines t) = None ->
  snd (fillLines w path lines t) = t ++ EvCreate path :: map (EvFprintln path) lines.
Proof.
  intros H.
  destruct (fillLines_trace w path lines t) as (written & rest & Hl & Ht & Hn).
  rewrite Ht, Hl, (Hn H), app_nil_r. reflexivity.
Qed.


Lemma cloneRepository_trace (w : World) (repo : Repository) (repoDir : string)
      (opts : Options) (t : list Event) :
  fst (cloneRepository w repo repoDir opts t) = None ->
  DefaultBranchName repo <> EmptyString /\
  snd (cloneRepository w repo repoDir opts t) = t ++ cloneEvents repo repoDir opts.
Proof.
  unfold cloneRepository, cloneSetup, cloneEvents, bind, runX.
  destruct (onRunX w t repoDir "git" ["init"]) as [o1 [e1|]]; simpl;
    [discriminate|].
  destruct (onRunX w _ repoDir "git" _) as [o2 [e2|]]; simpl; [discriminate|].
  unfold sparseCheckout.
  destruct (CloningSubset opts) as [|p ps] eqn:Ecs.
  - simpl. unfold fetchAndCheckout.
    destruct (DefaultBranchName repo) as [|c b] eqn:Eb; simpl; [discriminate|].
    unfold bind, runX.
    destruct (onRunX w _ repoDir "git" _) as [o3 [e3|]]; simpl; [discriminate|].
    destruct (onRunX w _ repoDir "git" _) as [o4 [e4|]]; simpl; [discriminate|].
    intros _. split; [discriminate|].
    rewrite <- !app_assoc. reflexivity.
  - unfold bind, runX.
    destruct (onRunX w _ repoDir "git" _) as [o3 [e3|]]; simpl; [discriminate|].
    destruct (fillLines w _ (p :: ps) _) as [[e|] t'] eqn:Ef; simpl; [discriminate|].
    pose proof (fillLines_success w _ (p :: ps) _ (f_equal fst Ef)) as Ht.
    rewrite Ef in Ht. simpl in Ht. subst t'.
    unfold fetchAndCheckout.
    destruct (DefaultBranchName repo) as [|c b] eqn:Eb; simpl; [discriminate|].
    unfold bind, runX.
    destruct (onRunX w _ repoDir "git" _) as [o4 [e4|]]; simpl; [discriminate|].
    destruct (onRunX w _ repoDir "git" _) as [o5 [e5|]]; simpl; [discriminate|].
    intros _. split; [discriminate|].
    rewrite <- !app_assoc. reflexivity.
Qed.

(** X9.  A clone that succeeds has run, in the clone directory and in this
    order: [git init], [git remote add origin] with the HTTPS address when
    [UseHTTPS] is set and the SSH address otherwise, for a sparse checkout
    the [core.sparseCheckout] setting and every pattern written in order to
    [.git/info/sparse-checkout], then the fetch and the checkout of the
    default branch, whose name is not empty. *)
Theorem cloneRepository_success_sequence (w : World) (repo : Repository)
        (repoDir : string) (opts : Options) (t : list Event) :
  fst (cloneRepository w repo repoDir opts t) = None ->
  DefaultBranchName repo <> EmptyString /\
  snd (cloneRepository w repo repoDir opts t) = t ++ cloneEvents repo repoDir opts.
Proof. exact (cloneRepository_trace w repo repoDir opts t). Qed.

(** X9 at a sparse clone over HTTPS in the calm world. *)
Lemma cloneRepository_success_sequence_witness :
  DefaultBranchName goodRepo <> EmptyString /\
  snd (cloneRepository calmWorld goodRepo "/tmp/x" sparseOptions [])
  = [] ++ cloneEvents goodRepo "/tmp/x" sparseOptions.
Proof.
  apply (cloneRepository_success_sequence calmWorld goodRepo "/tmp/x" sparseOptions []).
  vm_compute. reflexivity.
Defined.

(** X10.  When [os.Stat] finds no clone directory, [os.MkdirAll] creates it
    and the clone into it fails, [cloneRepositoryOrGetFromCache] removes
    the directory again and returns the clone's own error, also when the
    removal fails: that failure is only logged.  [processRepository]
    returns the same error without calling the Processor. *)
Theorem failed_clone_is_removed (w : World) (repo : Repository)
        (opts : Options) (t : list Event) (e : error) :
  onStat w (historyAtStat repo opts t) (cloneDirAt w repo opts t) = StatNotExist ->
  onMkdirAll w (historyAtStat repo opts t ++ [EvStat (cloneDirAt w repo opts t)])
             (cloneDirAt w repo opts t) = None ->
  fst (cloneRepository w repo (cloneDirAt w repo opts t) opts
         (historyAtClone w repo opts t)) = Some e ->
  let cloneDir := cloneDirAt w repo opts t in
  let cloned := snd (cloneRepository w repo cloneDir opts
                       (historyAtClone w repo opts t)) in
  let after :=
    cloned ++ EvRemoveAll cloneDir
           :: match onRemoveAll w cloned cloneDir with
              | Some re =>
                  [EvLog (warnRecord "Failed to remove the clone directory" re)]
              | None => []
              end in
  cloneRepositoryOrGetFromCache w repo opts t = (inr e, after) /\
  (Size repo <> 0 -> processRepository w repo opts t = (Some e, after)).
Proof.
  intros Hst Hm Hc. cbv zeta.
  destruct (cloneRepository w repo (cloneDirAt w repo opts t) opts
              (historyAtClone w repo opts t)) as [ce tc] eqn:Ec.
  simpl in Hc. subst ce. simpl. split.
  - exact (acquisition_clone_failed w repo opts t tc e Hst Hm Ec).
  - intros Hs. exact (processRepository_clone_failed w repo opts t tc e Hs Hst Hm Ec).
Qed.

(** X10 where [git init] fails. *)
Lemma failed_clone_is_removed_witness :
  cloneRepositoryOrGetFromCache brokenGitWorld goodRepo plainOptions []
  = (inr (ErrWrapf "cloning repository: %w" [] (ErrForeign "git init: exit code 128")),
     [EvNow;
      EvStat "/tmp/gh-iterator/octo/good-15T12_00_00.5";
      EvMkdirAll "/tmp/gh-iterator/octo/good-15T12_00_00.5";
      EvRunX "/tmp/gh-iterator/octo/good-15T12_00_00.5" "git" ["init"];
      EvRemoveAll "/tmp/gh-iterator/octo/good-15T12_00_00.5"]).
Proof.
  exact (proj1 (failed_clone_is_removed brokenGitWorld goodRepo plainOptions []
                  (ErrWrapf "cloning repository: %w" []
                            (ErrForeign "git init: exit code 128"))
                  eq_refl eq_refl eq_refl)).
Defined.







(** ** When the Processor is called *)

Lemma adds_ret {A : Type} (P : Event -> Prop) (a : A) : adds P (ret a).
Proof. intros t. exists []. simpl. rewrite app_nil_r. split; constructor. Qed.

Lemma adds_bind {A B : Type} (P : Event -> Prop) (c : M A) (k : A -> M B) :
  adds P c -> (forall a, adds P (k a)) -> adds P (bind c k).
Proof.
  intros Hc Hk t. unfold bind.
  destruct (Hc t) as (d & Hd & HP). destruct (c t) as [a t'] eqn:E.
  simpl in Hd. subst t'.
  destruct (Hk a (t ++ d)) as (d' & Hd' & HP'). exists (d ++ d').
  rewrite Hd', app_assoc. split; [reflexivity | now apply Forall_app].
Qed.

Lemma adds_event {A : Type} (P : Event -> Prop) (f : list Event -> A) (e : Event) :
  P e -> adds P (fun t => (f t, t ++ [e])).
Proof. intros He t. exists [e]. split; [reflexivity | repeat constructor; exact He]. Qed.

Ltac adds_step :=
  match goal with
  | |- adds _ (bind _ _) => apply adds_bind; [| intros ?]
  | |- adds _ (ret _) => apply adds_ret
  | |- adds _ (fun t => (_, t ++ [_])) => apply adds_event; exact I
  | |- adds _ (match ?x with _ => _ end) => destruct x
  | |- adds _ (if ?x then _ else _) => destruct x
  end.

Ltac adds_auto := repeat adds_step.

Lemma printLines_no_processor (w : World) (path : string) (lines : list string) :
  adds notProcessor (printLines w path lines).
Proof.
  induction lines as [|l rest IH]; simpl.
  - apply adds_ret.
  - unfold fprintln. adds_auto. exact IH.
Qed.

Lemma acquisition_no_processor (w : World) (repo : Repository) (opts : Options) :
  adds notProcessor (cloneRepositoryOrGetFromCache w repo opts).
Proof.
  unfold cloneRepositoryOrGetFromCache, cloneOnMiss, copyFromCache, cloneRepository,
    cloneSetup, sparseCheckout, fetchAndCheckout, fillLines, timeNow, osStat,
    osMkdirAll, osRemoveAll, osCreate, logRecord, randSequence, runX.
  adds_auto; apply printLines_no_processor.
Qed.

(** X12.  For a record that is not empty, [processRepository] calls the
    Processor at most once, and only with a directory that the acquisition
    returned: when the acquisition fails, its error is returned as it is and
    the Processor is not called; when it succeeds, the Processor is called
    on the acquired directory with [isEmpty = false], its answer is returned
    unwrapped, and the directory is removed right after, whatever the
    Processor answered. *)
Theorem processRepository_calls_processor_once (w : World) (repo : Repository)
        (opts : Options) (t : list Event) :
  Size repo <> 0 ->
  exists d,
    snd (cloneRepositoryOrGetFromCache w repo opts t) = t ++ d /\
    Forall notProcessor d /\
    match fst (cloneRepositoryOrGetFromCache w repo opts t) with
    | inr e => processRepository w repo opts t = (Some e, t ++ d)
    | inl dir =>
        processRepository w repo opts t
        = (onProcessor w (t ++ d) (Name repo) false dir,
           t ++ d ++ [EvProcessor (Name repo) false dir; EvRemoveAll dir])
    end.
Proof.
  intros Hs. apply Z.eqb_neq in Hs. unfold processRepository. rewrite Hs.
  destruct (acquisition_no_processor w repo opts t) as (d & Hd & HP).
  exists d. split; [exact Hd|]. split; [exact HP|].
  unfold bind. destruct (cloneRepositoryOrGetFromCache w repo opts t) as [[dir|e] t'].
  - simpl in *. subst t'. unfold callProcessor, osRemoveAll, ret.
    rewrite <- !app_assoc. reflexivity.
  - simpl in *. subst t'. reflexivity.
Qed.

(** X12 at a repository processed without a cache key. *)
Lemma processRepository_calls_processor_once_witness :
  exists d,
    snd (cloneRepositoryOrGetFromCache calmWorld goodRepo plainOptions []) = [] ++ d /\
    Forall notProcessor d /\
    match fst (cloneRepositoryOrGetFromCache calmWorld goodRepo plainOptions []) with
    | inr e => processRepository calmWorld goodRepo plainOptions [] = (Some e, [] ++ d)
    | inl dir =>
        processRepository calmWorld goodRepo plainOptions []
        = (onProcessor calmWorld ([] ++ d) (Name goodRepo) false dir,
           [] ++ d ++ [EvProcessor (Name goodRepo) false dir; EvRemoveAll dir])
    end.
Proof.
  apply (processRepository_calls_processor_once calmWorld goodRepo plainOptions []).
  discriminate.
Defined.

(** ** The shape of the subset hash *)

Lemma hexDigit_ok (n : Z) : 0 <= n < 16 -> isHexDigit (Fmt.hexDigit n) = true.
Proof.
  intros H.
  assert (Hn : (Z.to_nat n < 16)%nat) by lia.
  unfold Fmt.hexDigit. generalize dependent (Z.to_nat n). intros k Hk.
  do 16 (destruct k as [|k]; [reflexivity|]). lia.
Qed.

Lemma hex_length (bs : list Z) :
  String.length (Fmt.hex bs) = (2 * List.length bs)%nat.
Proof. induction bs as [|b bs IH]; simpl; [reflexivity | rewrite IH; lia]. Qed.

Lemma hex_digits (bs : list Z) :
  Forall (fun b => 0 <= b < 256) bs ->
  forallb isHexDigit (list_ascii_of_string (Fmt.hex bs)) = true.
Proof.
  induction 1 as [|b bs Hb _ IH]; [reflexivity|].
  cbn [Fmt.hex list_ascii_of_string forallb].
  rewrite IH, !hexDigit_ok; [reflexivity | |].
  - apply Z.mod_pos_bound. lia.
  - split; [apply Z.div_pos; lia | apply Z.div_lt_upper_bound; lia].
Qed.

Lemma le32_bytes (x : Z) :
  List.length (MD5.le32 x) = 4%nat /\ Forall (fun b => 0 <= b < 256) (MD5.le32 x).
Proof.
  split; [reflexivity|]. unfold MD5.le32. apply Forall_map, Forall_forall.
  intros i _. change 255 with (Z.ones 8). rewrite Z.land_ones by lia.
  apply Z.mod_pos_bound. reflexivity.
Qed.

Lemma Sum_bytes (msg : string) :
  List.length (MD5.Sum msg) = 16%nat /\ Forall (fun b => 0 <= b < 256) (MD5.Sum msg).
Proof.
  unfold MD5.Sum.
  destruct (MD5.blocks _ MD5.init _) as [[[a b] c] d].
  split.
  - rewrite !length_app. reflexivity.
  - repeat (apply Forall_app; split); apply le32_bytes.
Qed.

Lemma substring_prefix (n : nat) (s : string) :
  (n <= String.length s)%nat ->
  String.length (substring 0 n s) = n /\
  (forallb isHexDigit (list_ascii_of_string s) = true ->
   forallb isHexDigit (list_ascii_of_string (substring 0 n s)) = true).
Proof.
  revert s. induction n as [|n IH]; intros s H.
  - destruct s; simpl; split; auto.
  - destruct s as [|c s]; simpl in *; [lia|].
    destruct (IH s) as [Hl Hd]; [lia|]. split; [now rewrite Hl|].
    intros Hh. apply andb_true_iff in Hh. destruct Hh as [Hc Hs].
    now rewrite Hc, Hd.
Qed.

(** X13.  The subset hash that goes into the name of the clone directory
    always consists of exactly sixteen lower-case hexadecimal digits: the
    slice [[:16]] stays within the formatted digest, and the suffix it adds
    to the directory name holds no path separator, whatever the patterns. *)
Theorem hashCloningSubset_shape (cs : list string) :
  String.length (hashCloningSubset cs) = 16%nat /\
  forallb isHexDigit (list_ascii_of_string (hashCloningSubset cs)) = true.
Proof.
  unfold hashCloningSubset.
  destruct (Sum_bytes (GoStrings.Join cs "|")) as [Hl Hb].
  destruct (substring_prefix 16 (Fmt.hex (MD5.Sum (GoStrings.Join cs "|"))))
    as [H1 H2].
  - rewrite hex_length, Hl. lia.
  - split; [exact H1 | apply H2, hex_digits, Hb].
Qed.

(** ** The page of the listing *)

(** X14.  With a valid [PerPage], the [Page] option decides the one [gh]
    command that [RunForOrganization] runs first: for [AllPages] (-1) the
    command carries [--paginate] before the target, for 0 it names no page,
    for a positive number the target ends in [&page=N]; any other negative
    number is refused with the zero [Result] before any command runs. *)
Theorem RunForOrganization_page (w : World) (orgName : string)
        (searchOpts : SearchOptions) (opts : Options) (t : list Event) :
  0 <= PerPage searchOpts ->
  (soPage searchOpts = AllPages ->
   snd (RunForOrganization w orgName searchOpts opts t)
   = t ++ EvRunX "." "gh"
            (organizationArgs w searchOpts
             ++ ["--paginate"; sizedTarget orgName searchOpts])
          :: afterListing w (fst (RunForOrganization w orgName searchOpts opts t))) /\
  (soPage searchOpts = 0 ->
   snd (RunForOrganization w orgName searchOpts opts t)
   = t ++ EvRunX "." "gh"
            (organizationArgs w searchOpts ++ [sizedTarget orgName searchOpts])
          :: afterListing w (fst (RunForOrganization w orgName searchOpts opts t))) /\
  (0 < soPage searchOpts ->
   snd (RunForOrganization w orgName searchOpts opts t)
   = t ++ EvRunX "." "gh"
            (organizationArgs w searchOpts
             ++ [(sizedTarget orgName searchOpts ++ "&page="
                  ++ Fmt.decimal (soPage searchOpts))%string])
          :: afterListing w (fst (RunForOrganization w orgName searchOpts opts t))) /\
  (soPage searchOpts < -1 ->
   RunForOrganization w orgName searchOpts opts t
   = (Returned zeroResult (ErrNew "invalid negative SearchOptions.Page"),
      t ++ [EvRemoveAll (reposDir w)])).
Proof.
  intros Hpp. split; [|split; [|split]]; intros Hpg.
  - rewrite (RunForOrganization_history w orgName searchOpts opts t _ _
               (listingTarget_valid orgName searchOpts Hpp
                  ltac:(rewrite Hpg; unfold AllPages; lia))).
    unfold pageFlags, pagedTarget. rewrite Hpg. reflexivity.
  - rewrite (RunForOrganization_history w orgName searchOpts opts t _ _
               (listingTarget_valid orgName searchOpts Hpp ltac:(lia))).
    unfold pageFlags, pagedTarget. rewrite Hpg. reflexivity.
  - rewrite (RunForOrganization_history w orgName searchOpts opts t _ _
               (listingTarget_valid orgName searchOpts Hpp ltac:(lia))).
    unfold pageFlags, pagedTarget, AllPages.
    assert (E1 : (soPage searchOpts =? -1) = false) by (apply Z.eqb_neq; lia).
    assert (E2 : (soPage searchOpts >? 0) = true) by (apply Z.gtb_lt; lia).
    rewrite E1, E2. reflexivity.
  - apply RunForOrganization_refused.
    apply listingTarget_negative_page; assumption.
Qed.

(** X14 at the third page, and at page -7. *)
Lemma RunForOrganization_page_witness :
  (snd (RunForOrganization calmWorld "octo" (withPage 3 zeroSearchOptions) plainOptions [])
   = [EvRunX "." "gh"
        [ "api"; "-H"; "Accept: application/vnd.github+json";
          "-H"; "X-GitHub-Api-Version: 2022-11-28"; "-X"; "GET"; "--jq";
          ". | map({full_name,clone_url,ssh_url,default_branch,archived,language,visibility,fork,size,pushed_at})";
          "/orgs/octo/repos?per_page=100&page=3" ]]) /\
  (RunForOrganization calmWorld "octo" (withPage (-7) zeroSearchOptions) plainOptions []
   = (Returned zeroResult (ErrNew "invalid negative SearchOptions.Page"),
      [EvRemoveAll "/tmp/gh-iterator"])).
Proof.
  split.
  - apply (RunForOrganization_page calmWorld "octo" (withPage 3 zeroSearchOptions)
             plainOptions []); vm_compute; [discriminate | reflexivity].
  - apply (RunForOrganization_page calmWorld "octo" (withPage (-7) zeroSearchOptions)
             plainOptions []); vm_compute; [discriminate | reflexivity].
Defined.

(** * Further properties of the filter chain and of the entry points *)

Lemma applyFilters_app (a b : list (Repository -> bool)) (r : Repository) :
  applyFilters (a ++ b) r = applyFilters a r && applyFilters b r.
Proof.
  induction a as [|f a IH]; simpl; [reflexivity|].
  destruct (f r); [exact IH | reflexivity].
Qed.

Lemma EqualFold_ascii (fold : string -> string -> bool) (s t : string) :
  allASCII s = true -> allASCII t = true ->
  GoStrings.EqualFold fold s t = String.eqb (lowerASCII s) (lowerASCII t).
Proof.
  revert t. induction s as [|a s IH]; intros [|b t]; simpl; try reflexivity.
  intros Hs Ht.
  apply andb_true_iff in Hs as [Ha Hs]. apply andb_true_iff in Ht as [Hb Ht].
  rewrite Ha, Hb. simpl. rewrite (IH t Hs Ht). reflexivity.
Qed.

(** X15.  The filter compiled by [MakeFilterIn] accepts a repository exactly
    when every configured condition holds for it: the custom predicate, a
    language that [strings.EqualFold] matches with one of [Languages], the
    archive condition, the source condition, the visibility and the size
    condition; a condition left at its zero value constrains nothing.
    [strings.EqualFold] hands the two strings, from the first position where
    one of them has a byte that is not ASCII, to its Unicode folding
    ([fold]); on two ASCII strings it never gets there, and the match is
    equality of the two strings with their letters A to Z lowered. *)
Theorem MakeFilterIn_conjunction (fold : string -> string -> bool)
        (so : SearchOptions) (r : Repository) :
  (MakeFilterIn fold so r = true <->
   (forall f, FilterIn so = Some f -> f r = true) /\
   (Languages so <> [] ->
    exists l, In l (Languages so) /\
              GoStrings.EqualFold fold l (Language r) = true) /\
   (soArchiveCondition so = OnlyArchived -> Archived r = true) /\
   (soArchiveCondition so = OmitArchived -> Archived r = false) /\
   (soSource so = OnlyForks -> Fork r = true) /\
   (soSource so = OnlyNonForks -> Fork r = false) /\
   (soVisibility so <> VisibilityNone ->
    Visibility_ r = Visibility_String (soVisibility so)) /\
   (soSizeCondition so = NotEmpty -> 0 < Size r) /\
   (soSizeCondition so = OnlyEmpty -> Size r = 0)) /\
  (forall s t : string,
     allASCII s = true -> allASCII t = true ->
     GoStrings.EqualFold fold s t = String.eqb (lowerASCII s) (lowerASCII t)) /\
  (forall (a b : ascii) (s t : string),
     (GoStrings.isASCII a && GoStrings.isASCII b)%bool = false ->
     GoStrings.EqualFold fold (String a s) (String b t)
     = fold (String a s) (String b t)).
Proof.
  split; [|split; [exact (EqualFold_ascii fold)
                  |intros a b s t H; simpl; rewrite H; reflexivity]].
  unfold MakeFilterIn, filtersOf. rewrite !applyFilters_app, !andb_true_iff.
  destruct so as [langs ac vis src pp pg sc fi ca]. simpl.
  assert (H1 : applyFilters (match fi with Some f => [f] | None => [] end) r = true
               <-> forall f, fi = Some f -> f r = true).
  { destruct fi as [f|]; simpl.
    - split.
      + intros H g Hg. injection Hg as <-. destruct (f r); [reflexivity | discriminate].
      + intros H. now rewrite (H f eq_refl).
    - split; [discriminate | reflexivity]. }
  assert (H2 : applyFilters (match langs with
                             | [] => []
                             | _ :: _ => [languageFilter fold langs]
                             end) r = true
               <-> (langs <> [] ->
                    exists l, In l langs /\
                              GoStrings.EqualFold fold l (Language r) = true)).
  { destruct langs as [|l0 ls]; [split; [congruence | reflexivity]|].
    cbn [applyFilters]. unfold languageFilter. split.
    - intros H _. apply existsb_exists.
      destruct (existsb _ (l0 :: ls)); [reflexivity | discriminate].
    - intros H. destruct (H ltac:(discriminate)) as (l & Hl & He).
      assert (Hx : existsb (fun l => GoStrings.EqualFold fold l (Language r))
                           (l0 :: ls) = true)
        by (apply existsb_exists; exists l; split; assumption).
      now rewrite Hx. }
  assert (H5 : applyFilters
                 (if Visibility_eqb vis VisibilityNone then []
                  else [fun r0 => String.eqb (Visibility_ r0) (Visibility_String vis)]) r
               = true
               <-> (vis <> VisibilityNone -> Visibility_ r = Visibility_String vis)).
  { destruct vis; simpl;
      try (split; [congruence | reflexivity]);
      (split;
       [ intros H _; apply String.eqb_eq;
         destruct (String.eqb (Visibility_ r) _); [reflexivity | discriminate]
       | intros H; specialize (H ltac:(discriminate)); apply String.eqb_eq in H;
         now rewrite H ]). }
  rewrite H1, H2, H5. clear H1 H2 H5.
  destruct ac, src, sc; simpl;
    destruct (Archived r), (Fork r);
    try destruct (Z.ltb_spec 0 (Size r)); try destruct (Z.eqb_spec (Size r) 0);
    simpl; intuition (try discriminate; try lia; try congruence).
Qed.

(** ** The pages of a listing *)

Lemma scanPages_short (unmarshalPage : string -> list Repository + error)
      (pre : list string) (short : string) (post : list string)
      (scanErr : option error) (acc : list (list Repository)) :
  Forall (fun l => (2 < String.length l)%nat) pre ->
  (String.length short <= 2)%nat ->
  scanPages unmarshalPage (pre ++ short :: post) scanErr acc
  = scanPages unmarshalPage pre None acc.
Proof.
  intros Hpre Hs. revert acc. induction Hpre as [|l pre Hl _ IH]; intros acc; simpl.
  - apply Nat.leb_le in Hs. rewrite Hs. reflexivity.
  - apply Nat.leb_gt in Hl. rewrite Hl.
    destruct (unmarshalPage l); [apply IH | reflexivity].
Qed.

(** X16.  [processRepoPages] stops at the first line of at most two bytes,
    such as the empty page [[]]: the lines after it are never decoded and
    add no page, and neither they nor a later failure of the scanner can
    make the call fail. *)
Theorem processRepoPages_stops_at_short_line
        (unmarshalPage : string -> list Repository + error)
        (pre : list string) (short : string) (post : list string)
        (scanErr : option error) :
  Forall (fun l => (2 < String.length l)%nat) pre ->
  (String.length short <= 2)%nat ->
  processRepoPages unmarshalPage (pre ++ short :: post) scanErr
  = processRepoPages unmarshalPage pre None.
Proof. intros Hpre Hs. now apply scanPages_short. Qed.

(** X16 at a page, an empty page and a line that does not decode. *)
Lemma processRepoPages_stops_at_short_line_witness :
  processRepoPages onePageDecoder (["[{octo/good}]"] ++ "[]" :: ["<html>"])
                   (Some (ErrForeign "token too long"))
  = processRepoPages onePageDecoder ["[{octo/good}]"] None.
Proof.
  apply (processRepoPages_stops_at_short_line onePageDecoder).
  - repeat constructor.
  - simpl. lia.
Defined.

Lemma scanPages_decoded (unmarshalPage : string -> list Repository + error)
      (scanned : list string) (scanErr : option error)
      (acc pages : list (list Repository)) :
  scanPages unmarshalPage scanned scanErr acc = inl pages ->
  exists used rest,
    scanned = used ++ rest /\
    pages = acc ++ map (fun l => match unmarshalPage l with
                                 | inl page => page
                                 | inr _ => []
                                 end) used /\
    Forall (fun l => (2 < String.length l)%nat /\
                     exists page, unmarshalPage l = inl page) used.
Proof.
  revert acc. induction scanned as [|l rest IH]; intros acc H; simpl in H.
  - destruct scanErr; [discriminate|]. injection H as <-.
    exists [], []. simpl. rewrite app_nil_r. repeat split. constructor.
  - destruct (String.length l <=? 2)%nat eqn:El.
    + injection H as <-. exists [], (l :: rest). simpl. rewrite app_nil_r.
      repeat split. constructor.
    + destruct (unmarshalPage l) as [page|e] eqn:Eu; [|discriminate].
      destruct (IH _ H) as (used & rest' & -> & -> & HF).
      exists (l :: used), rest'. simpl. rewrite Eu, <- app_assoc.
      repeat split. constructor; [|exact HF].
      split; [now apply Nat.leb_gt | now exists page].
Qed.

(** X17.  When [processRepoPages] succeeds, its pages are the decoded lines
    of a prefix of the scanned lines, one page per line and in their order,
    each of these lines being longer than two bytes. *)
Theorem processRepoPages_pages_in_order
        (unmarshalPage : string -> list Repository + error)
        (scanned : list string) (scanErr : option error)
        (pages : list (list Repository)) :
  processRepoPages unmarshalPage scanned scanErr = inl pages ->
  exists used rest,
    scanned = used ++ rest /\
    List.length pages = List.length used /\
    Forall2 (fun l page => (2 < String.length l)%nat /\ unmarshalPage l = inl page)
            used pages.
Proof.
  intros H. destruct (scanPages_decoded _ _ _ _ _ H) as (used & rest & Hs & Hp & HF).
  exists used, rest. split; [exact Hs|]. simpl in Hp. subst pages.
  split; [now rewrite length_map|].
  clear Hs H. induction HF as [|l used [Hl [page Hu]] _ IH]; simpl; constructor.
  - rewrite Hu. split; [exact Hl | reflexivity].
  - exact IH.
Qed.

(** X17 at two lines. *)
Lemma processRepoPages_pages_in_order_witness :
  exists used rest,
    ["[{octo/good}]"; "[]"] = used ++ rest /\
    List.length [[goodRepo]] = List.length used /\
    Forall2 (fun l page => (2 < String.length l)%nat /\ onePageDecoder l = inl page)
            used [[goodRepo]].
Proof.
  apply (processRepoPages_pages_in_order onePageDecoder ["[{octo/good}]"; "[]"] None).
  reflexivity.
Defined.

(** * Progress and termination of the dispatcher *)

Lemma afterProcess_not_done (repo : Repository) (outcome : option error) :
  isDone (fst (afterProcess repo outcome)) = false.
Proof.
  unfold afterProcess. destruct outcome as [e|]; [|reflexivity].
  destruct (isNoDefaultBranch e); reflexivity.
Qed.

Lemma progressInv_step (run : Run) (l : Label) (s s' : State) :
  channelsInv s -> progressInv s -> step run l s = Some s' -> progressInv s'.
Proof.
  intros HC HI H.
  destruct s as [rc rcl ec ecl dc cx f i p pr ws m lg pn].
  unfold step in H. simpl in H. destruct pn; [discriminate|].
  unfold progressInv, channelsInv in *. simpl in *.
  destruct HI as (HX & HL & HM). destruct HC as (_ & _ & _ & _ & HS).
  destruct l; simpl in H.
  - unfold stepMain, waitDone in H; simpl in H.
    destruct m; crunch H; injection H as <-; simpl in *;
      try (split; [exact HX | split; [tauto | first [exact HM | tauto]]]).
    destruct HM as [-> ->]. destruct HS as [-> ->].
    split; [discriminate|]. split; [intros []|].
    split; [discriminate|]. intros _.
    rewrite repeat_length, notDone_repeat. simpl. lia.
  - unfold stepSelect in H; simpl in H.
    destruct m; crunch H; injection H as <-; simpl in *;
      (split; [exact HX | split; [tauto | tauto]]).
  - unfold stepSelect in H; simpl in H.
    destruct m; crunch H; injection H as <-; simpl in *;
      (split; [exact HX | split; [tauto | tauto]]).
  - unfold stepSelect in H; simpl in H.
    destruct m; crunch H; injection H as <-; simpl in *;
      (split; [exact HX | split; [tauto | tauto]]).
  - unfold stepProducer in H; simpl in H.
    destruct pr; crunch H; injection H as <-; simpl in *;
      (split; [intros rest'; first [discriminate | reflexivity | exact (HX rest')]|]);
      (split; [first [ solve [intros []]
                     | solve [tauto]
                     | solve [intros _; apply orb_true_iff; assumption]
                     | solve [intros _; right; reflexivity] ]|]);
      destruct m; simpl in *;
      try exact HM; try discriminate;
      try (split; [discriminate | first [apply HM | discriminate]]).
  - unfold stepWorker in H; simpl in H.
    destruct (nth_error ws i0) as [x|] eqn:En; [|discriminate].
    destruct x; crunch H; try discriminate H; injection H as <-; simpl;
      (split; [exact HX|]); (split; [exact HL|]);
      destruct m; simpl in *; try exact HM;
      try (destruct HM as [_ HM]; subst ws; destruct i0; discriminate En);
      (split; [apply HM|]); intros Hc;
      try discriminate Hc;
      destruct HM as [_ HM]; specialize (HM Hc);
      try match goal with
      | |- context [setNth i0 ?y ws] =>
          pose proof (notDone_setNth ws i0 _ y En) as Hnd; simpl in Hnd;
          rewrite ?length_app, length_setNth; simpl; lia
      end.
    pose proof (afterProcess_not_done repo (process run repo)) as Hd.
    rewrite Heqp0 in Hd. simpl in Hd.
    pose proof (notDone_setNth ws i0 _ w En) as Hnd. simpl in Hnd.
    rewrite Hd in Hnd. rewrite length_setNth. lia.
  - injection H as <-. simpl. split; [exact HX|]. split; [tauto|].
    destruct m; exact HM.
Qed.

Lemma progressInv_reachable (run : Run) (schedule : list Label) (s : State) :
  exec run schedule (initial run) = Some s -> progressInv s.
Proof.
  intros H.
  assert (HI : channelsInv s /\ progressInv s); [|exact (proj2 HI)].
  apply (invariant_exec run (fun s => channelsInv s /\ progressInv s))
    with (schedule := schedule) (s := initial run); [| |exact H].
  - intros l s1 s2 [HC HP] Hs. split.
    + exact (channelsInv_step run l s1 s2 HC Hs).
    + exact (progressInv_step run l s1 s2 HC HP Hs).
  - split.
    + exact (channelsInv_reachable run [] (initial run) eq_refl).
    + unfold progressInv, initial. simpl.
      repeat split; try discriminate. intros [].
Qed.

Lemma notDone_pos_nth (ws : list WorkerState) :
  (0 < notDone ws)%nat ->
  exists i x, nth_error ws i = Some x /\ isDone x = false.
Proof.
  induction ws as [|w ws IH]; simpl; [lia|].
  destruct (isDone w) eqn:E.
  - intros H. destruct (IH H) as (i & x & Hn & Hx). now exists (S i), x.
  - intros _. now exists O, w.
Qed.

Lemma forallb_isDone_notDone (ws : list WorkerState) :
  forallb isDone ws = false -> (0 < notDone ws)%nat.
Proof.
  induction ws as [|w ws IH]; simpl; [discriminate|].
  destruct (isDone w); simpl; [exact IH | lia].
Qed.

Lemma worker_can_step (run : Run) (s : State) (i : nat) (x : WorkerState) :
  capacityInv run s ->
  nth_error (workers s) i = Some x ->
  isDone x = false ->
  (x = WRecv -> repoC s <> [] \/ repoClosed s = true) ->
  stepWorker run i s <> None.
Proof.
  intros [HL HM] En Hx Hr. unfold stepWorker. rewrite En.
  destruct x; try discriminate.
  - destruct (repoC s); [|discriminate].
    destruct (repoClosed s); [discriminate|].
    destruct (Hr eq_refl) as [Hc|Hc]; [now elim Hc | discriminate Hc].
  - destruct (ctxDone s); discriminate.
  - destruct (afterProcess repo (process run repo)). discriminate.
  - destruct (errClosed s); [discriminate|].
    assert (Hn : (1 <= notDone (workers s))%nat)
      by exact (notDone_nth _ i _ En eq_refl).
    assert (Hw : List.length (workers s) = Z.to_nat (nOfWorkers run)).
    { destruct (main s); try exact HM. rewrite HM in En. destruct i; discriminate En. }
    unfold hasRoom.
    assert (Hlt : (Z.of_nat (List.length (errC s)) <? nOfWorkers run) = true)
      by (apply Z.ltb_lt; lia).
    rewrite Hlt. discriminate.
Qed.

Lemma producer_can_step (run : Run) (s : State) :
  producer s <> PIdle ->
  (forall rest, producer s <> PExit rest) ->
  (forall repo rest,
     producer s = PSend repo rest ->
     repoClosed s = true \/ hasRoom (repoC s) (nOfWorkers run) = true) ->
  stepProducer run s <> None.
Proof.
  intros Hi He Hs. unfold stepProducer.
  destruct (producer s) as [|rest|repo rest|repo rest| |rest|rest].
  - now elim Hi.
  - destruct rest; [discriminate|]. destruct (filterIn run r); discriminate.
  - destruct (ctxDone s || doneClosed s); discriminate.
  - destruct (Hs repo rest eq_refl) as [Hc|Hc]; rewrite Hc; [discriminate|].
    destruct (repoClosed s); discriminate.
  - destruct (doneClosed s); discriminate.
  - destruct (repoClosed s); discriminate.
  - now elim (He rest).
Qed.

(** While the caller waits for the workers, one of them or the producer can
    move. *)
Lemma waiting_can_step (run : Run) (s : State) :
  0 < nOfWorkers run ->
  capacityInv run s ->
  progressInv s ->
  panicked s = false ->
  producer s <> PIdle ->
  waitDone s = false ->
  exists l, l <> LCancel /\ step run l s <> None.
Proof.
  intros Hn HC (HX & _ & _) Hp Hi Hw.
  destruct (notDone_pos_nth _ (forallb_isDone_notDone _ Hw)) as (i & x & En & Hx).
  destruct (repoC s) as [|r q] eqn:Eq; [destruct (repoClosed s) eqn:Ec|].
  - exists (LWorker i). split; [discriminate|]. unfold step. rewrite Hp.
    apply (worker_can_step run s i x HC En Hx). intros _. now right.
  - destruct x;
      try (exists (LWorker i); split; [discriminate|]; unfold step; rewrite Hp;
           apply (worker_can_step run s i _ HC En Hx); intros Hq; discriminate Hq).
    exists LProducer. split; [discriminate|]. unfold step. rewrite Hp.
    apply producer_can_step; [exact Hi | |].
    + intros rest E. discriminate (HX rest E).
    + intros repo rest _. right. unfold hasRoom. rewrite Eq. simpl.
      now apply Z.ltb_lt.
  - exists (LWorker i). split; [discriminate|]. unfold step. rewrite Hp.
    apply (worker_can_step run s i x HC En Hx). intros _. left. rewrite Eq.
    discriminate.
Qed.

(** X18.  Started with at least one worker, the dispatcher cannot deadlock:
    until the call has returned or the process has panicked, some goroutine
    (the caller, the producer or a worker) can take a step, whether or not
    the context is ever cancelled. *)
Theorem dispatcher_never_deadlocks (run : Run) (schedule : list Label) (s : State) :
  0 < nOfWorkers run ->
  exec run schedule (initial run) = Some s ->
  panicked s = false ->
  (forall res err, main s <> MReturned res err) ->
  exists l, l <> LCancel /\ step run l s <> None.
Proof.
  intros Hn Hr Hp Hm.
  pose proof (capacityInv_reachable run schedule s Hr) as HC.
  pose proof (progressInv_reachable run schedule s Hr) as HP.
  assert (Hmain : stepMain run s <> None ->
                  exists l, l <> LCancel /\ step run l s <> None).
  { intros H. exists LMain. split; [discriminate|]. unfold step. now rewrite Hp. }
  assert (Hwait : producer s <> PIdle -> waitDone s = false ->
                  exists l, l <> LCancel /\ step run l s <> None)
    by (apply waiting_can_step; assumption).
  pose proof HP as (HX & HL & HM).
  destruct (main s) as [pages| |e|e|e| | | | | | |res err|res err] eqn:Em;
    try (apply Hmain; unfold stepMain; rewrite Em;
         repeat match goal with
                | |- context [match ?x with _ => _ end] => destruct x
                end; discriminate);
    try (destruct (waitDone s) eqn:Ew;
         [ apply Hmain; unfold stepMain; rewrite Em, Ew; discriminate
         | apply Hwait; [exact HM | reflexivity] ]).
  - (* the outer select *)
    destruct HM as [Hi Hcount].
    destruct (errC s) as [|e q] eqn:Ee.
    2:{ exists LMainErr. split; [discriminate|]. unfold step, stepSelect.
        rewrite Hp, Em, Ee. discriminate. }
    destruct (ctxDone s) eqn:Ec.
    { exists LMainCtx. split; [discriminate|]. unfold step, stepSelect.
      rewrite Hp, Em, Ec. discriminate. }
    destruct (doneClosed s) eqn:Ed.
    { exists LMainDone. split; [discriminate|]. unfold step, stepSelect.
      rewrite Hp, Em, Ed. discriminate. }
    assert (Hopen : repoClosed s = false).
    { destruct (repoClosed s) eqn:Er; [|reflexivity].
      pose proof (channelsInv_reachable run schedule s Hr) as (HR & _).
      destruct (HR Er) as [rest Hpr]. rewrite Hpr in HL.
      destruct (HL I); discriminate. }
    destruct (hasRoom (repoC s) (nOfWorkers run)) eqn:Eroom.
    + exists LProducer. split; [discriminate|]. unfold step. rewrite Hp.
      apply producer_can_step; [exact Hi | |].
      * intros rest E. rewrite (HX rest E) in Hopen. discriminate Hopen.
      * intros repo rest _. now right.
    + destruct (notDone (workers s)) as [|k] eqn:Ek.
      * exfalso. specialize (Hcount Hopen). simpl in Hcount.
        destruct HC as [_ HC]. rewrite Em in HC. lia.
      * destruct (notDone_pos_nth (workers s)) as (i & x & En & Hx); [lia|].
        exists (LWorker i). split; [discriminate|]. unfold step. rewrite Hp.
        apply (worker_can_step run s i x HC En Hx). intros _. left.
        intros E. rewrite E in Eroom. unfold hasRoom in Eroom. simpl in Eroom.
        apply Z.ltb_ge in Eroom. lia.
  - now elim (Hm res err).
Qed.

(** X18 at the scenario, while the caller waits in its [select]. *)
Lemma dispatcher_never_deadlocks_witness :
  exists l, l <> LCancel /\ step scenarioRun l cancelledState <> None.
Proof.
  apply (dispatcher_never_deadlocks scenarioRun cancelledSchedule cancelledState).
  - reflexivity.
  - vm_compute. reflexivity.
  - reflexivity.
  - intros res err. vm_compute. discriminate.
Defined.

Lemma workersRank_setNth (l : list WorkerState) (i : nat) (x y : WorkerState) :
  nth_error l i = Some x ->
  (workersRank (setNth i y l) + workerRank x = workersRank l + workerRank y)%nat.
Proof.
  revert i. induction l as [|z l IH]; intros i H; [destruct i; discriminate|].
  destruct i; simpl in *.
  - injection H as ->. lia.
  - specialize (IH i H). lia.
Qed.

Lemma workersRank_repeat (n : nat) : workersRank (repeat WRecv n) = n.
Proof. induction n; simpl; [reflexivity | now rewrite IHn]. Qed.

Lemma afterProcess_rank (repo : Repository) (outcome : option error) :
  workerRank (fst (afterProcess repo outcome)) = 1%nat.
Proof.
  unfold afterProcess. destruct outcome as [e|]; [|reflexivity].
  destruct (isNoDefaultBranch e); reflexivity.
Qed.

Lemma stepsLeft_step (run : Run) (l : Label) (s s' : State) :
  channelsInv s -> capacityInv run s -> step run l s = Some s' ->
  (moves [l] + stepsLeft run s' <= stepsLeft run s)%nat.
Proof.
  intros HC HK H.
  destruct s as [rc rcl ec ecl dc cx f i p pr ws m lg pn].
  unfold step in H. simpl in H. destruct pn; [discriminate|].
  unfold channelsInv, capacityInv, stepsLeft in *. simpl in *.
  destruct HC as (_ & _ & _ & _ & HS). destruct HK as [_ HW].
  destruct l; simpl in H.
  - unfold stepMain, waitDone in H; simpl in H.
    destruct m; crunch H; injection H as <-; simpl; try lia.
    destruct HS as [_ ->]. subst ws. rewrite workersRank_repeat. simpl. lia.
  - unfold stepSelect in H; simpl in H.
    destruct m; crunch H; injection H as <-; simpl; lia.
  - unfold stepSelect in H; simpl in H.
    destruct m; crunch H; injection H as <-; simpl; lia.
  - unfold stepSelect in H; simpl in H.
    destruct m; crunch H; injection H as <-; simpl; lia.
  - unfold stepProducer in H; simpl in H.
    destruct pr; crunch H; injection H as <-; simpl;
      rewrite ?length_app; simpl; lia.
  - unfold stepWorker in H; simpl in H.
    destruct (nth_error ws i0) as [x|] eqn:En; [|discriminate].
    destruct x; crunch H; try discriminate H; injection H as <-; simpl;
      try lia;
      match goal with
      | |- context [setNth i0 ?y ws] =>
          pose proof (workersRank_setNth ws i0 _ y En) as Hr; simpl in Hr
      end;
      try lia.
    pose proof (afterProcess_rank repo (process run repo)) as Hw.
    rewrite Heqp0 in Hw. simpl in Hw. lia.
  - injection H as <-. simpl. lia.
Qed.

Lemma stepsLeft_exec (run : Run) (schedule : list Label) (s s' : State) :
  channelsInv s -> capacityInv run s -> exec run schedule s = Some s' ->
  (moves schedule + stepsLeft run s' <= stepsLeft run s)%nat.
Proof.
  revert s. induction schedule as [|l rest IH]; intros s HC HK H; simpl in H.
  - injection H as <-. simpl. lia.
  - destruct (step run l s) as [s1|] eqn:E; [|discriminate].
    pose proof (stepsLeft_step run l s s1 HC HK E) as H1.
    pose proof (IH s1 (channelsInv_step run l s s1 HC E)
                   (capacityInv_step run l s s1 HK E) H) as H2.
    destruct l; simpl in *; lia.
Qed.

(** X19.  The dispatcher terminates: whatever the schedule, the goroutines
    together take at most six steps per record, one per page and per worker
    and ten more; cancelling the context adds none.  As some goroutine can
    always move, every run ends with the call returning or with a panic. *)
Theorem dispatcher_terminates (run : Run) (schedule : list Label) (s : State) :
  exec run schedule (initial run) = Some s ->
  (moves schedule + stepsLeft run s
   <= 6 * List.length (List.concat (repoPages run)) + List.length (repoPages run)
      + Z.to_nat (nOfWorkers run) + 10)%nat.
Proof.
  intros H.
  pose proof (stepsLeft_exec run schedule (initial run) s
                (channelsInv_reachable run [] _ eq_refl)
                (capacityInv_reachable run [] _ eq_refl) H) as Hb.
  unfold stepsLeft at 2 in Hb. simpl in Hb. lia.
Qed.

(** X19 at the scenario: its 39 steps are within the bound of 51. *)
Lemma dispatcher_terminates_witness :
  exists s,
    exec scenarioRun scenarioSchedule (initial scenarioRun) = Some s /\
    (moves scenarioSchedule + stepsLeft scenarioRun s
     <= 6 * List.length (List.concat (repoPages scenarioRun))
        + List.length (repoPages scenarioRun)
        + Z.to_nat (nOfWorkers scenarioRun) + 10)%nat.
Proof.
  eexists. split; [vm_compute; reflexivity|].
  apply (dispatcher_terminates scenarioRun scenarioSchedule). vm_compute. reflexivity.
Defined.

(** * Properties of package exec *)

Lemma list_pair_ind {A : Type} (P : list A -> Prop) :
  P [] -> (forall x, P [x]) ->
  (forall k v rest, P rest -> P (k :: v :: rest)) ->
  forall l, P l.
Proof.
  intros H0 H1 H2.
  assert (H : forall l, P l /\ forall x, P (x :: l)).
  { induction l as [|a l [IH1 IH2]]; split; auto. }
  intros l. apply H.
Qed.

Lemma appendPairs_shift (k v : string) (rest : list string) (i n : nat)
      (acc : list string) :
  Exec.appendPairs (k :: v :: rest) (S i) n acc = Exec.appendPairs rest i n acc.
Proof.
  revert i acc. induction n as [|n IH]; intros i acc; [reflexivity|].
  cbn [Exec.appendPairs].
  replace (2 * S i)%nat with (S (S (2 * i))) by lia.
  replace (S (S (2 * i)) + 1)%nat with (S (S (2 * i + 1))) by lia.
  cbn [nth_error].
  destruct (nth_error rest (2 * i)) as [a|]; [|reflexivity].
  destruct (nth_error rest (2 * i + 1)) as [b|]; [|reflexivity].
  apply IH.
Qed.

Lemma half_SS (n : nat) : (S (S n) / 2 = S (n / 2))%nat.
Proof.
  replace (S (S n)) with (n + 1 * 2)%nat by lia.
  rewrite Nat.div_add by lia. lia.
Qed.

Lemma mod2_SS (n : nat) : (S (S n) mod 2 = n mod 2)%nat.
Proof.
  replace (S (S n)) with (n + 1 * 2)%nat by lia.
  apply Nat.Div0.mod_add.
Qed.

Lemma appendPairs_all (kv : list string) (acc : list string) :
  Exec.appendPairs
    (if negb (List.length kv mod 2 =? 0)%nat
     then firstn (List.length kv - 1) kv else kv)
    0 (List.length kv / 2) acc
  = Some (acc ++ pairUp kv).
Proof.
  revert acc. induction kv as [|x|k v rest IH] using list_pair_ind; intros acc.
  - simpl. now rewrite app_nil_r.
  - simpl. now rewrite app_nil_r.
  - cbn [List.length]. rewrite half_SS, mod2_SS.
    assert (Hkv : (if negb (List.length rest mod 2 =? 0)%nat
                   then firstn (S (S (List.length rest)) - 1) (k :: v :: rest)
                   else k :: v :: rest)
                  = k :: v :: (if negb (List.length rest mod 2 =? 0)%nat
                               then firstn (List.length rest - 1) rest else rest)).
    { destruct (List.length rest mod 2 =? 0)%nat eqn:E; [reflexivity|].
      simpl negb. cbv iota.
      destruct (List.length rest) as [|n] eqn:El; [discriminate E|].
      simpl. rewrite Nat.sub_0_r. reflexivity. }
    rewrite Hkv. cbn [Exec.appendPairs]. simpl nth_error. cbv iota.
    rewrite appendPairs_shift, IH, <- app_assoc. reflexivity.
Qed.

(** X20.  [WithEnv] never indexes out of range and returns an execer in the
    same directory whose environment is the old one followed by one
    [key=value] entry for every two arguments, in their order; a last key
    without value is dropped and a single argument changes nothing. *)
Theorem WithEnv_pairs (e : Exec.execer) (kv : list string) :
  Exec.WithEnv e kv = Some (Exec.mkExecer (Exec.dir e) (Exec.env e ++ pairUp kv)).
Proof.
  unfold Exec.WithEnv. destruct e as [d ev]. cbn [Exec.env Exec.dir]. cbv zeta.
  destruct (List.length kv <=? 1)%nat eqn:E.
  - apply Nat.leb_le in E.
    destruct kv as [|x [|y kv]]; simpl in *; try lia; now rewrite app_nil_r.
  - now rewrite appendPairs_all.
Qed.

(** X21.  Whatever [RunX] answers for a command that exits with a non-zero
    code keeps the command's output and its stderr: the stdout is returned
    beside the error, and [GetStderr] finds the stderr in that error, also
    after [wrapErrIfNotNil] has wrapped it; for exit code 0 the error is nil
    and stays nil through the wrapping. *)
Theorem RunX_stderr_round_trip (res : Exec.Result) (command : string)
        (args : list string) (message : string) :
  fst (Exec.RunX (inl res) command args) = Exec.Stdout res /\
  (Exec.ExitCode res <> 0 ->
   Exec.GetStderr (Exec.wrapErrIfNotNil message
                     (snd (Exec.RunX (inl res) command args)))
   = (Exec.Stderr res, true) /\
   Exec.GetStderr (snd (Exec.RunX (inl res) command args)) = (Exec.Stderr res, true)) /\
  (Exec.ExitCode res = 0 ->
   Exec.wrapErrIfNotNil message (snd (Exec.RunX (inl res) command args)) = None).
Proof.
  unfold Exec.RunX, Exec.NewExecErr.
  destruct (Exec.ExitCode res =? 0) eqn:E; simpl.
  - apply Z.eqb_eq in E. repeat split; congruence.
  - apply Z.eqb_neq in E. repeat split; congruence.
Qed.

(** * The command line and the entry point, end to end *)

(** X22.  After a run of the command line that ends without error, the
    line [Processed] reports the number of listed repositories that the
    search filter selects (the default filter for an empty expression, else
    those on which the expression evaluates to [true]), and the line
    [Filtered] reports the number of all listed repositories. *)
Theorem cli_report_counts (fold : string -> string -> bool) (cel : Compiler)
        (cond : string) (f : LoggingFilter)
        (perPage p : Z) (pages : list (list Repository)) (n : Z)
        (processor : Repository -> option error)
        (schedule : list Label) (s : State) (res : Result) :
  parseSearchFilterIn cel cond = inl f ->
  exec (cliRun fold f perPage p pages n processor) schedule
       (initial (cliRun fold f perPage p pages n processor)) = Some s ->
  main s = MReturned res None ->
  cliReport res
  = [ ("Processed "
       ++ Fmt.decimal (Z.of_nat (List.length (filter (selects cel cond)
                                                     (List.concat pages))))
       ++ " repositories")%string;
      ("Filtered " ++ Fmt.decimal (Z.of_nat (List.length (List.concat pages)))
       ++ " repositories")%string ].
Proof.
  intros Hf H E.
  rewrite (clean_completion_counts _ schedule s res H E).
  unfold cliReport, finalResult, pagesLength, cliRun. simpl.
  assert (Hx : forall r, MakeFilterIn fold (cliSearchOptions f perPage p) r
                         = selects cel cond r).
  { intros r. rewrite MakeFilterIn_cli. unfold selects.
    unfold parseSearchFilterIn in Hf.
    destruct (GoStrings.isEmpty cond).
    - injection Hf as <-. reflexivity.
    - destruct (cel cond) as [prg|e]; [|discriminate].
      injection Hf as <-. unfold celFilterIn.
      destruct (prg (repoMap r)) as [[b| | | |]|e]; reflexivity. }
  rewrite (filter_ext _ _ Hx). reflexivity.
Qed.

(** X22 at the scenario: four of six repositories are selected. *)
Lemma cli_report_counts_witness :
  cliReport (mkResult 6 6 4)
  = [ ("Processed "
       ++ Fmt.decimal (Z.of_nat (List.length (filter (selects rejectAll EmptyString)
                                                     (List.concat (repoPages scenarioRun)))))
       ++ " repositories")%string;
      ("Filtered "
       ++ Fmt.decimal (Z.of_nat (List.length (List.concat (repoPages scenarioRun))))
       ++ " repositories")%string ].
Proof.
  eapply (cli_report_counts String.eqb rejectAll EmptyString
            (fun r => (defaultSearchFilterIn r, [])) 100 (-1)
            (repoPages scenarioRun) 2 (process scenarioRun) scenarioSchedule).
  - reflexivity.
  - vm_compute. reflexivity.
  - reflexivity.
Defined.

(** X23.  [RunForOrganization] ends in one of four ways.  Options that fail
    the validation ([PerPage] negative, or [Page] below -1) give the zero
    [Result] with no command run.  Otherwise exactly one [gh api] command
    is run, on the arguments built from the options; if it fails, or if its
    output cannot be decoded, the zero [Result] is returned with the error;
    each of these returns ends by asking for the removal of the clones'
    directory.  Only after a listing that was fetched and decoded is the
    dispatcher started: on the decoded pages, with the filter compiled from
    the search options, and with [NumberOfWorkers] workers when that number
    is positive and ten otherwise. *)
Theorem RunForOrganization_outcomes (w : World) (orgName : string)
        (searchOpts : SearchOptions) (opts : Options) (t : list Event) :
  let args := organizationArgs w searchOpts ++ pageFlags searchOpts
              ++ [pagedTarget orgName searchOpts] in
  let answer := onRunX w t "." "gh" args in
  match fst (RunForOrganization w orgName searchOpts opts t) with
  | Returned res err =>
      res = zeroResult /\
      ((PerPage searchOpts < 0 /\
        err = ErrNew "invalid negative SearchOptions.PerPage" /\
        snd (RunForOrganization w orgName searchOpts opts t)
        = t ++ [EvRemoveAll (reposDir w)]) \/
       (0 <= PerPage searchOpts /\ soPage searchOpts < -1 /\
        err = ErrNew "invalid negative SearchOptions.Page" /\
        snd (RunForOrganization w orgName searchOpts opts t)
        = t ++ [EvRemoveAll (reposDir w)]) \/
       (0 <= PerPage searchOpts /\ -1 <= soPage searchOpts /\
        snd (RunForOrganization w orgName searchOpts opts t)
        = t ++ [EvRunX "." "gh" args; EvRemoveAll (reposDir w)] /\
        ((exists e, snd answer = Some e /\
                    err = ErrWrapf "fetching repositories: %w" []
                                   (ErrOrGHAPIErr w (fst answer) e)) \/
         (exists e, snd answer = None /\
                    scanRepoPages w (fst answer) = inr e /\
                    err = ErrWrapf "processing repositories pages: %w" [] e))))
  | Dispatch pages n f =>
      0 <= PerPage searchOpts /\ -1 <= soPage searchOpts /\
      snd (RunForOrganization w orgName searchOpts opts t)
      = t ++ [EvRunX "." "gh" args] /\
      snd answer = None /\
      scanRepoPages w (fst answer) = inl pages /\
      f = MakeFilterIn (equalFoldUnicode w) searchOpts /\
      0 < n /\
      (0 < NumberOfWorkers opts -> n = NumberOfWorkers opts) /\
      (NumberOfWorkers opts <= 0 -> n = 10)
  end.
Proof.
  cbv zeta.
  destruct (Z_lt_ge_dec (PerPage searchOpts) 0) as [Hpp|Hpp].
  { rewrite (RunForOrganization_refused w orgName searchOpts opts t _
               (listingTarget_negative_perPage orgName searchOpts Hpp)).
    simpl. split; [reflexivity|]. left. split; [exact Hpp|]. split; reflexivity. }
  assert (Hpp' : 0 <= PerPage searchOpts) by lia.
  destruct (Z_lt_ge_dec (soPage searchOpts) (-1)) as [Hpg|Hpg].
  { rewrite (RunForOrganization_refused w orgName searchOpts opts t _
               (listingTarget_negative_page orgName searchOpts Hpp' Hpg)).
    simpl. split; [reflexivity|]. right. left.
    split; [exact Hpp'|]. split; [exact Hpg|]. split; reflexivity. }
  assert (Hpg' : -1 <= soPage searchOpts) by lia.
  rewrite (RunForOrganization_request w orgName searchOpts opts t _ _
             (listingTarget_valid orgName searchOpts Hpp' Hpg')).
  cbv zeta.
  destruct (onRunX w t "." "gh" _) as [payload [e|]]; simpl.
  - split; [reflexivity|]. right. right.
    split; [exact Hpp'|]. split; [exact Hpg'|]. split; [reflexivity|].
    left. exists e. split; reflexivity.
  - destruct (scanRepoPages w payload) as [pages|e] eqn:Es; simpl.
    + split; [exact Hpp'|]. split; [exact Hpg'|]. split; [reflexivity|].
      split; [reflexivity|]. split; [reflexivity|]. split; [reflexivity|].
      unfold numberOfWorkers, defaultNumberOfWorkers.
      destruct (NumberOfWorkers opts >? 0) eqn:En.
      * apply Z.gtb_lt in En. split; [exact En|]. split; [reflexivity | lia].
      * rewrite Z.gtb_ltb in En. apply Z.ltb_ge in En.
        split; [lia|]. split; [lia | reflexivity].
    + split; [reflexivity|]. right. right.
      split; [exact Hpp'|]. split; [exact Hpg'|]. split; [reflexivity|].
      right. exists e. split; [reflexivity|]. split; reflexivity.
Qed.






(** * Which records are processed *)

Lemma notDone_all_done (ws : list WorkerState) :
  forallb isDone ws = true -> notDone ws = O.
Proof.
  induction ws as [|w ws IH]; simpl; [reflexivity|].
  destruct (isDone w); simpl; [exact IH | discriminate].
Qed.

Lemma servedInv_step (run : Run) (l : Label) (s s' : State) :
  channelsInv s -> capacityInv run s -> progressInv s -> servedInv run s ->
  step run l s = Some s' -> servedInv run s'.
Proof.
  intros HC HK HP HI H.
  destruct s as [rc rcl ec ecl dc cx f i p pr ws m lg pn].
  unfold step in H. simpl in H. destruct pn; [discriminate|].
  unfold servedInv, channelsInv, capacityInv, progressInv, finished, waitDone in *.
  simpl in *.
  destruct HI as (HD & HQ & HL & HM).
  destruct HC as (HR & _ & HW & _ & HS).
  destruct HK as [_ HN]. destruct HP as (_ & _ & HE).
  destruct l; simpl in H.
  - unfold stepMain, waitDone in H; simpl in H.
    destruct m; crunch H; injection H as <-; simpl in *;
      try (split; [tauto | split; [tauto | split; [exact HL | first [exact HM | exact I | tauto]]]]).
    + (* the goroutines start *)
      destruct HE as [-> ->]. destruct HS as [-> ->].
      split; [intros Hd; destruct (HD Hd) as [[Hf|Hf]|[]]; discriminate Hf|].
      split; [intros []|]. split; [exact HL|]. left.
      rewrite repeat_length, notDone_repeat. simpl. lia.
    + (* [errC] is found empty *)
      split; [tauto|]. split; [tauto|]. split; [exact HL|].
      destruct HM as [HM|[_ HM]]; [|exact HM].
      rewrite (notDone_all_done _ (HW I)) in HM. simpl in HM.
      rewrite HN in HM.
      destruct rc; [reflexivity | simpl in HL, HM; lia].
  - unfold stepSelect in H; simpl in H.
    destruct m; crunch H; injection H as <-; simpl in *;
      (split; [tauto | split; [tauto | split; [exact HL | first [exact I | tauto]]]]).
  - unfold stepSelect in H; simpl in H.
    destruct m; crunch H; injection H as <-; simpl in *;
      (split; [tauto | split; [tauto | split; [exact HL | first [exact I | tauto]]]]).
  - unfold stepSelect in H; simpl in H.
    destruct m; crunch H; injection H as <-; simpl in *;
      (split; [tauto | split; [tauto | split; [exact HL | first [exact I | tauto]]]]).
  - unfold stepProducer in H; simpl in H.
    destruct pr as [|rest|repo rest|repo rest| |rest|rest];
      crunch H; injection H as <-; simpl in *;
      (split; [|split; [|split]]);
      try exact HL; try exact HQ; try exact HD; try solve [intros _; reflexivity];
      try solve [intros Hd; left; left; reflexivity];
      try solve [intros Hd; destruct (HD Hd) as [[Hf|Hf]|Hc];
                 [ first [discriminate Hf | injection Hf as ->; left; right; reflexivity]
                 | first [discriminate Hf | injection Hf as ->; left; right; reflexivity]
                 | right; exact Hc ]];
      try solve [unfold hasRoom in *; rewrite length_app; simpl;
                 match goal with
                 | Hroom : (_ <? _) = true |- _ => apply Z.ltb_lt in Hroom; lia
                 end];
      try solve [destruct m as [pages| |e|e|e| | | | | | |res [err|]|res [err|]];
                 simpl in *; try exact I; try exact HM;
                 try (destruct HM as [HM|[HM _]]; [left; exact HM | discriminate HM]);
                 try (exfalso; destruct (HD (HQ I)) as [[Hf|Hf]|Hc];
                      [discriminate Hf | discriminate Hf | exact Hc])].
  - unfold stepWorker in H; simpl in H.
    destruct (nth_error ws i0) as [x|] eqn:En; [|discriminate].
    assert (Hws : forall y, isDone y = isDone x ->
                  notDone (setNth i0 y ws) = notDone ws).
    { intros y Hy. pose proof (notDone_setNth ws i0 x y En) as Hnd.
      rewrite Hy in Hnd. destruct (isDone x); lia. }
    destruct x; crunch H; try discriminate H; injection H as <-; simpl in *;
      (split; [exact HD | split; [exact HQ | split; [|] ] ]);
      try exact HL; try (simpl in HL; lia).
    all: destruct m as [pages| |e0|e0|e0| | | | | | |res [err|]|res [err|]];
      simpl in *; try exact I; try exact HM; try discriminate HM;
      try (right; split; reflexivity);
      (destruct HM as [HM|[Hc Hr]];
       [left | first [discriminate Hr | right; split; assumption]]);
      rewrite ?length_setNth, ?length_app; simpl;
      try (rewrite Hws by reflexivity; exact HM);
      try (pose proof (notDone_setNth ws i0 _ WDone En) as Hnd; simpl in Hnd; lia).
    all: pose proof (afterProcess_not_done repo (process run repo)) as Hd;
      rewrite Heqp0 in Hd; simpl in Hd; rewrite (Hws w Hd); exact HM.
  - injection H as <-. simpl. split; [exact HD|]. split; [exact HQ|].
    split; [exact HL | exact HM].
Qed.

Lemma dispatcherInv_step (run : Run) (l : Label) (s s' : State) :
  dispatcherInv run s -> step run l s = Some s' -> dispatcherInv run s'.
Proof.
  intros (HC & HK & HP & HS) H. split; [|split; [|split]].
  - exact (channelsInv_step run l s s' HC H).
  - exact (capacityInv_step run l s s' HK H).
  - exact (progressInv_step run l s s' HC HP H).
  - exact (servedInv_step run l s s' HC HK HP HS H).
Qed.

Lemma dispatcherInv_initial (run : Run) : dispatcherInv run (initial run).
Proof.
  split; [|split; [|split]].
  - exact (channelsInv_reachable run [] _ eq_refl).
  - exact (capacityInv_reachable run [] _ eq_refl).
  - exact (progressInv_reachable run [] _ eq_refl).
  - unfold servedInv, initial. simpl.
    split; [discriminate|]. split; [intros []|]. split; [lia | exact I].
Qed.

Lemma dispatcherInv_reachable (run : Run) (schedule : list Label) (s : State) :
  exec run schedule (initial run) = Some s -> dispatcherInv run s.
Proof.
  apply (invariant_exec run (dispatcherInv run) (dispatcherInv_step run)).
  apply dispatcherInv_initial.
Qed.

(** ** Records move from the producer to the workers, none is copied *)

Lemma held_setNth (ws : list WorkerState) (i : nat) (x y : WorkerState) :
  nth_error ws i = Some x ->
  Permutation (heldByWorker x ++ flat_map heldByWorker (setNth i y ws))
              (heldByWorker y ++ flat_map heldByWorker ws).
Proof.
  revert i. induction ws as [|z ws IH]; intros i H; [destruct i; discriminate|].
  destruct i; simpl in *.
  - injection H as ->. apply Permutation_app_swap_app.
  - specialize (IH i H).
    rewrite (Permutation_app_swap_app (heldByWorker x)),
            (Permutation_app_swap_app (heldByWorker y)).
    now apply Permutation_app_head.
Qed.

Lemma held_repeat (n : nat) : flat_map heldByWorker (repeat WRecv n) = [].
Proof. induction n; simpl; auto. Qed.

Lemma held_all_done (ws : list WorkerState) :
  forallb isDone ws = true -> flat_map heldByWorker ws = [].
Proof.
  induction ws as [|w ws IH]; simpl; [reflexivity|].
  destruct w; simpl; try discriminate. exact IH.
Qed.

Lemma pending_step (run : Run) (l : Label) (s s' : State) :
  channelsInv s -> capacityInv run s -> step run l s = Some s' ->
  Permutation (processedAt l s ++ lostAt l s ++ pending run s') (pending run s).
Proof.
  intros HC HK H.
  destruct s as [rc rcl ec ecl dc cx f i p pr ws m lg pn].
  unfold step in H. simpl in H. destruct pn; [discriminate|].
  unfold channelsInv, capacityInv, pending, processedAt, lostAt in *. simpl in *.
  destruct HC as (_ & _ & _ & _ & HS). destruct HK as [_ HN].
  destruct l; simpl in H.
  - unfold stepMain, waitDone in H; simpl in H.
    destruct m; crunch H; injection H as <-; simpl; try reflexivity.
    destruct HS as [_ ->]. subst ws. rewrite held_repeat. reflexivity.
  - unfold stepSelect in H; simpl in H.
    destruct m; crunch H; injection H as <-; simpl; reflexivity.
  - unfold stepSelect in H; simpl in H.
    destruct m; crunch H; injection H as <-; simpl; reflexivity.
  - unfold stepSelect in H; simpl in H.
    destruct m; crunch H; injection H as <-; simpl; reflexivity.
  - unfold stepProducer in H; simpl in H.
    destruct pr as [|rest|repo rest|repo rest| |rest|rest]; try discriminate.
    + destruct rest as [|repo rest]; [injection H as <-; reflexivity|].
      destruct (filterIn run repo) eqn:Ef; injection H as <-; simpl;
        rewrite Ef; reflexivity.
    + destruct (cx || dc); injection H as <-; simpl; [|reflexivity].
      rewrite !app_assoc. apply Permutation_middle.
    + crunch H; injection H as <-; simpl; try reflexivity.
      rewrite <- app_assoc. reflexivity.
    + crunch H; injection H as <-; reflexivity.
    + crunch H; injection H as <-; reflexivity.
  - unfold stepWorker in H; simpl in H.
    destruct (nth_error ws i0) as [x|] eqn:En; [|discriminate].
    destruct x as [|repo|repo|e|].
    + destruct rc as [|repo q].
      * destruct rcl; [|discriminate]. injection H as <-. simpl.
        apply Permutation_app_tail.
        exact (held_setNth ws i0 WRecv WDone En).
      * injection H as <-. simpl.
        pose proof (held_setNth ws i0 WRecv (WSelect repo) En) as Hh. simpl in Hh.
        rewrite (Permutation_app_tail _ Hh). simpl. apply Permutation_middle.
    + destruct cx; injection H as <-; simpl.
      * pose proof (held_setNth ws i0 (WSelect repo) WRecv En) as Hh. simpl in Hh.
        exact (Permutation_app_tail _ Hh).
      * pose proof (held_setNth ws i0 (WSelect repo) (WProcess repo) En) as Hh.
        simpl in Hh. apply Permutation_cons_inv in Hh.
        exact (Permutation_app_tail _ Hh).
    + destruct (afterProcess repo (process run repo)) as [w lrec] eqn:Ea.
      injection H as <-. simpl.
      pose proof (held_setNth ws i0 (WProcess repo) w En) as Hh. simpl in Hh.
      assert (Hw : heldByWorker w = []).
      { unfold afterProcess in Ea. destruct (process run repo) as [e|].
        - destruct (isNoDefaultBranch e); injection Ea as <- _; reflexivity.
        - injection Ea as <- _. reflexivity. }
      rewrite Hw in Hh. simpl in Hh. exact (Permutation_app_tail _ Hh).
    + destruct ecl; [injection H as <-; reflexivity|].
      destruct (hasRoom ec (nOfWorkers run)); [|discriminate].
      injection H as <-. simpl. apply Permutation_app_tail.
      exact (held_setNth ws i0 (WSendErr e) WDone En).
    + discriminate.
  - injection H as <-. reflexivity.
Qed.

Lemma pending_exec (run : Run) (schedule : list Label) (s s' : State) :
  dispatcherInv run s -> exec run schedule s = Some s' ->
  Permutation (processedBy run schedule s ++ lostBy run schedule s ++ pending run s')
              (pending run s).
Proof.
  revert s. induction schedule as [|l rest IH]; intros s HI H; simpl in *.
  - injection H as <-. reflexivity.
  - destruct (step run l s) as [s1|] eqn:E; [|discriminate].
    pose proof HI as (HC & HK & _).
    rewrite <- (pending_step run l s s1 HC HK E).
    rewrite <- (IH s1 (dispatcherInv_step run l s s1 HI E) H).
    rewrite <- !app_assoc. apply Permutation_app_head.
    apply Permutation_app_swap_app.
Qed.

Lemma ctxDone_step (run : Run) (l : Label) (s s' : State) :
  step run l s = Some s' -> ctxDone s = true -> ctxDone s' = true.
Proof.
  intros H Hc.
  destruct s as [rc rcl ec ecl dc cx f i p pr ws m lg pn].
  unfold step in H. simpl in *. subst cx. destruct pn; [discriminate|].
  destruct l; simpl in H.
  - unfold stepMain, waitDone in H; simpl in H.
    destruct m; crunch H; injection H as <-; reflexivity.
  - unfold stepSelect in H; simpl in H.
    destruct m; crunch H; injection H as <-; reflexivity.
  - unfold stepSelect in H; simpl in H.
    destruct m; crunch H; injection H as <-; reflexivity.
  - unfold stepSelect in H; simpl in H.
    destruct m; crunch H; injection H as <-; reflexivity.
  - unfold stepProducer in H; simpl in H.
    destruct pr; crunch H; injection H as <-; reflexivity.
  - unfold stepWorker in H; simpl in H.
    destruct (nth_error ws i0) as [[| | | |]|]; crunch H; try discriminate H;
      injection H as <-; reflexivity.
  - injection H as <-. reflexivity.
Qed.

Lemma ctxDone_exec (run : Run) (schedule : list Label) (s s' : State) :
  exec run schedule s = Some s' -> ctxDone s = true -> ctxDone s' = true.
Proof.
  revert s. induction schedule as [|l rest IH]; intros s H Hc; simpl in H.
  - injection H as <-. exact Hc.
  - destruct (step run l s) as [s1|] eqn:E; [|discriminate].
    exact (IH s1 H (ctxDone_step run l s s1 E Hc)).
Qed.

Lemma callerClosedDone_step (run : Run) (l : Label) (s s' : State) :
  step run l s = Some s' -> callerClosedDone (main s) -> callerClosedDone (main s').
Proof.
  intros H Hc.
  destruct s as [rc rcl ec ecl dc cx f i p pr ws m lg pn].
  unfold step in H. simpl in *. destruct pn; [discriminate|].
  destruct l; simpl in H.
  - unfold stepMain, waitDone in H; simpl in H.
    destruct m; crunch H; injection H as <-; simpl in *; tauto.
  - unfold stepSelect in H; simpl in H.
    destruct m; crunch H; injection H as <-; simpl in *; tauto.
  - unfold stepSelect in H; simpl in H.
    destruct m; crunch H; injection H as <-; simpl in *; tauto.
  - unfold stepSelect in H; simpl in H.
    destruct m; crunch H; injection H as <-; simpl in *; tauto.
  - unfold stepProducer in H; simpl in H.
    destruct pr; crunch H; injection H as <-; exact Hc.
  - unfold stepWorker in H; simpl in H.
    destruct (nth_error ws i0) as [[| | | |]|]; crunch H; try discriminate H;
      injection H as <-; exact Hc.
  - injection H as <-. exact Hc.
Qed.

Lemma callerClosedDone_exec (run : Run) (schedule : list Label) (s s' : State) :
  exec run schedule s = Some s' ->
  callerClosedDone (main s) -> callerClosedDone (main s').
Proof.
  revert s. induction schedule as [|l rest IH]; intros s H Hc; simpl in H.
  - injection H as <-. exact Hc.
  - destruct (step run l s) as [s1|] eqn:E; [|discriminate].
    exact (IH s1 H (callerClosedDone_step run l s s1 E Hc)).
Qed.

(** Nothing is given up on the way to a return without error under a
    context that is never cancelled. *)
Lemma clean_run_loses_nothing (run : Run) (schedule : list Label) (s s' : State) :
  dispatcherInv run s -> exec run schedule s = Some s' ->
  ctxDone s' = false -> ~ callerClosedDone (main s') ->
  lostBy run schedule s = [].
Proof.
  revert s. induction schedule as [|l rest IH]; intros s HI H Hc Hm; simpl in *;
    [reflexivity|].
  destruct (step run l s) as [s1|] eqn:E; [|discriminate].
  rewrite (IH s1 (dispatcherInv_step run l s s1 HI E) H Hc Hm), app_nil_r.
  assert (Hcx : ctxDone s = false).
  { destruct (ctxDone s) eqn:Ec; [|reflexivity].
    pose proof (ctxDone_step run l s s1 E Ec) as H1.
    rewrite (ctxDone_exec run rest s1 s' H H1) in Hc. discriminate Hc. }
  unfold lostAt. rewrite Hcx. simpl.
  destruct l; try reflexivity.
  - destruct (producer s) as [|r0|repo r0|repo r0| |r0|r0] eqn:Ep; try reflexivity.
    destruct (doneClosed s) eqn:Ed; [|reflexivity].
    exfalso. apply Hm.
    destruct HI as (_ & _ & _ & (HD & _)).
    destruct (HD Ed) as [[Hf|Hf]|Hcc];
      [rewrite Ep in Hf; discriminate Hf | rewrite Ep in Hf; discriminate Hf |].
    apply (callerClosedDone_exec run rest s1 s' H).
    exact (callerClosedDone_step run LProducer s s1 E Hcc).
  - destruct (nth_error (workers s) i) as [[| | | |]|]; reflexivity.
Qed.

(** X25.  Under every schedule, whatever the workers process is drawn from
    the accepted records of the pages without repetition: taken together
    with the records given up or not yet processed, the processed records
    are exactly the records that the filter accepts, each as often as it is
    listed.  No record is processed twice and none that was not listed. *)
Theorem processed_at_most_once (run : Run) (schedule : list Label) (s : State) :
  exec run schedule (initial run) = Some s ->
  Permutation (processedBy run schedule (initial run)
               ++ lostBy run schedule (initial run) ++ pending run s)
              (filter (filterIn run) (List.concat (repoPages run))).
Proof.
  intros H.
  exact (pending_exec run schedule (initial run) s (dispatcherInv_initial run) H).
Qed.

(** X25 at the failing run: one record processed, four still pending. *)
Lemma processed_at_most_once_witness :
  exists s,
    exec failingRun failureSchedule (initial failingRun) = Some s /\
    Permutation (processedBy failingRun failureSchedule (initial failingRun)
                 ++ lostBy failingRun failureSchedule (initial failingRun)
                 ++ pending failingRun s)
                (filter (filterIn failingRun) (List.concat (repoPages failingRun))).
Proof.
  eexists. split; [vm_compute; reflexivity|].
  apply (processed_at_most_once failingRun failureSchedule). vm_compute. reflexivity.
Defined.

(** X26.  When the dispatcher returns without error and the context was
    never cancelled, every record that the filter accepts has been
    processed exactly once: the processed records are a permutation of the
    accepted records of all pages. *)
Theorem clean_run_processes_every_record (run : Run) (schedule : list Label)
        (s : State) (res : Result) :
  exec run schedule (initial run) = Some s ->
  main s = MReturned res None ->
  ctxDone s = false ->
  Permutation (processedBy run schedule (initial run))
              (filter (filterIn run) (List.concat (repoPages run))).
Proof.
  intros H Em Hc.
  pose proof (pending_exec run schedule (initial run) s (dispatcherInv_initial run) H)
    as HP.
  rewrite (clean_run_loses_nothing run schedule (initial run) s
             (dispatcherInv_initial run) H Hc) in HP
    by (rewrite Em; exact (fun x => x)).
  destruct (dispatcherInv_reachable run schedule s H)
    as ((_ & _ & HW & _) & _ & _ & (HD & HQ & _ & HM)).
  rewrite Em in *. simpl in *.
  assert (Hp : pending run s = []).
  { unfold pending. rewrite (held_all_done _ (HW I)), HM.
    destruct (HD (HQ I)) as [[Hf|Hf]|[]]; rewrite Hf; reflexivity. }
  rewrite Hp, !app_nil_r in HP. exact HP.
Qed.

(** X26 at the scenario: its four accepted records. *)
Lemma clean_run_processes_every_record_witness :
  Permutation (processedBy scenarioRun scenarioSchedule (initial scenarioRun))
              (filter (filterIn scenarioRun) (List.concat (repoPages scenarioRun))).
Proof.
  eapply (clean_run_processes_every_record scenarioRun scenarioSchedule).
  - vm_compute. reflexivity.
  - reflexivity.
  - reflexivity.
Defined.

(** ** The log of the dispatcher *)

Lemma logs_step (run : Run) (l : Label) (s s' : State) :
  step run l s = Some s' ->
  logs s' = logs s ++ warningsFor run (processedAt l s).
Proof.
  intros H.
  destruct s as [rc rcl ec ecl dc cx f i p pr ws m lg pn].
  unfold step in H. simpl in *. destruct pn; [discriminate|].
  unfold processedAt, warningsFor.
  destruct l; simpl in H; simpl.
  - unfold stepMain, waitDone in H; simpl in H.
    destruct m; crunch H; injection H as <-; simpl; now rewrite app_nil_r.
  - unfold stepSelect in H; simpl in H.
    destruct m; crunch H; injection H as <-; simpl; now rewrite app_nil_r.
  - unfold stepSelect in H; simpl in H.
    destruct m; crunch H; injection H as <-; simpl; now rewrite app_nil_r.
  - unfold stepSelect in H; simpl in H.
    destruct m; crunch H; injection H as <-; simpl; now rewrite app_nil_r.
  - unfold stepProducer in H; simpl in H.
    destruct pr; crunch H; injection H as <-; simpl; now rewrite app_nil_r.
  - unfold stepWorker in H; simpl in H.
    destruct (nth_error ws i0) as [[|repo|repo|e|]|]; try discriminate;
      try (crunch H; injection H as <-; simpl; now rewrite app_nil_r).
    simpl. rewrite app_nil_r. unfold afterProcess in H.
    destruct (process run repo) as [e|]; [destruct (isNoDefaultBranch e)|];
      injection H as <-; simpl; rewrite ?app_nil_r; reflexivity.
  - injection H as <-. simpl. now rewrite app_nil_r.
Qed.

Lemma logs_exec (run : Run) (schedule : list Label) (s s' : State) :
  exec run schedule s = Some s' ->
  logs s' = logs s ++ warningsFor run (processedBy run schedule s).
Proof.
  revert s. induction schedule as [|l rest IH]; intros s H; simpl in *.
  - injection H as <-. now rewrite app_nil_r.
  - destruct (step run l s) as [s1|] eqn:E; [|discriminate].
    rewrite (IH s1 H), (logs_step run l s s1 E). unfold warningsFor.
    rewrite flat_map_app, app_assoc. reflexivity.
Qed.

(** X27.  The dispatcher logs one warning for every processed record whose
    processing ended with the missing default branch, in the order in which
    the processing ended, and nothing else. *)
Theorem dispatcher_logs_skipped_records (run : Run) (schedule : list Label)
        (s : State) :
  exec run schedule (initial run) = Some s ->
  logs s = warningsFor run (processedBy run schedule (initial run)).
Proof. intros H. exact (logs_exec run schedule (initial run) s H). Qed.

(** X27 at the run with one repository without default branch. *)
Lemma dispatcher_logs_skipped_records_witness :
  exists s,
    exec branchlessRun branchlessSchedule (initial branchlessRun) = Some s /\
    logs s
    = warningsFor branchlessRun
        (processedBy branchlessRun branchlessSchedule (initial branchlessRun)).
Proof.
  eexists. split; [vm_compute; reflexivity|].
  apply (dispatcher_logs_skipped_records branchlessRun branchlessSchedule).
  vm_compute. reflexivity.
Defined.

(** ** [RunForRepository] reports what the dispatcher would skip *)

(** X28.  [RunForRepository] returns nil exactly when the name is well
    formed, the [gh api] call succeeds, its answer decodes and the
    processing of the decoded repository returns nil.  An error of the
    processing is always returned, wrapped with the repository's name: the
    missing default branch, which the dispatcher only logs, is an error
    here and still matches the sentinel. *)
Theorem RunForRepository_reports_processing (w : World) (repoName : string)
        (opts : Options) (t : list Event) :
  (fst (RunForRepository w repoName opts t) = None <->
   GoStrings.Count repoName "/"%char <= 1 /\
   exists payload repo,
     onRunX w t "." "gh" (repositoryArgs repoName) = (payload, None) /\
     unmarshalRepository w payload = inl repo /\
     fst (processRepository w repo opts
            (t ++ [EvRunX "." "gh" (repositoryArgs repoName)])) = None) /\
  (forall payload repo e,
     GoStrings.Count repoName "/"%char <= 1 ->
     onRunX w t "." "gh" (repositoryArgs repoName) = (payload, None) ->
     unmarshalRepository w payload = inl repo ->
     fst (processRepository w repo opts
            (t ++ [EvRunX "." "gh" (repositoryArgs repoName)])) = Some e ->
     fst (RunForRepository w repoName opts t)
     = Some (ErrWrapf "processing %q: %w" [Name repo] e) /\
     isNoDefaultBranch (ErrWrapf "processing %q: %w" [Name repo] e)
     = isNoDefaultBranch e).
Proof.
  unfold RunForRepository. split.
  - destruct (GoStrings.Count repoName "/" >? 1) eqn:Ec.
    + apply Z.gtb_lt in Ec. split; [discriminate | intros [Hc _]; lia].
    + rewrite Z.gtb_ltb in Ec. apply Z.ltb_ge in Ec.
      unfold bind at 1. unfold runX at 1.
      destruct (onRunX w t "." "gh" (repositoryArgs repoName)) as [out [e|]] eqn:Er;
        simpl.
      * split; [discriminate|]. intros (_ & payload & repo & Hp & _). discriminate Hp.
      * destruct (unmarshalRepository w out) as [repo|e] eqn:Eu.
        -- unfold bind.
           destruct (processRepository w repo opts _) as [[e|] t'] eqn:Ep; simpl.
           ++ split; [discriminate|].
              intros (_ & payload & repo' & Hp & Hu & Hn).
              injection Hp as <-. rewrite Eu in Hu. injection Hu as <-.
              rewrite Ep in Hn. discriminate Hn.
           ++ split; [|reflexivity]. intros _. split; [exact Ec|].
              exists out, repo. rewrite Ep. repeat split. exact Eu.
        -- split; [discriminate|].
           intros (_ & payload & repo' & Hp & Hu & _).
           injection Hp as <-. rewrite Eu in Hu. discriminate Hu.
  - intros payload repo e Hc Hr Hu Hp.
    assert (Ec : (GoStrings.Count repoName "/" >? 1) = false)
      by (rewrite Z.gtb_ltb; apply Z.ltb_ge; exact Hc).
    rewrite Ec. unfold bind at 1. unfold runX at 1. rewrite Hr. simpl.
    rewrite Hu. unfold bind.
    destruct (processRepository w repo opts _) as [res t']. simpl in Hp. subst res.
    split; reflexivity.
Qed.

(** ** What the counter [Processed] counts *)

(** X29.  Once the goroutines run, the counter [Processed] is the number of
    accepted records the producer has taken up: those whose processing has
    ended, those given up on cancellation or on a closed [doneC], and those
    still with the producer, in [repoC] or with a worker.  It counts a
    record before, and whether or not, it is processed. *)
Theorem processed_counts_taken_up (run : Run) (schedule : list Label) (s : State) :
  exec run schedule (initial run) = Some s ->
  (forall pages, main s <> MSum pages) ->
  mProcessed s
  = Z.of_nat (List.length (processedBy run schedule (initial run))
              + List.length (lostBy run schedule (initial run))
              + List.length (inFlight s)).
Proof.
  intros H Hm.
  pose proof (countersInv_exec run schedule _ _ (countersInv_initial run) H) as [HA _].
  assert (HC : counted run s).
  { destruct (main s) eqn:E; try exact (proj2 HA). now elim (Hm rest). }
  destruct HC as (examined & rest & Hu & Hall & _ & Hp).
  pose proof (pending_exec run schedule (initial run) s (dispatcherInv_initial run) H)
    as HP.
  apply Permutation_length in HP.
  assert (Hr : remaining run (producer s) = rest).
  { destruct (producer s); simpl in *; try discriminate Hu;
      injection Hu as <-; reflexivity. }
  unfold pending in HP. rewrite Hr in HP. simpl in HP.
  rewrite Hall, filter_app in HP.
  unfold inFlight. rewrite !length_app in *. rewrite Hp. lia.
Qed.

(** X29 at the cancelled scenario: one record taken up, none processed yet. *)
Lemma processed_counts_taken_up_witness :
  mProcessed cancelledState
  = Z.of_nat (List.length (processedBy scenarioRun cancelledSchedule (initial scenarioRun))
              + List.length (lostBy scenarioRun cancelledSchedule (initial scenarioRun))
              + List.length (inFlight cancelledState)).
Proof.
  apply (processed_counts_taken_up scenarioRun cancelledSchedule cancelledState).
  - vm_compute. reflexivity.
  - intros pages. vm_compute. discriminate.
Defined.
